(** * CoinPay: a shallow embedding of [contracts/CoinPay.sol]

    The contract processes payments: [createPayment] records a payment and
    completes it at once (platform fee to the fee recipient, the rest to the
    recipient), [refundPayment] and [cancelPayment] send the amount back to
    the payer, and the owner manages the fee configuration.

    Modelling choices, following the Solidity source (pragma ^0.8.20):
    - [uint256] and [address] values are [N]; arithmetic is checked, an
      overflow or underflow aborts the call with [Panic 0x11];
    - storage mappings are [gmap]s read with the zero value as default;
    - [require] failures are [Revert] with the message of the source;
    - the low-level [call{value: v}("")] is [call_value]: it moves the value,
      records the transfer and hands control to the receiver, which is a
      [handler].  A receiver may reject the value, accept it, or call back
      into the contract before it answers ([callee], run by [interp]);
    - a call that fails leaves no trace: the caller keeps the state it had
      before the call ([transact], and the [Reenter] case of [interp]);
    - account balances are unbounded naturals (the sum of all balances never
      comes near 2^256), and gas is not modelled: a call never runs out
      of it;
    - of [lib/contract.js], which calls the contract through a provider,
      the part that reads the payment id off the receipt of a createPayment
      transaction is modelled ([receipt_paymentId]). *)

From stdpp Require Import base numbers option list gmap strings.
From stdpp Require Import relations sorting.
From Stdlib Require Import NArith Lia.

Local Open Scope string_scope.
Local Open Scope N_scope.

(** ** Data model *)

Definition MAX_UINT256 : N := Eval vm_compute in 2 ^ 256 - 1.

Inductive PaymentStatus : Set :=
  | Pending
  | Completed
  | Refunded
  | Cancelled.

#[global] Instance PaymentStatus_eq_dec : EqDecision PaymentStatus.
Proof. solve_decision. Defined.

(** The struct [Payment]; its fields [id] and [exists] are [paymentId] and
    [exists_] here. *)
Record Payment : Type := mkPayment {
  paymentId : N;
  payer : N;
  recipient : N;
  amount : N;
  timestamp : N;
  status : PaymentStatus;
  description : string;
  exists_ : bool
}.

(** The value of a storage slot that was never written. *)
Definition zeroPayment : Payment :=
  mkPayment 0 0 0 0 0 Pending "" false.

Inductive Event : Type :=
  | PaymentCreated (pid payer recipient amount : N) (description : string)
  | PaymentCompleted (pid recipient amount : N)
  | PaymentRefunded (pid payer amount : N)
  | PaymentCancelled (pid payer amount : N).

(** What an outbound transfer was made for: the call site that issued it. *)
Inductive Purpose : Set :=
  | FeeOf (pid : N)
  | PayoutOf (pid : N)
  | RefundOf (pid : N)
  | CancelOf (pid : N)
  | Withdrawal.

#[global] Instance Purpose_eq_dec : EqDecision Purpose.
Proof. solve_decision. Defined.

Record Transfer : Type := mkTransfer {
  t_why : Purpose;
  t_to : N;
  t_value : N
}.

(** The contract's storage, together with what it can observe or cause
    outside: its own address, the account balances, the emitted events and
    the outbound transfers made so far (most recent first). *)
Record State : Type := mkState {
  owner : N;
  paymentCounter : N;
  payments : gmap N Payment;
  userPayments : gmap N (list N);
  platformFeeBps : N;
  feeRecipient : N;
  self : N;
  balances : gmap N N;
  events : list Event;
  transfers : list Transfer
}.

(** What a call carries: [msg.sender], [msg.value] and [block.timestamp]. *)
Record Msg : Type := mkMsg {
  sender : N;
  value : N;
  now : N
}.

(** ** Results of a call *)

Inductive result (A : Type) : Type :=
  | Ok (a : A)
  | Revert (reason : string)
  | Panic (code : N).
Arguments Ok {A} a.
Arguments Revert {A} reason.
Arguments Panic {A} code.

#[global] Instance result_bind : MBind result := fun _ _ f r =>
  match r with
  | Ok a => f a
  | Revert msg => Revert msg
  | Panic c => Panic c
  end.

(** [require(cond, msg)], and the arithmetic of Solidity 0.8 on [uint256]. *)
Definition require (cond : bool) (msg : string) : result unit :=
  if cond then Ok tt else Revert msg.

Definition checked_add (a b : N) : result N :=
  if a + b <=? MAX_UINT256 then Ok (a + b) else Panic 17.

Definition checked_sub (a b : N) : result N :=
  if b <=? a then Ok (a - b) else Panic 17.

Definition checked_mul (a b : N) : result N :=
  if a * b <=? MAX_UINT256 then Ok (a * b) else Panic 17.

(** ** Storage access *)

Definition payment_at (s : State) (pid : N) : Payment :=
  default zeroPayment (payments s !! pid).

Definition balance_of (s : State) (a : N) : N :=
  default 0 (balances s !! a).

Definition with_status (st : PaymentStatus) (p : Payment) : Payment :=
  mkPayment (paymentId p) (payer p) (recipient p) (amount p) (timestamp p)
            st (description p) (exists_ p).

Definition set_payments (f : gmap N Payment → gmap N Payment) (s : State) : State :=
  mkState (owner s) (paymentCounter s) (f (payments s)) (userPayments s)
          (platformFeeBps s) (feeRecipient s) (self s) (balances s)
          (events s) (transfers s).

Definition set_status (pid : N) (st : PaymentStatus) (s : State) : State :=
  set_payments (insert pid (with_status st (payment_at s pid))) s.

Definition set_paymentCounter (n : N) (s : State) : State :=
  mkState (owner s) n (payments s) (userPayments s)
          (platformFeeBps s) (feeRecipient s) (self s) (balances s)
          (events s) (transfers s).

Definition push_userPayment (user pid : N) (s : State) : State :=
  mkState (owner s) (paymentCounter s) (payments s)
          (<[user := (default [] (userPayments s !! user) ++ [pid])%list]>
             (userPayments s))
          (platformFeeBps s) (feeRecipient s) (self s) (balances s)
          (events s) (transfers s).

Definition set_platformFeeBps (bps : N) (s : State) : State :=
  mkState (owner s) (paymentCounter s) (payments s) (userPayments s)
          bps (feeRecipient s) (self s) (balances s)
          (events s) (transfers s).

Definition set_feeRecipient (a : N) (s : State) : State :=
  mkState (owner s) (paymentCounter s) (payments s) (userPayments s)
          (platformFeeBps s) a (self s) (balances s)
          (events s) (transfers s).

Definition emit (e : Event) (s : State) : State :=
  mkState (owner s) (paymentCounter s) (payments s) (userPayments s)
          (platformFeeBps s) (feeRecipient s) (self s) (balances s)
          (e :: events s) (transfers s).

(** Moving [v] from account [from] to account [to]; the caller has checked
    that [from] holds at least [v]. *)
Definition move (from to v : N) (s : State) : State :=
  let b1 := <[from := balance_of s from - v]> (balances s) in
  let b2 := <[to := default 0 (b1 !! to) + v]> b1 in
  mkState (owner s) (paymentCounter s) (payments s) (userPayments s)
          (platformFeeBps s) (feeRecipient s) (self s) b2
          (events s) (transfers s).

Definition record_transfer (t : Transfer) (s : State) : State :=
  mkState (owner s) (paymentCounter s) (payments s) (userPayments s)
          (platformFeeBps s) (feeRecipient s) (self s) (balances s)
          (events s) (t :: transfers s).

Definition set_balances (bal : gmap N N) (s : State) : State :=
  mkState (owner s) (paymentCounter s) (payments s) (userPayments s)
          (platformFeeBps s) (feeRecipient s) (self s) bal
          (events s) (transfers s).

(** ** The outbound call *)

(** What the receiver of a transfer does with the state it finds: [None]
    when it makes the call fail, [Some s'] when it returns normally. *)
Definition handler : Type := State → option State.

(** The state the receiver finds: the value has moved to it, and the
    transfer is on record. *)
Definition sent (why : Purpose) (to v : N) (s : State) : State :=
  record_transfer (mkTransfer why to v) (move (self s) to v s).

(** [payable(to).call{value: v}("")], with its [success] flag.  The call
    fails when the contract does not hold [v], when the receiver is the
    contract itself (its [receive] function reverts), or when the receiver
    fails; a failed call changes nothing. *)
Definition call_value (h : handler) (why : Purpose) (to v : N) (s : State)
  : bool * State :=
  if balance_of s (self s) <? v then (false, s)
  else if to =? self s then (false, s)
  else match h (sent why to v s) with
       | Some s' => (true, s')
       | None => (false, s)
       end.

(** ** The contract's functions *)

Definition constructor (this deployer _feeRecipient : N) (bal : gmap N N) : State :=
  mkState deployer 0 ∅ ∅ 25 _feeRecipient this bal [] [].

(** The fee split: [(payment.amount * platformFeeBps) / 10000] and the
    remainder, in checked arithmetic. *)
Definition split (amount feeBps : N) : result (N * N) :=
  product ← checked_mul amount feeBps;
  let feeAmount := product / 10000 in
  recipientAmount ← checked_sub amount feeAmount;
  Ok (feeAmount, recipientAmount).

Definition _completePayment (hfee hpay : handler) (_paymentId : N) (s : State)
  : result State :=
  require (bool_decide (status (payment_at s _paymentId) = Pending))
          "CoinPay: Payment not pending";;
  let s := set_status _paymentId Completed s in
  '(feeAmount, recipientAmount) ←
    split (amount (payment_at s _paymentId)) (platformFeeBps s);
  s ← (if (0 <? feeAmount) && negb (feeRecipient s =? 0) then
         let '(feeSuccess, s') :=
           call_value hfee (FeeOf _paymentId) (feeRecipient s) feeAmount s in
         require feeSuccess "CoinPay: Fee transfer failed";;
         Ok s'
       else Ok s);
  let '(success, s) :=
    call_value hpay (PayoutOf _paymentId)
               (recipient (payment_at s _paymentId)) recipientAmount s in
  require success "CoinPay: Payment transfer failed";;
  Ok (emit (PaymentCompleted _paymentId
              (recipient (payment_at s _paymentId)) recipientAmount) s).

Definition createPayment (hfee hpay : handler) (m : Msg)
    (_recipient : N) (_description : string) (s : State) : result (N * State) :=
  require (negb (_recipient =? 0)) "CoinPay: Invalid recipient";;
  require (negb (_recipient =? sender m)) "CoinPay: Cannot pay yourself";;
  require (0 <? value m) "CoinPay: Amount must be greater than 0";;
  counter ← checked_add (paymentCounter s) 1;
  let s := set_paymentCounter counter s in
  let paymentId := paymentCounter s in
  let newPayment :=
    mkPayment paymentId (sender m) _recipient (value m) (now m)
              Pending _description true in
  let s := set_payments (insert paymentId newPayment) s in
  let s := push_userPayment (sender m) paymentId s in
  let s := emit (PaymentCreated paymentId (sender m) _recipient (value m)
                                _description) s in
  s ← _completePayment hfee hpay paymentId s;
  Ok (paymentId, s).

Definition refundPayment (hpay : handler) (m : Msg) (_paymentId : N) (s : State)
  : result State :=
  require (exists_ (payment_at s _paymentId)) "CoinPay: Payment does not exist";;
  require (bool_decide (sender m = payer (payment_at s _paymentId))
           || bool_decide (sender m = owner s))
          "CoinPay: Unauthorized";;
  require (bool_decide (status (payment_at s _paymentId) = Pending)
           || bool_decide (status (payment_at s _paymentId) = Completed))
          "CoinPay: Cannot refund this payment";;
  let s := set_status _paymentId Refunded s in
  let refundAmount := amount (payment_at s _paymentId) in
  let '(success, s) :=
    call_value hpay (RefundOf _paymentId)
               (payer (payment_at s _paymentId)) refundAmount s in
  require success "CoinPay: Refund transfer failed";;
  Ok (emit (PaymentRefunded _paymentId (payer (payment_at s _paymentId))
                            refundAmount) s).

Definition cancelPayment (hpay : handler) (m : Msg) (_paymentId : N) (s : State)
  : result State :=
  require (exists_ (payment_at s _paymentId)) "CoinPay: Payment does not exist";;
  require (bool_decide (sender m = payer (payment_at s _paymentId))
           || bool_decide (sender m = owner s))
          "CoinPay: Unauthorized";;
  require (bool_decide (status (payment_at s _paymentId) = Pending))
          "CoinPay: Only pending payments can be cancelled";;
  let s := set_status _paymentId Cancelled s in
  let refundAmount := amount (payment_at s _paymentId) in
  let '(success, s) :=
    call_value hpay (CancelOf _paymentId)
               (payer (payment_at s _paymentId)) refundAmount s in
  require success "CoinPay: Cancel transfer failed";;
  Ok (emit (PaymentCancelled _paymentId (payer (payment_at s _paymentId))
                             refundAmount) s).

Definition getPayment (_paymentId : N) (s : State) : result Payment :=
  require (exists_ (payment_at s _paymentId)) "CoinPay: Payment does not exist";;
  Ok (payment_at s _paymentId).

Definition getUserPayments (_user : N) (s : State) : list N :=
  default [] (userPayments s !! _user).

Definition getPaymentCount (s : State) : N := paymentCounter s.

Definition updatePlatformFee (m : Msg) (_newFeeBps : N) (s : State) : result State :=
  require (bool_decide (sender m = owner s)) "CoinPay: Not owner";;
  require (_newFeeBps <=? 1000) "CoinPay: Fee cannot exceed 10%";;
  Ok (set_platformFeeBps _newFeeBps s).

Definition updateFeeRecipient (m : Msg) (_newFeeRecipient : N) (s : State)
  : result State :=
  require (bool_decide (sender m = owner s)) "CoinPay: Not owner";;
  require (negb (_newFeeRecipient =? 0)) "CoinPay: Invalid address";;
  Ok (set_feeRecipient _newFeeRecipient s).

Definition getBalance (s : State) : N := balance_of s (self s).

Definition emergencyWithdraw (hpay : handler) (m : Msg) (s : State) : result State :=
  require (bool_decide (sender m = owner s)) "CoinPay: Not owner";;
  let balance := balance_of s (self s) in
  require (0 <? balance) "CoinPay: No balance to withdraw";;
  let '(success, s) := call_value hpay Withdrawal (owner s) balance s in
  require success "CoinPay: Withdrawal failed";;
  Ok s.

(** ** Calls into the contract *)

Inductive Call : Type :=
  | CreatePayment (_recipient : N) (_description : string)
  | RefundPayment (_paymentId : N)
  | CancelPayment (_paymentId : N)
  | UpdatePlatformFee (_newFeeBps : N)
  | UpdateFeeRecipient (_newFeeRecipient : N)
  | EmergencyWithdraw.

(** A call that carries value moves it to the contract before the function
    runs; it fails when the sender cannot afford it.  [createPayment] is the
    only payable function: the others refuse a call that carries value. *)
Definition pay_in (m : Msg) (s : State) : result State :=
  if balance_of s (sender m) <? value m then Revert ""
  else Ok (move (sender m) (self s) (value m) s).

Definition nonpayable (m : Msg) : result unit :=
  require (value m =? 0) "".

Definition dispatch (hfee hpay : handler) (m : Msg) (c : Call) (s : State)
  : result State :=
  match c with
  | CreatePayment r d =>
      s ← pay_in m s; r ← createPayment hfee hpay m r d s; Ok r.2
  | RefundPayment pid => nonpayable m;; refundPayment hpay m pid s
  | CancelPayment pid => nonpayable m;; cancelPayment hpay m pid s
  | UpdatePlatformFee bps => nonpayable m;; updatePlatformFee m bps s
  | UpdateFeeRecipient a => nonpayable m;; updateFeeRecipient m a s
  | EmergencyWithdraw => nonpayable m;; emergencyWithdraw hpay m s
  end.

(** ** Receivers of a transfer *)

(** The receiver of a transfer rejects it, accepts it, or first calls back
    into the contract: [Reenter m c kfee kpay next] makes the call [c] with
    message [m], whose own transfers are received by [kfee] (the fee leg) and
    [kpay] (the principal leg), and goes on as [next] whether or not the call
    succeeded. *)
Inductive callee : Type :=
  | Reject
  | Accept
  | Reenter (m : Msg) (c : Call) (kfee kpay : callee) (next : callee).

Fixpoint interp (k : callee) (s : State) : option State :=
  match k with
  | Reject => None
  | Accept => Some s
  | Reenter m c kfee kpay next =>
      match dispatch (interp kfee) (interp kpay) m c s with
      | Ok s' => interp next s'
      | _ => interp next s
      end
  end.

(** ** Transactions *)

Record Tx : Type := mkTx {
  tx_msg : Msg;
  tx_call : Call;
  tx_fee : callee;
  tx_pay : callee
}.

Definition execute (t : Tx) (s : State) : result State :=
  dispatch (interp (tx_fee t)) (interp (tx_pay t)) (tx_msg t) (tx_call t) s.

(** A transaction either commits the state it computed or leaves the state
    as it was. *)
Definition transact (t : Tx) (s : State) : State :=
  match execute t s with
  | Ok s' => s'
  | _ => s
  end.

Definition run (txs : list Tx) (s : State) : State :=
  foldl (fun s t => transact t s) s txs.

(** The states the contract can be in between transactions: it is deployed,
    transactions call it, and in between the accounts' balances change
    through what happens elsewhere; the contract's own balance can only grow
    that way (value forced into it), since nothing but its own code spends
    it. *)
Inductive reachable : State → Prop :=
  | reachable_init this deployer _feeRecipient bal :
      reachable (constructor this deployer _feeRecipient bal)
  | reachable_step t s :
      reachable s → reachable (transact t s)
  | reachable_elsewhere bal s :
      reachable s →
      balance_of s (self s) ≤ default 0 (bal !! self s) →
      reachable (set_balances bal s).

(** ** Accounting of the outbound transfers *)

(** The transfers issued for one purpose, and their total value. *)
Definition issued (why : Purpose) (s : State) : list Transfer :=
  filter (fun t => t_why t = why) (transfers s).

Definition total (ts : list Transfer) : N :=
  foldr (fun t acc => t_value t + acc) 0 ts.

Definition paid (why : Purpose) (s : State) : N := total (issued why s).

(** Everything that left the contract on behalf of payment [pid]. *)
Definition attributed (pid : N) (s : State) : N :=
  paid (FeeOf pid) s + paid (PayoutOf pid) s
  + paid (RefundOf pid) s + paid (CancelOf pid) s.

(** ** States at the call sites *)

(** The state in which the payer's account is called by a refund of [pid]
    (or by its cancellation, with status [Cancelled]). *)
Definition payback_state (why : Purpose) (st : PaymentStatus) (pid : N) (s : State)
  : State :=
  let p := payment_at s pid in
  sent why (payer p) (amount p) (set_status pid st s).

(** Whether [_completePayment] sends the fee. *)
Definition fee_due (feeAmount : N) (s : State) : bool :=
  (0 <? feeAmount) && negb (feeRecipient s =? 0).

(** The state [createPayment] has built when it calls [_completePayment]. *)
Definition created_state (m : Msg) (_recipient : N) (_description : string)
    (s : State) : State :=
  let pid := paymentCounter s + 1 in
  emit (PaymentCreated pid (sender m) _recipient (value m) _description)
    (push_userPayment (sender m) pid
      (set_payments
         (insert pid (mkPayment pid (sender m) _recipient (value m) (now m)
                                Pending _description true))
         (set_paymentCounter pid s))).

(** The state in which [_completePayment] runs for a valid [createPayment],
    once it has written the status. *)
Definition completing_state (m : Msg) (r : N) (d : string) (s : State) : State :=
  set_status (paymentCounter s + 1) Completed
    (created_state m r d (move (sender m) (self s) (value m) s)).

(** ** Frame and invariant *)

(** The fields of a payment that no function writes after creation. *)
Definition same_terms (p p' : Payment) : Prop :=
  paymentId p' = paymentId p ∧ payer p' = payer p ∧ recipient p' = recipient p ∧
  amount p' = amount p ∧ timestamp p' = timestamp p ∧
  description p' = description p ∧ exists_ p' = exists_ p.

(** A payment slot is kept: its terms are the same, a completed payment
    stays so or becomes refunded, and a terminal status stays. *)
Definition kept (p p' : Payment) : Prop :=
  same_terms p p' ∧
  (status p = Completed → status p' = Completed ∨ status p' = Refunded) ∧
  (status p = Refunded → status p' = Refunded) ∧
  (status p = Cancelled → status p' = Cancelled).

(** From [s] to [s'] the owner index only grows, and the slots and the
    completion transfers of the payments numbered up to [n] are left alone. *)
Definition frame_upto (n : N) (s s' : State) : Prop :=
  (self s' = self s ∧ owner s' = owner s) ∧
  paymentCounter s ≤ paymentCounter s' ∧
  (∀ user, getUserPayments user s `prefix_of` getUserPayments user s') ∧
  ∀ pid, pid ≤ n →
    kept (payment_at s pid) (payment_at s' pid) ∧
    issued (FeeOf pid) s' = issued (FeeOf pid) s ∧
    issued (PayoutOf pid) s' = issued (PayoutOf pid) s.

(** From [s] to [s'] the counter and the owner index only grow and the slots
    of the payments numbered up to [n] are kept. *)
Definition slots_upto (n : N) (s s' : State) : Prop :=
  paymentCounter s ≤ paymentCounter s' ∧
  (∀ user, getUserPayments user s `prefix_of` getUserPayments user s') ∧
  ∀ pid, pid ≤ n → kept (payment_at s pid) (payment_at s' pid).

(** What holds of every state the contract's code can be observed in,
    between transactions and at every call it makes to a receiver: stored
    payments are numbered from 1 to the counter without gaps and are
    Completed or Refunded; no completion transfer exists for a payment not
    yet created; a payment has one refund transfer, of its full amount to
    its payer, exactly when it is Refunded, and never a cancel transfer; its
    fee and its recipient share were each sent at most once and together do
    not exceed its amount; the fee rate is at most 1000. *)
Record Inv (s : State) : Prop := mkInv {
  inv_ids : ∀ pid p, payments s !! pid = Some p →
    0 < pid ≤ paymentCounter s ∧ exists_ p = true ∧
    (status p = Completed ∨ status p = Refunded);
  inv_dense : ∀ pid, 0 < pid ≤ paymentCounter s →
    exists_ (payment_at s pid) = true;
  inv_fresh : ∀ pid, paymentCounter s < pid →
    issued (FeeOf pid) s = [] ∧ issued (PayoutOf pid) s = [];
  inv_refund : ∀ pid,
    issued (RefundOf pid) s =
    if bool_decide (status (payment_at s pid) = Refunded)
    then [mkTransfer (RefundOf pid) (payer (payment_at s pid))
                     (amount (payment_at s pid))]
    else [];
  inv_cancel : ∀ pid, issued (CancelOf pid) s = [];
  inv_fee_once : ∀ pid, (length (issued (FeeOf pid) s) ≤ 1)%nat;
  inv_payout_once : ∀ pid, (length (issued (PayoutOf pid) s) ≤ 1)%nat;
  inv_completion : ∀ pid,
    paid (FeeOf pid) s + paid (PayoutOf pid) s ≤ amount (payment_at s pid);
  inv_bps : platformFeeBps s ≤ 1000
}.

(** The completion of payment [pid] is over: its recipient was paid once,
    and the fee was either not sent or sent so that fee and recipient share
    make up the amount. *)
Definition settled (pid : N) (s : State) : Prop :=
  length (issued (PayoutOf pid) s) = 1%nat ∧
  (paid (FeeOf pid) s = 0 ∨
   paid (FeeOf pid) s + paid (PayoutOf pid) s = amount (payment_at s pid)).

(** The payments created from [s] to [s'] are settled in [s']. *)
Definition settles (s s' : State) : Prop :=
  ∀ pid, paymentCounter s < pid ≤ paymentCounter s' → settled pid s'.

(** What any run of the contract's code guarantees, from the state it
    starts in to the state it returns. *)
Definition guarantee (s s' : State) : Prop :=
  frame_upto (paymentCounter s) s s' ∧ (Inv s → Inv s' ∧ settles s s').

(** A receiver whose every successful run is related by [R]. *)
Definition respects (R : State → State → Prop) (h : handler) : Prop :=
  ∀ s s', h s = Some s' → R s s'.

(** ** Receivers that call back *)

(** Two receivers that do the same in every state satisfying [P]. *)
Definition agree_on (P : State → Prop) (h h' : handler) : Prop :=
  ∀ x, P x → h x = h' x.

(** Payment [pid] exists below the counter and has reached status [st]. *)
Definition advanced (pid : N) (st : PaymentStatus) (x : State) : Prop :=
  status (payment_at x pid) = st ∧ pid ≤ paymentCounter x.

(** The call that would repeat the transition into status [st] on [pid]. *)
Definition same_transition (pid : N) (st : PaymentStatus) (c : Call) : bool :=
  match st, c with
  | Refunded, RefundPayment x => x =? pid
  | Cancelled, CancelPayment x => x =? pid
  | _, _ => false
  end.

(** The receiver [k] without its attempts, at any depth, to repeat the
    transition into [st] on [pid]. *)
Fixpoint without (pid : N) (st : PaymentStatus) (k : callee) : callee :=
  match k with
  | Reject => Reject
  | Accept => Accept
  | Reenter m c kfee kpay next =>
      if same_transition pid st c then without pid st next
      else Reenter m c (without pid st kfee) (without pid st kpay)
                   (without pid st next)
  end.

(** ** What the contract refuses *)

(** [receive] and [fallback]: a plain transfer to the contract and a call to
    a function it does not have both revert.  This is why [call_value] fails
    when the receiver is the contract itself. *)
Definition receive (m : Msg) (s : State) : result State :=
  Revert "CoinPay: Use createPayment function".

Definition fallback (m : Msg) (s : State) : result State :=
  Revert "CoinPay: Function not found".

(** The functions behind the modifier [onlyOwner]. *)
Definition onlyOwner (c : Call) : bool :=
  match c with
  | UpdatePlatformFee _ | UpdateFeeRecipient _ | EmergencyWithdraw => true
  | _ => false
  end.

(** The reasons each function gives when it reverts; the empty reason is
    that of a call that carries value it should not or cannot carry. *)
Definition reasons (c : Call) : list string :=
  match c with
  | CreatePayment _ _ =>
      [""; "CoinPay: Invalid recipient"; "CoinPay: Cannot pay yourself";
       "CoinPay: Amount must be greater than 0";
       "CoinPay: Fee transfer failed"; "CoinPay: Payment transfer failed"]
  | RefundPayment _ =>
      [""; "CoinPay: Payment does not exist"; "CoinPay: Unauthorized";
       "CoinPay: Cannot refund this payment"; "CoinPay: Refund transfer failed"]
  | CancelPayment _ =>
      [""; "CoinPay: Payment does not exist"; "CoinPay: Unauthorized";
       "CoinPay: Only pending payments can be cancelled";
       "CoinPay: Cancel transfer failed"]
  | UpdatePlatformFee _ =>
      [""; "CoinPay: Not owner"; "CoinPay: Fee cannot exceed 10%"]
  | UpdateFeeRecipient _ =>
      [""; "CoinPay: Not owner"; "CoinPay: Invalid address"]
  | EmergencyWithdraw =>
      [""; "CoinPay: Not owner"; "CoinPay: No balance to withdraw";
       "CoinPay: Withdrawal failed"]
  end.

(** ** The contract's history *)

(** One step in the life of the deployed contract: a transaction, or a
    change of the accounts' balances through what happens elsewhere (which
    can only add to the contract's own balance). *)
Inductive step : State → State → Prop :=
  | step_transact t s : step s (transact t s)
  | step_elsewhere bal s :
      balance_of s (self s) ≤ default 0 (bal !! self s) →
      step s (set_balances bal s).

(** ** The life of a fee rate *)

(** Whether a call is a call to [updatePlatformFee] sent by account [o]:
    [platformFeeBps] is written by that function only, and only for the
    owner. *)
Definition updates_fee (o : N) (m : Msg) (c : Call) : bool :=
  match c with
  | UpdatePlatformFee _ => bool_decide (sender m = o)
  | _ => false
  end.

(** Whether a receiver makes such a call, at any depth. *)
Fixpoint callee_updates_fee (o : N) (k : callee) : bool :=
  match k with
  | Reject => false
  | Accept => false
  | Reenter m c kfee kpay next =>
      updates_fee o m c || callee_updates_fee o kfee
      || callee_updates_fee o kpay || callee_updates_fee o next
  end.

Definition tx_updates_fee (o : N) (t : Tx) : bool :=
  updates_fee o (tx_msg t) (tx_call t)
  || callee_updates_fee o (tx_fee t) || callee_updates_fee o (tx_pay t).

(** From [s] to [s'] the owner [o] and the fee rate are the same. *)
Definition same_rate (o : N) (s s' : State) : Prop :=
  owner s = o → owner s' = o ∧ platformFeeBps s' = platformFeeBps s.

(** A step of the contract's history in which the owner does not call
    [updatePlatformFee], directly or from a receiver. *)
Inductive step_without_update : State → State → Prop :=
  | quiet_transact t s :
      tx_updates_fee (owner s) t = false →
      step_without_update s (transact t s)
  | quiet_elsewhere bal s :
      balance_of s (self s) ≤ default 0 (bal !! self s) →
      step_without_update s (set_balances bal s).

(** ** The ledger and the logs *)

(** The ids 1, ..., n in increasing order. *)
Definition ids (n : N) : list N := N.of_nat <$> seq 1 (N.to_nat n).

(** The payments made by [user], in the order of their creation. *)
Definition payments_of (user : N) (s : State) : list N :=
  filter (fun pid => payer (payment_at s pid) = user) (ids (paymentCounter s)).

(** A transfer on record is justified by the ledger: a fee is a positive
    tenth at most of its payment's amount, a recipient's share goes to the
    payment's recipient and is nine tenths at least of the amount, a refund
    returns the amount of a Refunded payment to its payer, a withdrawal goes
    to the owner; there is no transfer for a cancellation. *)
Definition justified (s : State) (t : Transfer) : Prop :=
  match t_why t with
  | FeeOf pid =>
      0 < pid ≤ paymentCounter s ∧ t_to t ≠ 0 ∧
      0 < t_value t ∧ 10 * t_value t ≤ amount (payment_at s pid)
  | PayoutOf pid =>
      0 < pid ≤ paymentCounter s ∧ t_to t = recipient (payment_at s pid) ∧
      t_value t ≤ amount (payment_at s pid) ∧
      9 * amount (payment_at s pid) ≤ 10 * t_value t
  | RefundOf pid =>
      0 < pid ≤ paymentCounter s ∧ t_to t = payer (payment_at s pid) ∧
      t_value t = amount (payment_at s pid) ∧
      status (payment_at s pid) = Refunded
  | CancelOf _ => False
  | Withdrawal => t_to t = owner s ∧ 0 < t_value t
  end.

(** An event on the log is truthful: it reports a stored payment with its
    terms, a recipient's share that was transferred, or the refund that was
    transferred of a payment that is Refunded; no cancellation is ever
    reported. *)
Definition truthful (s : State) (e : Event) : Prop :=
  match e with
  | PaymentCreated pid p r a d =>
      0 < pid ≤ paymentCounter s ∧
      p = payer (payment_at s pid) ∧ r = recipient (payment_at s pid) ∧
      a = amount (payment_at s pid) ∧ d = description (payment_at s pid)
  | PaymentCompleted pid r a =>
      0 < pid ≤ paymentCounter s ∧ mkTransfer (PayoutOf pid) r a ∈ transfers s
  | PaymentRefunded pid p a =>
      0 < pid ≤ paymentCounter s ∧ status (payment_at s pid) = Refunded ∧
      mkTransfer (RefundOf pid) p a ∈ transfers s
  | PaymentCancelled _ _ _ => False
  end.

(** The books are in order: the stored payments are those numbered 1 to the
    counter, each under its own id, with a positive amount, a recipient that
    is neither null nor the payer, and status Completed or Refunded; the
    owner index of every account lists its payments in the order of their
    creation; every transfer on record is justified and none went to the
    contract itself; every event is truthful and every payment has its
    [PaymentCreated] event; the fee rate is at most 1000. *)
Record Ledger (s : State) : Prop := mkLedger {
  ledger_key : ∀ pid p, payments s !! pid = Some p →
    0 < pid ≤ paymentCounter s ∧ paymentId p = pid ∧ exists_ p = true ∧
    0 < amount p ∧ recipient p ≠ 0 ∧ recipient p ≠ payer p ∧
    (status p = Completed ∨ status p = Refunded);
  ledger_dense : ∀ pid, 0 < pid ≤ paymentCounter s →
    is_Some (payments s !! pid);
  ledger_index : ∀ user, getUserPayments user s = payments_of user s;
  ledger_transfers : ∀ t, t ∈ transfers s → justified s t ∧ t_to t ≠ self s;
  ledger_events : ∀ e, e ∈ events s → truthful s e;
  ledger_created : ∀ pid, 0 < pid ≤ paymentCounter s →
    PaymentCreated pid (payer (payment_at s pid)) (recipient (payment_at s pid))
                   (amount (payment_at s pid)) (description (payment_at s pid))
      ∈ events s;
  ledger_bps : platformFeeBps s ≤ 1000
}.

(** What happened to payment [pid] from [s] to [s'] has been announced in
    [s']: its completion if it was created, its refund if it was refunded. *)
Definition announced (pid : N) (s s' : State) : Prop :=
  let p := payment_at s' pid in
  (paymentCounter s < pid →
     ∃ a, PaymentCompleted pid (recipient p) a ∈ events s') ∧
  (status p = Refunded →
   (pid ≤ paymentCounter s → status (payment_at s pid) ≠ Refunded) →
   PaymentRefunded pid (payer p) (amount p) ∈ events s').

Definition announces (s s' : State) : Prop :=
  ∀ pid, 0 < pid ≤ paymentCounter s' → announced pid s s'.

(** What any run of the contract's code guarantees about the books: the
    logs only grow, a fee recipient that is set stays set, and books that
    were in order are in order, with everything that happened announced. *)
Definition audited (s s' : State) : Prop :=
  events s `suffix_of` events s' ∧
  transfers s `suffix_of` transfers s' ∧
  (feeRecipient s ≠ 0 → feeRecipient s' ≠ 0) ∧
  (Ledger s → Ledger s' ∧ announces s s').

(** What a run of the contract's code from [s] to [s'] keeps whatever the
    state of the books: the owner and the contract's address, the slots of
    the payments there were, and the logs, which only grow. *)
Definition logged (s s' : State) : Prop :=
  owner s' = owner s ∧ self s' = self s ∧
  slots_upto (paymentCounter s) s s' ∧
  events s `suffix_of` events s' ∧
  transfers s `suffix_of` transfers s' ∧
  (feeRecipient s ≠ 0 → feeRecipient s' ≠ 0).

(** A run that also keeps the books in order. *)
Definition followed (s s' : State) : Prop :=
  logged s s' ∧ (Ledger s → Ledger s' ∧ announces s s').

(** ** The receipt of a transaction, as [lib/contract.js] reads it *)

(** The events a committed transaction has logged, oldest first. *)
Definition receipt_logs (s s' : State) : list Event :=
  reverse (take (length (events s') - length (events s)) (events s')).

(** What [parseLog] gives for a log of the contract: the event's name and,
    among its arguments, the payment id. *)
Definition parsed_name (log : Event) : string :=
  match log with
  | PaymentCreated _ _ _ _ _ => "PaymentCreated"
  | PaymentCompleted _ _ _ => "PaymentCompleted"
  | PaymentRefunded _ _ _ => "PaymentRefunded"
  | PaymentCancelled _ _ _ => "PaymentCancelled"
  end.

Definition parsed_paymentId (log : Event) : N :=
  match log with
  | PaymentCreated pid _ _ _ _ | PaymentCompleted pid _ _
  | PaymentRefunded pid _ _ | PaymentCancelled pid _ _ => pid
  end.

(** [createPayment] of [lib/contract.js] looks for the first log of the
    receipt whose name is PaymentCreated and, when there is one, returns its
    payment id. *)
Definition paymentCreatedEvent (logs : list Event) : option Event :=
  List.find (fun log => bool_decide (parsed_name log = "PaymentCreated")) logs.

Definition receipt_paymentId (logs : list Event) : option N :=
  parsed_paymentId <$> paymentCreatedEvent logs.

(** ** Scenarios *)

(** The contract at address 100, deployed by account 1 with no fee
    recipient; account 10 holds 50000. *)
Definition deployed_no_fee_recipient : State :=
  constructor 100 1 0 {[ 10 := 50000 ]}.

(** The same deployment with account 9 as fee recipient. *)
Definition deployed : State :=
  constructor 100 1 9 {[ 10 := 50000 ]}.

(** Account 10 pays 10000 and then 10 to account 11; both accounts are
    plain accounts, which accept what they are sent. *)
Definition two_payments : State :=
  run [mkTx (mkMsg 10 10000 7) (CreatePayment 11 "first") Accept Accept;
       mkTx (mkMsg 10 10 8) (CreatePayment 11 "second") Accept Accept]
      deployed_no_fee_recipient.

(** Account 10 then asks for the refund of its second payment. *)
Definition refund_second : Tx :=
  mkTx (mkMsg 10 0 9) (RefundPayment 2) Accept Accept.

(** Account 10 pays 1000 to account 11, which rejects what it is sent, after
    the fee recipient has accepted the fee. *)
Definition rejected_payment : Tx :=
  mkTx (mkMsg 10 1000 7) (CreatePayment 11 "rejected") Accept Reject.

(** An account that, when it is paid, first asks for the refund of payment 2
    (again) and then accepts what it was sent. *)
Definition greedy_payer : callee :=
  Reenter (mkMsg 10 0 9) (RefundPayment 2) Accept Accept Accept.

(** Account 10 has paid 10000 to account 11; the fee of 25 has stayed in the
    contract, which has no fee recipient. *)
Definition one_payment : State :=
  run [mkTx (mkMsg 10 10000 7) (CreatePayment 11 "first") Accept Accept]
      deployed_no_fee_recipient.

(** The owner (account 1), when it is paid, asks for the refund of payment 2
    and then accepts what it was sent. *)
Definition refunding_owner : callee :=
  Reenter (mkMsg 1 0 8) (RefundPayment 2) Accept Accept Accept.

(** Account 10 pays 10 to the owner. *)
Definition payment_to_owner : Tx :=
  mkTx (mkMsg 10 10 8) (CreatePayment 1 "second") Accept refunding_owner.

(** ** Elementary facts about the state updates *)

Section Projections.
Context (s : State) (pid : N).

Lemma payment_at_set_status p st :
  payment_at (set_status p st s) pid =
  if decide (p = pid) then with_status st (payment_at s p) else payment_at s pid.
Proof.
  unfold payment_at, set_status; simpl.
  rewrite lookup_insert. by case_decide.
Qed.

Lemma payment_at_insert p x :
  payment_at (set_payments (insert p x) s) pid =
  if decide (p = pid) then x else payment_at s pid.
Proof.
  unfold payment_at; simpl. rewrite lookup_insert. by case_decide.
Qed.

Lemma payment_at_emit e : payment_at (emit e s) pid = payment_at s pid.
Proof. reflexivity. Qed.

Lemma payment_at_move a b v : payment_at (move a b v s) pid = payment_at s pid.
Proof. reflexivity. Qed.

Lemma payment_at_record t : payment_at (record_transfer t s) pid = payment_at s pid.
Proof. reflexivity. Qed.

Lemma payment_at_push u p : payment_at (push_userPayment u p s) pid = payment_at s pid.
Proof. reflexivity. Qed.

Lemma payment_at_counter n : payment_at (set_paymentCounter n s) pid = payment_at s pid.
Proof. reflexivity. Qed.

Lemma payment_at_absent : payments s !! pid = None → payment_at s pid = zeroPayment.
Proof. unfold payment_at. by intros ->. Qed.

Lemma payment_at_exists :
  exists_ (payment_at s pid) = true → payments s !! pid = Some (payment_at s pid).
Proof.
  unfold payment_at. destruct (payments s !! pid); [done | discriminate].
Qed.
End Projections.

Lemma issued_record why t s :
  issued why (record_transfer t s) =
  if decide (t_why t = why) then t :: issued why s else issued why s.
Proof.
  unfold issued; simpl. rewrite filter_cons. by case_decide.
Qed.

Lemma balance_of_move_from a b v s :
  a ≠ b → balance_of (move a b v s) a = balance_of s a - v.
Proof.
  intros Hab. unfold balance_of, move; simpl.
  rewrite lookup_insert_ne by done. by rewrite lookup_insert_eq.
Qed.

Lemma balance_of_move_to a b v s :
  a ≠ b → balance_of (move a b v s) b = balance_of s b + v.
Proof.
  intros Hab. unfold balance_of, move; simpl.
  rewrite lookup_insert_eq. by rewrite lookup_insert_ne.
Qed.

Lemma balance_of_move_other a b v s c :
  c ≠ a → c ≠ b → balance_of (move a b v s) c = balance_of s c.
Proof.
  intros Ha Hb. unfold balance_of, move; simpl.
  by rewrite !lookup_insert_ne.
Qed.

(** What a [call_value] did, from its answer. *)
Lemma call_value_inv h why to v s ok s' :
  call_value h why to v s = (ok, s') →
  (ok = false ∧ s' = s) ∨
  (ok = true ∧ v ≤ balance_of s (self s) ∧ to ≠ self s ∧
   h (sent why to v s) = Some s').
Proof.
  unfold call_value.
  destruct (N.ltb_spec (balance_of s (self s)) v); [naive_solver |].
  destruct (N.eqb_spec to (self s)); [naive_solver |].
  destruct (h _); naive_solver.
Qed.

Lemma require_ok cond msg u : require cond msg = Ok u → cond = true.
Proof. by destruct cond. Qed.

Lemma bind_ext {A B} (r : result A) (f g : A → result B) :
  (∀ a, r = Ok a → f a = g a) → r ≫= f = r ≫= g.
Proof. destruct r; simpl; auto. Qed.

Lemma bind_ok {A B} (r : result A) (f : A → result B) b :
  r ≫= f = Ok b → ∃ a, r = Ok a ∧ f a = Ok b.
Proof. destruct r; naive_solver. Qed.

(** ** The frame *)

Lemma kept_refl p : kept p p.
Proof. repeat split; auto. Qed.

Lemma kept_trans p1 p2 p3 : kept p1 p2 → kept p2 p3 → kept p1 p3.
Proof.
  unfold kept, same_terms. intros (T1 & D1 & R1 & C1) (T2 & D2 & R2 & C2).
  split; [destruct_and!; repeat split; congruence |].
  split; [| by auto].
  intros [? | ?]%D1; auto.
Qed.

Lemma kept_with_status st p :
  status p ≠ Refunded → status p ≠ Cancelled →
  (status p = Completed → st = Refunded) →
  kept p (with_status st p).
Proof. repeat split; try done. simpl. auto. Qed.

Lemma frame_upto_refl n s : frame_upto n s s.
Proof. repeat split; try done; apply kept_refl. Qed.

Lemma frame_upto_trans n s1 s2 s3 :
  frame_upto n s1 s2 → frame_upto n s2 s3 → frame_upto n s1 s3.
Proof.
  intros ([S1 O1] & C1 & U1 & F1) ([S2 O2] & C2 & U2 & F2).
  split; [split; congruence |]. split; [lia |].
  split; [intros user; etrans; [apply U1 | apply U2] |].
  intros pid Hpid.
  destruct (F1 pid Hpid) as (K1 & A1 & B1), (F2 pid Hpid) as (K2 & A2 & B2).
  split; [by eapply kept_trans |]. split; congruence.
Qed.

Lemma frame_upto_mono n n' s s' :
  n' ≤ n → frame_upto n s s' → frame_upto n' s s'.
Proof.
  intros Hn (S1 & C1 & U1 & F1).
  split; [done |]. split; [done |]. split; [done |].
  intros pid Hpid. apply F1. lia.
Qed.

Lemma frame_emit n e s : frame_upto n s (emit e s).
Proof. repeat split; try done; apply kept_refl. Qed.

Lemma frame_move n a b v s : frame_upto n s (move a b v s).
Proof. repeat split; try done; apply kept_refl. Qed.

Lemma frame_push n u p s : frame_upto n s (push_userPayment u p s).
Proof.
  split; [done |]. split; [done |]. split.
  - intros user. unfold getUserPayments; simpl. rewrite lookup_insert.
    case_decide; [subst; by apply prefix_app_r | done].
  - intros pid _. split; [apply kept_refl | done].
Qed.

Lemma frame_bps n b s : frame_upto n s (set_platformFeeBps b s).
Proof. repeat split; try done; apply kept_refl. Qed.

Lemma frame_feeRecipient n a s : frame_upto n s (set_feeRecipient a s).
Proof. repeat split; try done; apply kept_refl. Qed.

Lemma frame_upto_slots n s s' :
  self s' = self s ∧ owner s' = owner s →
  paymentCounter s ≤ paymentCounter s' →
  userPayments s' = userPayments s →
  transfers s' = transfers s →
  (∀ pid, pid ≤ n → kept (payment_at s pid) (payment_at s' pid)) →
  frame_upto n s s'.
Proof.
  intros Hs Hc Hu Ht Hk. split; [done |]. split; [done |].
  split; [intros user; unfold getUserPayments; by rewrite Hu |].
  intros pid Hpid. split; [by apply Hk |].
  unfold issued. by rewrite Ht.
Qed.

Lemma frame_counter n c s :
  paymentCounter s ≤ c → frame_upto n s (set_paymentCounter c s).
Proof.
  intros Hc. apply frame_upto_slots; [done | done | done | done |].
  intros; apply kept_refl.
Qed.

Lemma frame_insert n p x s :
  n < p → frame_upto n s (set_payments (insert p x) s).
Proof.
  intros Hp. apply frame_upto_slots; [done | simpl; lia | done | done |].
  intros pid Hpid.
  rewrite payment_at_insert. case_decide; [lia | apply kept_refl].
Qed.

Lemma frame_set_status_new n p st s :
  n < p → frame_upto n s (set_status p st s).
Proof.
  intros Hp. apply frame_upto_slots; [done | simpl; lia | done | done |].
  intros pid Hpid.
  rewrite payment_at_set_status. case_decide; [lia | apply kept_refl].
Qed.

Lemma frame_set_status_live n p st s :
  status (payment_at s p) ≠ Refunded → status (payment_at s p) ≠ Cancelled →
  (status (payment_at s p) = Completed → st = Refunded) →
  frame_upto n s (set_status p st s).
Proof.
  intros HR HC HD. apply frame_upto_slots; [done | simpl; lia | done | done |].
  intros pid Hpid.
  rewrite payment_at_set_status. case_decide as Hd; [| apply kept_refl].
  subst. by apply kept_with_status.
Qed.

Lemma frame_record n t s :
  (∀ pid, pid ≤ n → t_why t ≠ FeeOf pid ∧ t_why t ≠ PayoutOf pid) →
  frame_upto n s (record_transfer t s).
Proof.
  intros Ht. split; [done |]. split; [done |]. split; [done |].
  intros pid Hpid. destruct (Ht pid Hpid) as [Hf Hp].
  split; [apply kept_refl |].
  rewrite !issued_record. by repeat case_decide.
Qed.

Lemma respects_frame h s s' :
  respects guarantee h → h s = Some s' → frame_upto (paymentCounter s) s s'.
Proof. intros Hh Hs. by apply Hh. Qed.

Lemma respects_inv h s s' :
  respects guarantee h → h s = Some s' → Inv s → Inv s'.
Proof. intros Hh Hs HI. by apply (Hh s s' Hs). Qed.

Lemma respects_settles h s s' :
  respects guarantee h → h s = Some s' → Inv s → settles s s'.
Proof. intros Hh Hs HI. by apply (Hh s s' Hs). Qed.

Lemma settled_frame n pid s s' :
  frame_upto n s s' → pid ≤ n → settled pid s → settled pid s'.
Proof.
  intros (_ & _ & _ & Hf) Hpid [H1 H2].
  destruct (Hf pid Hpid) as (((_ & _ & _ & Ha & _) & _) & Hfee & Hpay).
  unfold settled, paid. by rewrite Hfee, Hpay, Ha.
Qed.

Lemma settles_none s s' :
  paymentCounter s' ≤ paymentCounter s → settles s s'.
Proof. intros Hc pid Hpid. lia. Qed.

Lemma settles_trans s1 s2 s3 :
  settles s1 s2 → frame_upto (paymentCounter s2) s2 s3 → settles s2 s3 →
  settles s1 s3.
Proof.
  intros H12 F23 H23 pid Hpid.
  destruct (decide (pid ≤ paymentCounter s2)) as [Hle | Hgt].
  - eapply settled_frame; [exact F23 | done |]. apply H12. lia.
  - apply H23. lia.
Qed.

(** ** Successful runs, step by step *)

Ltac inv_bind H :=
  repeat match type of H with
  | (_ ≫= _) = Ok _ =>
      let a := fresh "a" in
      let Ha := fresh "Hstep" in
      apply bind_ok in H as (a & Ha & H)
  end.

Ltac inv_require :=
  repeat match goal with
  | H : require _ _ = Ok _ |- _ => apply require_ok in H
  end.

Lemma refundPayment_ok hpay m pid s s' :
  refundPayment hpay m pid s = Ok s' →
  let p := payment_at s pid in
  exists_ p = true ∧
  (sender m = payer p ∨ sender m = owner s) ∧
  (status p = Pending ∨ status p = Completed) ∧
  amount p ≤ balance_of s (self s) ∧ payer p ≠ self s ∧
  ∃ s2, hpay (payback_state (RefundOf pid) Refunded pid s) = Some s2 ∧
        s' = emit (PaymentRefunded pid (payer (payment_at s2 pid)) (amount p)) s2.
Proof.
  unfold refundPayment. intros H. inv_bind H. inv_require.
  rewrite payment_at_set_status in H. rewrite decide_True in H by done.
  simpl in H.
  destruct (call_value _ _ _ _ _) as [ok s2] eqn:Hcall.
  inv_bind H. inv_require. subst ok. injection H as <-.
  apply call_value_inv in Hcall as [[? _] | (_ & Hbal & Hto & Hh)]; [done |].
  simpl in *.
  repeat split; try done.
  - apply orb_true_iff in Hstep0 as [?%bool_decide_eq_true | ?%bool_decide_eq_true]; auto.
  - apply orb_true_iff in Hstep1 as [?%bool_decide_eq_true | ?%bool_decide_eq_true]; auto.
  - eexists; split; [exact Hh | done].
Qed.

Lemma cancelPayment_ok hpay m pid s s' :
  cancelPayment hpay m pid s = Ok s' →
  let p := payment_at s pid in
  exists_ p = true ∧
  (sender m = payer p ∨ sender m = owner s) ∧
  status p = Pending ∧
  amount p ≤ balance_of s (self s) ∧ payer p ≠ self s ∧
  ∃ s2, hpay (payback_state (CancelOf pid) Cancelled pid s) = Some s2 ∧
        s' = emit (PaymentCancelled pid (payer (payment_at s2 pid)) (amount p)) s2.
Proof.
  unfold cancelPayment. intros H. inv_bind H. inv_require.
  rewrite payment_at_set_status in H. rewrite decide_True in H by done.
  simpl in H.
  destruct (call_value _ _ _ _ _) as [ok s2] eqn:Hcall.
  inv_bind H. inv_require. subst ok. injection H as <-.
  apply call_value_inv in Hcall as [[? _] | (_ & Hbal & Hto & Hh)]; [done |].
  simpl in *.
  repeat split; try done.
  - apply orb_true_iff in Hstep0 as [?%bool_decide_eq_true | ?%bool_decide_eq_true]; auto.
  - by apply bool_decide_eq_true in Hstep1.
  - eexists; split; [exact Hh | done].
Qed.

Lemma split_ok a bps fee rest :
  split a bps = Ok (fee, rest) →
  a * bps ≤ MAX_UINT256 ∧ fee = a * bps / 10000 ∧ fee ≤ a ∧ rest = a - fee.
Proof.
  unfold split, checked_mul, checked_sub. intros H.
  destruct (N.leb_spec (a * bps) MAX_UINT256); [simpl in H | done].
  destruct (N.leb_spec (a * bps / 10000) a); [simpl in H | done].
  by injection H as <- <-.
Qed.

Lemma _completePayment_ok hfee hpay pid s s' :
  _completePayment hfee hpay pid s = Ok s' →
  let p := payment_at s pid in
  let s1 := set_status pid Completed s in
  status p = Pending ∧
  ∃ fee rest s2 s3,
    split (amount p) (platformFeeBps s) = Ok (fee, rest) ∧
    (if fee_due fee s
     then fee ≤ balance_of s (self s) ∧ feeRecipient s ≠ self s ∧
          hfee (sent (FeeOf pid) (feeRecipient s) fee s1) = Some s2
     else s2 = s1) ∧
    rest ≤ balance_of s2 (self s2) ∧
    recipient (payment_at s2 pid) ≠ self s2 ∧
    hpay (sent (PayoutOf pid) (recipient (payment_at s2 pid)) rest s2) = Some s3 ∧
    s' = emit (PaymentCompleted pid (recipient (payment_at s3 pid)) rest) s3.
Proof.
  unfold _completePayment. intros H. inv_bind H. inv_require.
  apply bool_decide_eq_true in Hstep. split; [done |].
  rewrite payment_at_set_status in Hstep0. rewrite decide_True in Hstep0 by done.
  destruct a0 as [fee rest]. simpl in Hstep0.
  inv_bind H. rename a0 into s2.
  destruct (call_value hpay _ _ _ _) as [ok s3] eqn:Hcall.
  inv_bind H. inv_require. subst ok. injection H as <-.
  apply call_value_inv in Hcall as [[? _] | (_ & Hbal & Hto & Hh)]; [done |].
  exists fee, rest, s2, s3. split; [done |].
  split; [| done].
  unfold fee_due. simpl in Hstep1.
  destruct ((0 <? fee) && negb (feeRecipient s =? 0)); [| by injection Hstep1 as <-].
  destruct (call_value hfee _ _ _ _) as [ok s2'] eqn:Hfee.
  inv_bind Hstep1. inv_require. subst ok. injection Hstep1 as <-.
  by apply call_value_inv in Hfee as [[? _] | (_ & ? & ? & ?)].
Qed.

Lemma createPayment_ok hfee hpay m r d s pid s' :
  createPayment hfee hpay m r d s = Ok (pid, s') →
  r ≠ 0 ∧ r ≠ sender m ∧ 0 < value m ∧
  paymentCounter s + 1 ≤ MAX_UINT256 ∧
  pid = paymentCounter s + 1 ∧
  _completePayment hfee hpay pid (created_state m r d s) = Ok s'.
Proof.
  unfold createPayment. intros H. inv_bind H. inv_require.
  unfold checked_add in Hstep2.
  destruct (N.leb_spec (paymentCounter s + 1) MAX_UINT256); [| done].
  injection Hstep2 as <-. simpl in Hstep3. injection H as <- <-.
  apply negb_true_iff, N.eqb_neq in Hstep, Hstep0. apply N.ltb_lt in Hstep1.
  done.
Qed.

Lemma emergencyWithdraw_ok hpay m s s' :
  emergencyWithdraw hpay m s = Ok s' →
  sender m = owner s ∧ 0 < balance_of s (self s) ∧ owner s ≠ self s ∧
  hpay (sent Withdrawal (owner s) (balance_of s (self s)) s) = Some s'.
Proof.
  unfold emergencyWithdraw. intros H. inv_bind H. inv_require.
  destruct (call_value _ _ _ _ _) as [ok s2] eqn:Hcall.
  inv_bind H. inv_require. subst ok. injection H as <-.
  apply call_value_inv in Hcall as [[? _] | (_ & Hbal & Hto & Hh)]; [done |].
  apply bool_decide_eq_true in Hstep. by apply N.ltb_lt in Hstep0.
Qed.

Lemma updatePlatformFee_ok m bps s s' :
  updatePlatformFee m bps s = Ok s' →
  sender m = owner s ∧ bps ≤ 1000 ∧ s' = set_platformFeeBps bps s.
Proof.
  unfold updatePlatformFee. intros H. inv_bind H. inv_require.
  injection H as <-. apply bool_decide_eq_true in Hstep.
  by apply N.leb_le in Hstep0.
Qed.

Lemma updateFeeRecipient_ok m a s s' :
  updateFeeRecipient m a s = Ok s' →
  sender m = owner s ∧ a ≠ 0 ∧ s' = set_feeRecipient a s.
Proof.
  unfold updateFeeRecipient. intros H. inv_bind H. inv_require.
  injection H as <-. apply bool_decide_eq_true in Hstep.
  by apply negb_true_iff, N.eqb_neq in Hstep0.
Qed.

Lemma frame_sent n why to v s :
  (∀ pid, pid ≤ n → why ≠ FeeOf pid ∧ why ≠ PayoutOf pid) →
  frame_upto n s (sent why to v s).
Proof.
  intros Hwhy. unfold sent.
  eapply frame_upto_trans; [apply frame_move | by apply frame_record].
Qed.

Lemma frame_payback n why st pid s :
  (∀ p, why ≠ FeeOf p ∧ why ≠ PayoutOf p) →
  status (payment_at s pid) = Pending ∨
  (status (payment_at s pid) = Completed ∧ st = Refunded) →
  frame_upto n s (payback_state why st pid s).
Proof.
  intros Hwhy Hst. unfold payback_state.
  apply (frame_upto_trans _ _ (set_status pid st s)).
  - apply frame_set_status_live; destruct Hst as [? | [? ?]]; congruence.
  - apply frame_sent. intros; apply Hwhy.
Qed.

Section Frame.
Context (hfee hpay : handler).
Context (Hfee : respects guarantee hfee) (Hpay : respects guarantee hpay).

Lemma refundPayment_frame m pid s s' :
  refundPayment hpay m pid s = Ok s' → frame_upto (paymentCounter s) s s'.
Proof using Hpay.
  intros H. apply refundPayment_ok in H as (_ & _ & Hst & _ & _ & s2 & Hh & ->).
  apply (frame_upto_trans _ _ (payback_state (RefundOf pid) Refunded pid s));
    [apply frame_payback; [done | destruct Hst; auto] |].
  eapply frame_upto_trans; [| apply frame_emit].
  exact (respects_frame _ _ _ Hpay Hh).
Qed.

Lemma cancelPayment_frame m pid s s' :
  cancelPayment hpay m pid s = Ok s' → frame_upto (paymentCounter s) s s'.
Proof using Hpay.
  intros H. apply cancelPayment_ok in H as (_ & _ & Hst & _ & _ & s2 & Hh & ->).
  apply (frame_upto_trans _ _ (payback_state (CancelOf pid) Cancelled pid s));
    [apply frame_payback; by auto |].
  eapply frame_upto_trans; [| apply frame_emit].
  exact (respects_frame _ _ _ Hpay Hh).
Qed.

Lemma emergencyWithdraw_frame m s s' :
  emergencyWithdraw hpay m s = Ok s' → frame_upto (paymentCounter s) s s'.
Proof using Hpay.
  intros H. apply emergencyWithdraw_ok in H as (_ & _ & _ & Hh).
  eapply frame_upto_trans; [| exact (respects_frame _ _ _ Hpay Hh)].
  by apply frame_sent.
Qed.

(** Completion of the payment numbered [pid] leaves the payments below it
    alone. *)
Lemma _completePayment_frame n pid s s' :
  n < pid → n ≤ paymentCounter s →
  _completePayment hfee hpay pid s = Ok s' → frame_upto n s s'.
Proof using Hfee Hpay.
  intros Hn Hc H.
  apply _completePayment_ok in H
    as (_ & fee & rest & s2 & s3 & _ & Hfeeleg & _ & _ & Hh & ->).
  assert (Hnew : ∀ p, p ≤ n → FeeOf pid ≠ FeeOf p ∧ FeeOf pid ≠ PayoutOf p)
    by (intros p ?; split; [intros [= ->]; lia | done]).
  assert (Hnew' : ∀ p, p ≤ n → PayoutOf pid ≠ FeeOf p ∧ PayoutOf pid ≠ PayoutOf p)
    by (intros p ?; split; [done | intros [= ->]; lia]).
  assert (F2 : frame_upto n s s2).
  { apply (frame_upto_trans _ _ (set_status pid Completed s));
      [by apply frame_set_status_new |].
    destruct (fee_due fee s); [| subst s2; apply frame_upto_refl].
    destruct Hfeeleg as (_ & _ & Hhf).
    eapply frame_upto_trans;
      [| eapply frame_upto_mono; [| exact (respects_frame _ _ _ Hfee Hhf)]];
      [by apply frame_sent | simpl; lia]. }
  apply (frame_upto_trans _ _ s2); [exact F2 |].
  eapply frame_upto_trans; [| apply frame_emit].
  eapply frame_upto_trans;
    [| eapply frame_upto_mono; [| exact (respects_frame _ _ _ Hpay Hh)]];
    [by apply frame_sent |].
  simpl. destruct F2 as (_ & ? & _). lia.
Qed.

Lemma createPayment_frame m r d s pid s' :
  createPayment hfee hpay m r d s = Ok (pid, s') →
  frame_upto (paymentCounter s) s s'.
Proof using Hfee Hpay.
  intros H. apply createPayment_ok in H as (_ & _ & _ & _ & -> & H).
  eapply frame_upto_trans;
    [| eapply (_completePayment_frame (paymentCounter s)); [| | exact H];
       simpl; lia].
  unfold created_state.
  eapply frame_upto_trans; [| apply frame_emit].
  eapply frame_upto_trans; [| apply frame_push].
  eapply frame_upto_trans; [apply frame_counter | apply frame_insert]; lia.
Qed.

Lemma dispatch_frame m c s s' :
  dispatch hfee hpay m c s = Ok s' → frame_upto (paymentCounter s) s s'.
Proof using Hfee Hpay.
  destruct c; simpl; intros H; inv_bind H.
  - destruct a0 as [pid s1]. injection H as <-.
    unfold pay_in in Hstep. destruct (_ <? _); [done |]. injection Hstep as <-.
    eapply frame_upto_trans; [apply frame_move |].
    by apply createPayment_frame in Hstep0.
  - by eapply refundPayment_frame.
  - by eapply cancelPayment_frame.
  - apply updatePlatformFee_ok in H as (_ & _ & ->). apply frame_bps.
  - apply updateFeeRecipient_ok in H as (_ & _ & ->). apply frame_feeRecipient.
  - by eapply emergencyWithdraw_frame.
Qed.
End Frame.

(** ** The invariant *)

Lemma issued_sent why why' to v s :
  issued why (sent why' to v s) =
  if decide (why' = why) then mkTransfer why' to v :: issued why s
  else issued why s.
Proof. unfold sent. by rewrite issued_record. Qed.

Lemma paid_sent why why' to v s :
  paid why (sent why' to v s) =
  if decide (why' = why) then v + paid why s else paid why s.
Proof. unfold paid. rewrite issued_sent. by case_decide. Qed.

(** The invariant reads the counter, the payments, the transfers and the
    fee rate, and nothing else. *)
Lemma Inv_ext s s' :
  paymentCounter s' = paymentCounter s → payments s' = payments s →
  transfers s' = transfers s → platformFeeBps s' = platformFeeBps s →
  Inv s → Inv s'.
Proof.
  destruct s, s'; simpl. intros -> -> -> -> [H1 H0 H2 H3 H4 H5 H6 H7 H8].
  by constructor.
Qed.

Lemma Inv_constructor this deployer fr bal : Inv (constructor this deployer fr bal).
Proof.
  constructor; try done; simpl; intros; lia.
Qed.

Lemma Inv_slot s pid :
  Inv s → exists_ (payment_at s pid) = true →
  pid ≤ paymentCounter s ∧
  (status (payment_at s pid) = Completed ∨ status (payment_at s pid) = Refunded).
Proof.
  intros HI Hex. apply payment_at_exists in Hex.
  destruct (inv_ids s HI pid _ Hex) as ([_ ?] & _ & ?). done.
Qed.

Lemma Inv_sent_withdrawal s to v : Inv s → Inv (sent Withdrawal to v s).
Proof.
  intros [H1 H0 H2 H3 H4 H5 H6 H7 H8].
  constructor; try done; intros pid; unfold paid; rewrite ?issued_sent;
    repeat case_decide; try done; by auto.
Qed.

Lemma payment_at_sent why to v s pid :
  payment_at (sent why to v s) pid = payment_at s pid.
Proof. reflexivity. Qed.

Lemma issued_set_status why pid st s :
  issued why (set_status pid st s) = issued why s.
Proof. reflexivity. Qed.

Lemma issued_emit why e s : issued why (emit e s) = issued why s.
Proof. reflexivity. Qed.

Lemma issued_created why m r d s : issued why (created_state m r d s) = issued why s.
Proof. reflexivity. Qed.

Lemma payment_at_created m r d s pid :
  payment_at (created_state m r d s) pid =
  if decide (paymentCounter s + 1 = pid)
  then mkPayment pid (sender m) r (value m) (now m) Pending d true
  else payment_at s pid.
Proof.
  unfold created_state. rewrite payment_at_emit, payment_at_push, payment_at_insert.
  case_decide; by subst.
Qed.

Create Rewrite HintDb state.
#[local] Hint Rewrite payment_at_sent payment_at_set_status payment_at_emit
  payment_at_created issued_sent issued_set_status issued_emit issued_created
  paid_sent : state.

Ltac state_simpl := autorewrite with state in *.

Lemma Inv_refunded s pid :
  Inv s → exists_ (payment_at s pid) = true →
  status (payment_at s pid) ≠ Refunded →
  Inv (payback_state (RefundOf pid) Refunded pid s).
Proof.
  intros HI Hex Hst.
  destruct (Inv_slot s pid HI Hex) as [Hle _].
  pose proof (inv_refund s HI pid) as Hnone.
  rewrite bool_decide_eq_false_2 in Hnone by done.
  destruct HI as [H1 H0 H2 H3 H4 H5 H6 H7 H8].
  unfold payback_state. constructor.
  - intros x p. simpl. rewrite lookup_insert. case_decide as Hd.
    + intros [= <-]. subst x. simpl.
      destruct (H1 pid _ (payment_at_exists _ _ Hex)) as (? & _). auto.
    + apply H1.
  - intros x Hx. state_simpl. case_decide; [subst x; done | by apply H0].
  - intros x Hx. state_simpl. by apply H2.
  - intros x. state_simpl. case_decide as Hd.
    + injection Hd as <-. rewrite decide_True by done. simpl.
      by rewrite Hnone.
    + rewrite decide_False by congruence. apply H3.
  - intros x. state_simpl. apply H4.
  - intros x. state_simpl. apply H5.
  - intros x. state_simpl. apply H6.
  - intros x. unfold paid. state_simpl. rewrite !decide_False by done.
    case_decide; [subst x |]; apply H7.
  - done.
Qed.

Lemma payment_at_created_completed m r d s pid :
  payment_at (set_status (paymentCounter s + 1) Completed (created_state m r d s)) pid =
  if decide (paymentCounter s + 1 = pid)
  then mkPayment pid (sender m) r (value m) (now m) Completed d true
  else payment_at s pid.
Proof.
  rewrite payment_at_set_status, !payment_at_created.
  rewrite (decide_True (P := _ = paymentCounter s + 1)) by done.
  case_decide; by subst.
Qed.

Lemma Inv_created s m r d :
  Inv s →
  Inv (set_status (paymentCounter s + 1) Completed (created_state m r d s)).
Proof.
  intros HI.
  assert (Hnew : payments s !! (paymentCounter s + 1) = None).
  { destruct (payments s !! _) as [p |] eqn:Hp; [| done].
    apply (inv_ids s HI) in Hp. lia. }
  destruct HI as [H1 H0 H2 H3 H4 H5 H6 H7 H8].
  constructor.
  - intros x p. simpl. rewrite !lookup_insert. case_decide as Hd.
    + intros [= <-]. subst x. simpl.
      rewrite payment_at_created, decide_True by done. simpl.
      repeat split; auto; lia.
    + intros Hp. apply H1 in Hp. repeat split; try apply Hp; lia.
  - intros x Hx. rewrite payment_at_created_completed. simpl in Hx.
    case_decide; [done | apply H0; lia].
  - intros x Hx. rewrite !issued_set_status, !issued_created.
    simpl in Hx. apply H2. lia.
  - intros x. rewrite issued_set_status, issued_created, H3.
    rewrite payment_at_created_completed. case_decide as Hd; [| done].
    subst x. by rewrite payment_at_absent.
  - intros x. rewrite issued_set_status, issued_created. apply H4.
  - intros x. rewrite issued_set_status, issued_created. apply H5.
  - intros x. rewrite issued_set_status, issued_created. apply H6.
  - intros x. unfold paid. rewrite !issued_set_status, !issued_created.
    rewrite payment_at_created_completed. case_decide as Hd; [| apply H7].
    subst x. destruct (H2 (paymentCounter s + 1)) as [-> ->]; [lia |].
    simpl. lia.
  - done.
Qed.

(** Sending one leg of a completion keeps the invariant, as long as that leg
    was not sent before and the payment's amount covers it. *)
Lemma Inv_sent_completion s why pid to v :
  Inv s → why = FeeOf pid ∨ why = PayoutOf pid →
  issued why s = [] →
  pid ≤ paymentCounter s →
  paid (FeeOf pid) s + paid (PayoutOf pid) s + v ≤ amount (payment_at s pid) →
  Inv (sent why to v s).
Proof.
  intros [H1 H0 H2 H3 H4 H5 H6 H7 H8] Hwhy Hnone Hle Hsum.
  constructor.
  - apply H1.
  - apply H0.
  - intros x Hx. simpl in Hx. state_simpl.
    destruct (H2 x Hx) as [-> ->].
    destruct Hwhy as [-> | ->]; repeat case_decide; simplify_eq; try done; lia.
  - intros x. state_simpl. rewrite decide_False by (destruct Hwhy; congruence).
    apply H3.
  - intros x. state_simpl. rewrite decide_False by (destruct Hwhy; congruence).
    apply H4.
  - intros x. state_simpl. case_decide as Hd; [| apply H5].
    rewrite <- Hd, Hnone. done.
  - intros x. state_simpl. case_decide as Hd; [| apply H6].
    rewrite <- Hd, Hnone. done.
  - intros x. state_simpl. specialize (H7 x).
    destruct Hwhy as [-> | ->]; repeat case_decide; simplify_eq; try done; lia.
  - done.
Qed.

Lemma Inv_emit e s : Inv s → Inv (emit e s).
Proof. by apply Inv_ext. Qed.

Lemma Inv_move a b v s : Inv s → Inv (move a b v s).
Proof. by apply Inv_ext. Qed.

Section Invariant.
Context (hfee hpay : handler).
Context (Hfee : respects guarantee hfee) (Hpay : respects guarantee hpay).

Lemma refundPayment_inv m pid s s' :
  Inv s → refundPayment hpay m pid s = Ok s' → Inv s'.
Proof using Hpay.
  intros HI H.
  apply refundPayment_ok in H as (Hex & _ & Hst & _ & _ & s2 & Hh & ->).
  apply Inv_emit, (respects_inv _ _ _ Hpay Hh), Inv_refunded; try done.
  destruct Hst; congruence.
Qed.

Lemma cancelPayment_inv m pid s s' :
  Inv s → cancelPayment hpay m pid s = Ok s' → Inv s'.
Proof using Type.
  intros HI H.
  apply cancelPayment_ok in H as (Hex & _ & Hst & _).
  destruct (Inv_slot s pid HI Hex) as [_ [? | ?]]; congruence.
Qed.

Lemma emergencyWithdraw_inv m s s' :
  Inv s → emergencyWithdraw hpay m s = Ok s' → Inv s'.
Proof using Hpay.
  intros HI H. apply emergencyWithdraw_ok in H as (_ & _ & _ & Hh).
  by apply (respects_inv _ _ _ Hpay Hh), Inv_sent_withdrawal.
Qed.

Lemma refundPayment_settles m pid s s' :
  Inv s → refundPayment hpay m pid s = Ok s' → settles s s'.
Proof using Hpay.
  intros HI H.
  apply refundPayment_ok in H as (Hex & _ & Hst & _ & _ & s2 & Hh & ->).
  apply (respects_settles _ _ _ Hpay Hh), Inv_refunded; try done.
  destruct Hst; congruence.
Qed.

Lemma emergencyWithdraw_settles m s s' :
  Inv s → emergencyWithdraw hpay m s = Ok s' → settles s s'.
Proof using Hpay.
  intros HI H. apply emergencyWithdraw_ok in H as (_ & _ & _ & Hh).
  by apply (respects_settles _ _ _ Hpay Hh), Inv_sent_withdrawal.
Qed.

(** A successful creation keeps the invariant and settles the payment it
    created, with those created from within its transfers. *)
Lemma createPayment_post m r d s pid s' :
  Inv s → createPayment hfee hpay m r d s = Ok (pid, s') →
  Inv s' ∧ settles s s'.
Proof using Hfee Hpay.
  intros HI H. apply createPayment_ok in H as (_ & _ & _ & _ & -> & H).
  apply _completePayment_ok in H
    as (_ & fee & rest & s2 & s3 & Hsplit & Hfeeleg & _ & _ & Hh & ->).
  rewrite payment_at_created, decide_True in Hsplit by done. simpl in Hsplit.
  apply split_ok in Hsplit as (_ & _ & Hfee_le & ->).
  set (pid := paymentCounter s + 1) in *.
  set (s1 := set_status pid Completed (created_state m r d s)) in *.
  assert (HI1 : Inv s1) by by apply Inv_created.
  assert (Hamt : amount (payment_at s1 pid) = value m).
  { unfold s1, pid. rewrite payment_at_created_completed.
    by rewrite decide_True. }
  destruct (inv_fresh s HI pid) as [Hnofee Hnopay]; [lia |].
  assert (Hs2 : Inv s2 ∧ pid ≤ paymentCounter s2 ∧
                issued (PayoutOf pid) s2 = [] ∧
                (paid (FeeOf pid) s2 = fee ∨ paid (FeeOf pid) s2 = 0) ∧
                amount (payment_at s2 pid) = value m ∧
                (∀ p, pid < p ≤ paymentCounter s2 → settled p s2)).
  { destruct (fee_due fee (created_state m r d s)).
    - destruct Hfeeleg as (_ & _ & Hhf).
      destruct (respects_frame _ _ _ Hfee Hhf) as (_ & Hc & _ & Hf).
      destruct (Hf pid) as (((_ & _ & _ & Ha & _) & _) & Hfe & Hpa);
        [simpl; lia |].
      assert (HIf : Inv (sent (FeeOf pid) (feeRecipient (created_state m r d s))
                              fee s1)).
      { apply Inv_sent_completion with (pid := pid);
          [done | by left | done | simpl; lia |].
        unfold paid. unfold s1 at 1 2.
        rewrite !issued_set_status, !issued_created, Hnofee, Hnopay.
        simpl. lia. }
      split; [exact (respects_inv _ _ _ Hfee Hhf HIf) |].
      split; [simpl in Hc; lia |].
      split; [rewrite Hpa; by rewrite issued_sent, decide_False |].
      split; [| split; [by rewrite Ha |]].
      + left. unfold paid. rewrite Hfe, issued_sent, decide_True by done.
        unfold s1. rewrite issued_set_status, issued_created, Hnofee.
        simpl. lia.
      + intros p Hp. apply (respects_settles _ _ _ Hfee Hhf HIf). simpl. lia.
    - subst s2. split; [done |]. split; [simpl; lia |]. split; [done |].
      split; [| split; [done |]].
      + right. unfold paid, s1.
        by rewrite issued_set_status, issued_created, Hnofee.
      + intros p Hp. simpl in Hp. lia. }
  destruct Hs2 as (HI2 & Hle2 & Hnopay2 & Hfee2 & Hamt2 & Hset2).
  set (mid := sent (PayoutOf pid) (recipient (payment_at s2 pid))
                   (value m - fee) s2) in *.
  assert (HIm : Inv mid).
  { apply Inv_sent_completion with (pid := pid);
      [done | by right | done | done |].
    unfold paid at 2. rewrite Hnopay2, Hamt2. simpl.
    destruct Hfee2 as [-> | ->]; lia. }
  split; [exact (Inv_emit _ _ (respects_inv _ _ _ Hpay Hh HIm)) |].
  pose proof (respects_frame _ _ _ Hpay Hh) as Fm.
  pose proof (respects_settles _ _ _ Hpay Hh HIm) as Sm.
  intros p Hp. change (settled p s3). simpl in Hp.
  destruct (decide (p ≤ paymentCounter s2)) as [Hle | Hgt]; [| apply Sm; simpl; lia].
  eapply settled_frame; [exact Fm | exact Hle |].
  destruct (decide (p = pid)) as [-> | Hne].
  - split.
    + unfold mid. by rewrite issued_sent, decide_True, Hnopay2.
    + unfold mid, paid.
      rewrite !issued_sent, decide_False, decide_True, Hnopay2 by done.
      rewrite payment_at_sent, Hamt2. simpl.
      destruct Hfee2 as [Hf | Hf]; unfold paid in Hf; rewrite Hf; [right | by left].
      lia.
  - destruct (Hset2 p) as [H1 H2]; [unfold pid in *; lia |].
    split.
    + unfold mid. rewrite issued_sent, decide_False; [done |].
      intros [= ?]. done.
    + unfold mid, paid. rewrite !issued_sent, !decide_False; [done | |];
        intros [= ?]; done.
Qed.

Lemma dispatch_post m c s s' :
  Inv s → dispatch hfee hpay m c s = Ok s' → Inv s' ∧ settles s s'.
Proof using Hfee Hpay.
  intros HI. destruct c; simpl; intros H; inv_bind H.
  - destruct a0 as [pid s1]. injection H as <-.
    unfold pay_in in Hstep. destruct (_ <? _); [done |]. injection Hstep as <-.
    destruct (createPayment_post _ _ _ _ _ _ (Inv_move _ _ _ _ HI) Hstep0)
      as [HI' S].
    split; [exact HI' | exact S].
  - split; [by eapply refundPayment_inv | by eapply refundPayment_settles].
  - split; [by eapply cancelPayment_inv |].
    apply cancelPayment_ok in H as (Hex & _ & Hst & _).
    destruct (Inv_slot s _ HI Hex) as [_ [? | ?]]; congruence.
  - apply updatePlatformFee_ok in H as (_ & ? & ->).
    split; [destruct HI; by constructor | by apply settles_none].
  - apply updateFeeRecipient_ok in H as (_ & _ & ->).
    split; [by apply (Inv_ext s) | by apply settles_none].
  - split; [by eapply emergencyWithdraw_inv | by eapply emergencyWithdraw_settles].
Qed.

Lemma dispatch_guarantee m c s s' :
  dispatch hfee hpay m c s = Ok s' → guarantee s s'.
Proof using Hfee Hpay.
  intros H. split.
  - exact (dispatch_frame _ _ Hfee Hpay _ _ _ _ H).
  - intros HI. exact (dispatch_post _ _ _ _ HI H).
Qed.
End Invariant.

Lemma guarantee_refl s : guarantee s s.
Proof.
  split; [apply frame_upto_refl |]. intros HI. split; [done | by apply settles_none].
Qed.

Lemma guarantee_trans s1 s2 s3 :
  guarantee s1 s2 → guarantee s2 s3 → guarantee s1 s3.
Proof.
  intros [F1 I1] [F2 I2]. split.
  - eapply frame_upto_trans; [exact F1 |].
    eapply frame_upto_mono; [| exact F2]. by destruct F1 as (_ & ? & _).
  - intros HI. destruct (I1 HI) as [HI2 S12]. destruct (I2 HI2) as [HI3 S23].
    split; [done |]. by eapply settles_trans.
Qed.

(** Whatever a receiver does, it does through the contract's functions. *)
Lemma interp_guarantee k : respects guarantee (interp k).
Proof.
  induction k as [| | m c kfee IHfee kpay IHpay next IHnext]; intros s s' H.
  - done.
  - injection H as <-. apply guarantee_refl.
  - simpl in H.
    destruct (dispatch _ _ _ _ _) as [s1 | |] eqn:Hd; [| by apply IHnext ..].
    eapply guarantee_trans; [| by apply IHnext].
    exact (dispatch_guarantee _ _ IHfee IHpay _ _ _ _ Hd).
Qed.

Lemma execute_guarantee t s s' : execute t s = Ok s' → guarantee s s'.
Proof. apply dispatch_guarantee; apply interp_guarantee. Qed.

Lemma transact_guarantee t s : guarantee s (transact t s).
Proof.
  unfold transact. destruct (execute t s) eqn:H; try apply guarantee_refl.
  by apply execute_guarantee in H.
Qed.

Lemma reachable_Inv s : reachable s → Inv s.
Proof.
  induction 1 as [| t s _ IH | bal s _ IH _]; [apply Inv_constructor | |].
  - by apply (transact_guarantee t s).
  - by apply (Inv_ext s).
Qed.

(** Between transactions every payment created so far is settled. *)
Lemma reachable_settled s pid :
  reachable s → 0 < pid ≤ paymentCounter s → settled pid s.
Proof.
  induction 1 as [| t s Hs IH | bal s Hs IH _]; [simpl; lia | |].
  - intros Hpid. destruct (transact_guarantee t s) as [F I].
    destruct (I (reachable_Inv s Hs)) as [_ S].
    destruct (decide (pid ≤ paymentCounter s)) as [Hle | Hgt].
    + eapply settled_frame; [exact F | done |]. apply IH. lia.
    + apply S. lia.
  - intros Hpid. exact (IH Hpid).
Qed.

(** ** The fee split *)

(** C5, as stated, fails: the split is computed in checked 256-bit
    arithmetic.  For amount = 2^255 and feeBps = 25 the product
    [amount * feeBps] overflows, and for amount = 1 and feeBps = 20000 the
    fee 2 exceeds the amount and [amount - feeAmount] underflows: in both
    cases the call aborts with [Panic 0x11] instead of returning
    [floor (amount * feeBps / 10000)] and the rest. *)
Lemma split_aborts :
  split (2 ^ 255) 25 = Panic 17 ∧
  split (2 ^ 255) 25 ≠
    Ok (2 ^ 255 * 25 / 10000, 2 ^ 255 - 2 ^ 255 * 25 / 10000) ∧
  split 1 20000 = Panic 17.
Proof. split; [by vm_compute | split; by vm_compute]. Qed.

(** C5, amended: the split returns feeAmount = floor (amount * feeBps / 10000)
    and recipientAmount = amount - feeAmount, which add up to the amount
    exactly, if and only if the product amount * feeBps fits in 256 bits and
    the fee does not exceed the amount; in every other case it aborts with
    [Panic 0x11], so that whatever the split returns is this pair.  The fee
    does not exceed the amount when feeBps is at most 10000.  For
    amount = 1000 and feeBps = 25 the split returns 2 and 998. *)
Theorem split_spec (amount feeBps : N) :
  let feeAmount := amount * feeBps / 10000 in
  (split amount feeBps = Ok (feeAmount, amount - feeAmount) ↔
   amount * feeBps ≤ MAX_UINT256 ∧ feeAmount ≤ amount) ∧
  (split amount feeBps = Panic 17 ↔
   MAX_UINT256 < amount * feeBps ∨ amount < feeAmount) ∧
  (∀ fee rest, split amount feeBps = Ok (fee, rest) →
     fee = feeAmount ∧ rest = amount - feeAmount ∧ fee + rest = amount) ∧
  (feeBps ≤ 10000 → feeAmount ≤ amount) ∧
  split 1000 25 = Ok (2, 998).
Proof.
  intros feeAmount.
  assert (Hcases :
    split amount feeBps =
    if amount * feeBps <=? MAX_UINT256
    then if feeAmount <=? amount then Ok (feeAmount, amount - feeAmount)
         else Panic 17
    else Panic 17).
  { unfold split, checked_mul, checked_sub.
    destruct (amount * feeBps <=? MAX_UINT256); [simpl | done].
    fold feeAmount. by destruct (feeAmount <=? amount). }
  rewrite Hcases.
  destruct (N.leb_spec (amount * feeBps) MAX_UINT256) as [Hfit | Hover];
    [destruct (N.leb_spec feeAmount amount) as [Hle | Hgt] |].
  - split; [done |]. split; [split; [done | lia] |].
    split; [| split; [done | done]].
    intros fee rest [= <- <-]. split; [done |]. split; [done | lia].
  - split; [split; [done | lia] |]. split; [split; [by right | done] |].
    split; [done |]. split; [| done].
    intros Hbps. unfold feeAmount.
    etrans; [apply (N.Div0.div_le_mono _ (amount * 10000));
             by apply N.mul_le_mono_l |].
    by rewrite N.div_mul.
  - split; [split; [done | lia] |]. split; [split; [by left | done] |].
    split; [done |]. split; [| done].
    intros Hbps. unfold feeAmount.
    etrans; [apply (N.Div0.div_le_mono _ (amount * 10000));
             by apply N.mul_le_mono_l |].
    by rewrite N.div_mul.
Qed.

Lemma split_spec_witness :
  split 1000 25 = Ok (2, 998) ∧ 2 + 998 = 1000 ∧ split 1 19999 = Ok (1, 0).
Proof.
  destruct (split_spec 1000 25) as (_ & _ & Hok & _ & Hex).
  destruct (Hok 2 998 Hex) as (_ & _ & Hsum).
  destruct (split_spec 1 19999) as ([_ Hwide] & _).
  split; [exact Hex |]. split; [exact Hsum |].
  apply Hwide. split; vm_compute; discriminate.
Defined.

(** ** The fee rate *)

Lemma same_rate_refl o s : same_rate o s s.
Proof. by intros Ho. Qed.

Lemma same_rate_trans o s1 s2 s3 :
  same_rate o s1 s2 → same_rate o s2 s3 → same_rate o s1 s3.
Proof.
  intros H12 H23 Ho. destruct (H12 Ho) as [Ho2 Hr2].
  destruct (H23 Ho2) as [Ho3 Hr3]. split; [done | congruence].
Qed.

Lemma same_rate_sent o why to v s : same_rate o s (sent why to v s).
Proof. by intros Ho. Qed.

Lemma same_rate_handler o h why to v s s' :
  respects (same_rate o) h → h (sent why to v s) = Some s' → same_rate o s s'.
Proof.
  intros Hh Hs. eapply same_rate_trans; [apply same_rate_sent | by apply Hh].
Qed.

Lemma dispatch_same_rate o hfee hpay m c s s' :
  respects (same_rate o) hfee → respects (same_rate o) hpay →
  updates_fee o m c = false →
  dispatch hfee hpay m c s = Ok s' → same_rate o s s'.
Proof.
  intros Hfee Hpay Hc H. destruct c; simpl in H; inv_bind H.
  - destruct a0 as [pid s1]. injection H as <-.
    unfold pay_in in Hstep. destruct (_ <? _); [done |]. injection Hstep as <-.
    apply createPayment_ok in Hstep0 as (_ & _ & _ & _ & -> & H).
    apply _completePayment_ok in H
      as (_ & fee & rest & s2 & s3 & _ & Hfeeleg & _ & _ & Hh & ->).
    apply (same_rate_trans _ _ s2).
    + destruct (fee_due fee _).
      * destruct Hfeeleg as (_ & _ & Hhf).
        eapply same_rate_trans; [| exact (same_rate_handler _ _ _ _ _ _ _ Hfee Hhf)].
        by intros Ho.
      * subst s2. by intros Ho.
    + eapply same_rate_trans; [exact (same_rate_handler _ _ _ _ _ _ _ Hpay Hh) |].
      by intros Ho.
  - apply refundPayment_ok in H as (_ & _ & _ & _ & _ & s2 & Hh & ->).
    eapply same_rate_trans; [| eapply same_rate_trans;
      [exact (same_rate_handler _ _ _ _ _ _ _ Hpay Hh) |]]; by intros Ho.
  - apply cancelPayment_ok in H as (_ & _ & _ & _ & _ & s2 & Hh & ->).
    eapply same_rate_trans; [| eapply same_rate_trans;
      [exact (same_rate_handler _ _ _ _ _ _ _ Hpay Hh) |]]; by intros Ho.
  - apply updatePlatformFee_ok in H as (Hown & _ & ->).
    simpl in Hc. apply bool_decide_eq_false in Hc.
    intros Ho. congruence.
  - apply updateFeeRecipient_ok in H as (_ & _ & ->). by intros Ho.
  - apply emergencyWithdraw_ok in H as (_ & _ & _ & Hh).
    exact (same_rate_handler _ _ _ _ _ _ _ Hpay Hh).
Qed.

Lemma interp_same_rate o k :
  callee_updates_fee o k = false → respects (same_rate o) (interp k).
Proof.
  induction k as [| | m c kfee IHfee kpay IHpay next IHnext]; intros Hk s s' H.
  - discriminate H.
  - injection H as <-. apply same_rate_refl.
  - simpl in Hk.
    apply orb_false_iff in Hk as [Hk Hnext].
    apply orb_false_iff in Hk as [Hk Hpay].
    apply orb_false_iff in Hk as [Hc Hfee].
    simpl in H.
    destruct (dispatch _ _ _ _ _) as [s1 | |] eqn:Hd;
      [| by apply IHnext | by apply IHnext].
    eapply same_rate_trans; [| by apply IHnext].
    exact (dispatch_same_rate _ _ _ _ _ _ _ (IHfee Hfee) (IHpay Hpay) Hc Hd).
Qed.

Lemma step_same_rate s s' :
  step_without_update s s' →
  owner s' = owner s ∧ platformFeeBps s' = platformFeeBps s.
Proof.
  intros [t x Ht | bal x _]; [| done].
  unfold tx_updates_fee in Ht.
  apply orb_false_iff in Ht as [Ht Hpay].
  apply orb_false_iff in Ht as [Hc Hfee].
  unfold transact. destruct (execute t x) as [x' | |] eqn:He; [| done | done].
  exact (dispatch_same_rate _ _ _ _ _ _ _ (interp_same_rate _ _ Hfee)
           (interp_same_rate _ _ Hpay) Hc He eq_refl).
Qed.

Lemma later_same_rate s s' :
  rtc step_without_update s s' →
  owner s' = owner s ∧ platformFeeBps s' = platformFeeBps s.
Proof.
  induction 1 as [| x y z Hxy _ [IHo IHr]]; [done |].
  destruct (step_same_rate _ _ Hxy) as [Ho Hr]. split; congruence.
Qed.

(** The split of a createPayment is made at the rate stored when it is
    called. *)
Lemma execute_create_split t r d s s' :
  tx_call t = CreatePayment r d → execute t s = Ok s' →
  let fee := value (tx_msg t) * platformFeeBps s / 10000 in
  split (value (tx_msg t)) (platformFeeBps s) =
    Ok (fee, value (tx_msg t) - fee) ∧
  ∃ to s3,
    s' = emit (PaymentCompleted (paymentCounter s + 1) to
                 (value (tx_msg t) - fee)) s3.
Proof.
  intros Hc H fee. unfold execute in H. rewrite Hc in H. simpl in H.
  inv_bind H. destruct a0 as [pid s1]. injection H as <-.
  unfold pay_in in Hstep. destruct (_ <? _); [done |]. injection Hstep as <-.
  apply createPayment_ok in Hstep0 as (_ & _ & _ & _ & -> & H).
  apply _completePayment_ok in H
    as (_ & fee' & rest & s2 & s3 & Hsplit & _ & _ & _ & _ & ->).
  rewrite payment_at_created, decide_True in Hsplit by done.
  simpl in Hsplit. rewrite Hsplit.
  apply split_ok in Hsplit as (_ & -> & _ & ->).
  split; [done |]. by eexists _, _.
Qed.

(** C9: called by the owner, updatePlatformFee fails with "Fee cannot exceed
    10%" exactly when the new rate exceeds 1000 and otherwise stores it, so
    that updatePlatformFee(1000) succeeds; in every reachable state the rate
    is at most 1000; a payment created after an update is split with the
    updated rate; no receiver changes the rate unless it calls
    updatePlatformFee as the owner; and the updated rate is the rate of every
    later state, through any transactions and changes of balance, until the
    owner calls updatePlatformFee again: every createPayment made in such a
    state is split with it. *)
Theorem updatePlatformFee_spec (m : Msg) (_newFeeBps : N) (s : State) :
  sender m = owner s →
  (updatePlatformFee m _newFeeBps s = Revert "CoinPay: Fee cannot exceed 10%"
   ↔ 1000 < _newFeeBps) ∧
  (updatePlatformFee m _newFeeBps s = Ok (set_platformFeeBps _newFeeBps s)
   ↔ _newFeeBps ≤ 1000) ∧
  updatePlatformFee m 1000 s = Ok (set_platformFeeBps 1000 s) ∧
  (∀ s0, reachable s0 → platformFeeBps s0 ≤ 1000) ∧
  (∀ hfee hpay m' r d pid s',
     createPayment hfee hpay m' r d (set_platformFeeBps _newFeeBps s) = Ok (pid, s') →
     split (value m') _newFeeBps =
       Ok (value m' * _newFeeBps / 10000,
           value m' - value m' * _newFeeBps / 10000) ∧
     ∃ to s3,
       s' = emit (PaymentCompleted pid to
                    (value m' - value m' * _newFeeBps / 10000)) s3) ∧
  (∀ k x x',
     callee_updates_fee (owner x) k = false → interp k x = Some x' →
     platformFeeBps x' = platformFeeBps x) ∧
  (∀ s1,
     rtc step_without_update (set_platformFeeBps _newFeeBps s) s1 →
     platformFeeBps s1 = _newFeeBps ∧
     ∀ t r d s2,
       tx_call t = CreatePayment r d → execute t s1 = Ok s2 →
       let fee := value (tx_msg t) * _newFeeBps / 10000 in
       split (value (tx_msg t)) (platformFeeBps s1) =
         Ok (fee, value (tx_msg t) - fee) ∧
       ∃ to s3,
         s2 = emit (PaymentCompleted (paymentCounter s1 + 1) to
                      (value (tx_msg t) - fee)) s3).
Proof.
  intros Hown. unfold updatePlatformFee.
  rewrite bool_decide_eq_true_2 by done. simpl.
  split; [| split; [| split; [| split; [| split; [| split]]]]].
  - split; [destruct (N.leb_spec _newFeeBps 1000); [done | lia] |].
    intros Hgt. destruct (N.leb_spec _newFeeBps 1000); [lia | done].
  - split; [destruct (N.leb_spec _newFeeBps 1000); [done | done] |].
    intros Hle. destruct (N.leb_spec _newFeeBps 1000); [done | lia].
  - done.
  - intros s0 Hs0. apply reachable_Inv in Hs0. apply (inv_bps s0 Hs0).
  - intros hfee hpay m' r d pid s' H.
    apply createPayment_ok in H as (_ & _ & _ & _ & -> & H).
    apply _completePayment_ok in H
      as (_ & fee & rest & s2 & s3 & Hsplit & _ & _ & _ & _ & ->).
    rewrite payment_at_created, decide_True in Hsplit by done.
    simpl in Hsplit. rewrite Hsplit.
    apply split_ok in Hsplit as (_ & -> & _ & ->).
    split; [done |]. by eexists _, _.
  - intros k x x' Hk Hx.
    by destruct (interp_same_rate _ k Hk x x' Hx eq_refl).
  - intros s1 Hs1. apply later_same_rate in Hs1 as [_ Hrate]. simpl in Hrate.
    split; [done |]. intros t r d s2 Hc He. rewrite <- Hrate.
    exact (execute_create_split t r d s1 s2 Hc He).
Qed.

Lemma updatePlatformFee_spec_witness :
  updatePlatformFee (mkMsg 1 0 7) 1000 deployed =
    Ok (set_platformFeeBps 1000 deployed) ∧
  updatePlatformFee (mkMsg 1 0 7) 1001 deployed =
    Revert "CoinPay: Fee cannot exceed 10%" ∧
  platformFeeBps
    (transact (mkTx (mkMsg 10 1000 8) (CreatePayment 11 "") Accept Accept)
              (set_platformFeeBps 1000 deployed)) = 1000.
Proof.
  pose proof (updatePlatformFee_spec (mkMsg 1 0 7) 1001 deployed eq_refl)
    as (Hfail & _).
  pose proof (updatePlatformFee_spec (mkMsg 1 0 7) 1000 deployed eq_refl)
    as (_ & _ & Hok & _ & _ & _ & Hlater).
  split; [exact Hok |]. split; [apply Hfail; lia |].
  apply Hlater. apply rtc_once, quiet_transact. reflexivity.
Defined.

(** ** Guards of refund and cancel *)

Lemma transact_failed t s :
  (∀ s', execute t s ≠ Ok s') → transact t s = s.
Proof. unfold transact. destruct (execute t s); naive_solver. Qed.

Lemma execute_refund_revert m pid kfee kpay s e :
  refundPayment (interp kpay) m pid s = Revert e →
  ∀ s', execute (mkTx m (RefundPayment pid) kfee kpay) s ≠ Ok s'.
Proof.
  unfold execute; simpl. intros -> s'. by destruct (nonpayable m).
Qed.

Lemma execute_cancel_revert m pid kfee kpay s e :
  cancelPayment (interp kpay) m pid s = Revert e →
  ∀ s', execute (mkTx m (CancelPayment pid) kfee kpay) s ≠ Ok s'.
Proof.
  unfold execute; simpl. intros -> s'. by destruct (nonpayable m).
Qed.

Lemma reachable_exists s pid :
  reachable s →
  (exists_ (payment_at s pid) = true ↔ 0 < pid ≤ paymentCounter s).
Proof.
  intros HI%reachable_Inv. split; [| apply (inv_dense s HI)].
  intros Hex%payment_at_exists. by apply (inv_ids s HI) in Hex as (? & _).
Qed.

(** C7: on an existing payment, a caller that is neither its payer nor the
    owner gets "Unauthorized" from refundPayment and from cancelPayment, and
    the state is left as it was; on an id with no payment both fail with
    "Payment does not exist".  In a reachable state the ids with no payment
    are 0 and those above the payment counter. *)
Theorem refund_cancel_access (hpay : handler) (m : Msg) (pid : N) (s : State) :
  (exists_ (payment_at s pid) = true →
   sender m ≠ payer (payment_at s pid) → sender m ≠ owner s →
   refundPayment hpay m pid s = Revert "CoinPay: Unauthorized" ∧
   cancelPayment hpay m pid s = Revert "CoinPay: Unauthorized" ∧
   ∀ kfee kpay,
     transact (mkTx m (RefundPayment pid) kfee kpay) s = s ∧
     transact (mkTx m (CancelPayment pid) kfee kpay) s = s) ∧
  (exists_ (payment_at s pid) = false →
   refundPayment hpay m pid s = Revert "CoinPay: Payment does not exist" ∧
   cancelPayment hpay m pid s = Revert "CoinPay: Payment does not exist") ∧
  (reachable s →
   (exists_ (payment_at s pid) = false ↔ pid = 0 ∨ paymentCounter s < pid)).
Proof.
  split; [| split].
  - intros Hex Hpayer Howner.
    assert (Hr : ∀ h, refundPayment h m pid s = Revert "CoinPay: Unauthorized").
    { intros h. unfold refundPayment. rewrite Hex. simpl.
      rewrite (bool_decide_eq_false_2 (sender m = payer _)) by done.
      by rewrite (bool_decide_eq_false_2 (sender m = owner s)). }
    assert (Hc : ∀ h, cancelPayment h m pid s = Revert "CoinPay: Unauthorized").
    { intros h. unfold cancelPayment. rewrite Hex. simpl.
      rewrite (bool_decide_eq_false_2 (sender m = payer _)) by done.
      by rewrite (bool_decide_eq_false_2 (sender m = owner s)). }
    split; [apply Hr |]. split; [apply Hc |].
    intros kfee kpay. split; apply transact_failed.
    + eapply execute_refund_revert, Hr.
    + eapply execute_cancel_revert, Hc.
  - intros Hex. unfold refundPayment, cancelPayment. by rewrite Hex.
  - intros Hs. pose proof (reachable_exists s pid Hs) as Hiff.
    destruct (exists_ (payment_at s pid)); split; intros H; try done.
    + assert (0 < pid ≤ paymentCounter s) by by apply Hiff. lia.
    + destruct (decide (0 < pid ≤ paymentCounter s)) as [Hin |]; [| lia].
      by apply Hiff in Hin.
Qed.

Lemma refund_cancel_access_witness :
  refundPayment (interp Accept) (mkMsg 12 0 9) 1 two_payments =
    Revert "CoinPay: Unauthorized" ∧
  cancelPayment (interp Accept) (mkMsg 12 0 9) 1 two_payments =
    Revert "CoinPay: Unauthorized" ∧
  refundPayment (interp Accept) (mkMsg 12 0 9) 3 two_payments =
    Revert "CoinPay: Payment does not exist".
Proof.
  destruct (refund_cancel_access (interp Accept) (mkMsg 12 0 9) 1 two_payments)
    as (H1 & _).
  destruct (refund_cancel_access (interp Accept) (mkMsg 12 0 9) 3 two_payments)
    as (_ & H3 & _).
  destruct H1 as (Hr & Hc & _); [by vm_compute ..|].
  destruct H3 as (Hn & _); [by vm_compute |].
  exact (conj Hr (conj Hc Hn)).
Defined.

Lemma payment_at_payback why st pid s x :
  payment_at (payback_state why st pid s) x =
  if decide (pid = x) then with_status st (payment_at s pid) else payment_at s x.
Proof. unfold payback_state. by rewrite payment_at_sent, payment_at_set_status. Qed.

(** What a successful refund leaves behind, whatever the payer's account did
    when it was called. *)
Lemma refundPayment_result hpay m pid s s' :
  respects guarantee hpay → Inv s →
  refundPayment hpay m pid s = Ok s' →
  Inv s' ∧ owner s' = owner s ∧
  same_terms (payment_at s pid) (payment_at s' pid) ∧
  status (payment_at s' pid) = Refunded ∧
  issued (RefundOf pid) s' =
    [mkTransfer (RefundOf pid) (payer (payment_at s pid)) (amount (payment_at s pid))].
Proof.
  intros Hpay HI H.
  pose proof (refundPayment_inv hpay Hpay _ _ _ _ HI H) as HI'.
  apply refundPayment_ok in H as (Hex & _ & Hst & _ & _ & s2 & Hh & ->).
  destruct (Inv_slot s pid HI Hex) as [Hle _].
  destruct (respects_frame _ _ _ Hpay Hh) as ([_ Hown] & _ & _ & Hf).
  destruct (Hf pid) as ((Hterms & _ & Href & _) & _); [done |].
  rewrite payment_at_payback, decide_True in Hterms, Href by done.
  assert (Hst' : status (payment_at s2 pid) = Refunded) by by apply Href.
  split; [done |]. split; [done |]. split; [done |]. split; [done |].
  rewrite (inv_refund _ HI' pid). rewrite payment_at_emit.
  rewrite bool_decide_eq_true_2 by done.
  destruct Hterms as (_ & -> & _ & -> & _). done.
Qed.

(** C6: cancelPayment succeeds only from Pending, refundPayment only from
    Pending or Completed.  On an existing payment whose status is Refunded or
    Cancelled both fail and leave the state as it was: with "Cannot refund
    this payment" and "Only pending payments can be cancelled" for the payer
    and the owner, and with "Unauthorized" for anyone else, who is turned
    away before the status is looked at.  In particular, after a successful
    refundPayment a second one by the same caller fails with "Cannot refund
    this payment". *)
Theorem refund_cancel_status (hpay : handler) (m : Msg) (pid : N) (s : State) :
  let p := payment_at s pid in
  let authorized :=
    bool_decide (sender m = payer p) || bool_decide (sender m = owner s) in
  (∀ s', cancelPayment hpay m pid s = Ok s' → status p = Pending) ∧
  (∀ s', refundPayment hpay m pid s = Ok s' →
         status p = Pending ∨ status p = Completed) ∧
  (exists_ p = true → status p = Refunded ∨ status p = Cancelled →
   refundPayment hpay m pid s =
     Revert (if authorized then "CoinPay: Cannot refund this payment"
             else "CoinPay: Unauthorized") ∧
   cancelPayment hpay m pid s =
     Revert (if authorized then "CoinPay: Only pending payments can be cancelled"
             else "CoinPay: Unauthorized") ∧
   ∀ kfee kpay,
     transact (mkTx m (RefundPayment pid) kfee kpay) s = s ∧
     transact (mkTx m (CancelPayment pid) kfee kpay) s = s) ∧
  (∀ k s', reachable s → refundPayment (interp k) m pid s = Ok s' →
     ∀ hpay', refundPayment hpay' m pid s' =
              Revert "CoinPay: Cannot refund this payment").
Proof.
  intros p authorized. split; [| split; [| split]].
  - intros s' H. by apply cancelPayment_ok in H as (_ & _ & ? & _).
  - intros s' H. by apply refundPayment_ok in H as (_ & _ & ? & _).
  - intros Hex Hst.
    assert (Hr : ∀ h, refundPayment h m pid s =
               Revert (if authorized then "CoinPay: Cannot refund this payment"
                       else "CoinPay: Unauthorized")).
    { intros h. unfold refundPayment. fold p. rewrite Hex. simpl.
      fold authorized. destruct authorized; [simpl | done].
      by rewrite !bool_decide_eq_false_2 by (destruct Hst; congruence). }
    assert (Hc : ∀ h, cancelPayment h m pid s =
               Revert (if authorized
                       then "CoinPay: Only pending payments can be cancelled"
                       else "CoinPay: Unauthorized")).
    { intros h. unfold cancelPayment. fold p. rewrite Hex. simpl.
      fold authorized. destruct authorized; [simpl | done].
      by rewrite bool_decide_eq_false_2 by (destruct Hst; congruence). }
    split; [apply Hr |]. split; [apply Hc |].
    intros kfee kpay. split; apply transact_failed.
    + eapply execute_refund_revert, Hr.
    + eapply execute_cancel_revert, Hc.
  - intros k s' Hs H hpay'.
    pose proof H as Hok.
    apply refundPayment_ok in Hok as (Hex & Hauth & _).
    apply refundPayment_result in H
      as (_ & Hown & Hterms & Hst & _);
      [| apply interp_guarantee | by apply reachable_Inv].
    destruct Hterms as (_ & Hpayer & _ & _ & _ & _ & Hex').
    unfold refundPayment. rewrite Hex', Hex, Hpayer, Hown, Hst. simpl.
    fold p.
    assert (bool_decide (sender m = payer p) || bool_decide (sender m = owner s)
            = true) as ->; [| done].
    apply orb_true_iff. destruct Hauth; [left | right]; by apply bool_decide_eq_true.
Qed.

Lemma refund_cancel_status_witness :
  status (payment_at (transact refund_second two_payments) 2) = Refunded ∧
  refundPayment (interp Accept) (mkMsg 10 0 9) 2
                (transact refund_second two_payments) =
    Revert "CoinPay: Cannot refund this payment" ∧
  cancelPayment (interp Accept) (mkMsg 10 0 9) 2
                (transact refund_second two_payments) =
    Revert "CoinPay: Only pending payments can be cancelled".
Proof.
  destruct (refund_cancel_status (interp Accept) (mkMsg 10 0 9) 2
              (transact refund_second two_payments))
    as (_ & _ & H & _).
  destruct H as (Hr & Hc & _); [by vm_compute | left; by vm_compute |].
  split; [by vm_compute |]. split; [rewrite Hr | rewrite Hc]; by vm_compute.
Defined.

(** ** Refund *)

(** C4: a successful refundPayment was made by the payer or the owner on a
    payment that was Pending or Completed; the payer's account is called
    with the payment's full amount moved to it from the contract, whatever
    fee was sent at completion.  In a reachable state, when the call returns
    that transfer is the one refund transfer of the payment, the fee
    transfers are what they were, and the status is Refunded. *)
Theorem refund_pays_full_amount (k : callee) (m : Msg) (pid : N) (s s' : State) :
  refundPayment (interp k) m pid s = Ok s' →
  let p := payment_at s pid in
  let called := payback_state (RefundOf pid) Refunded pid s in
  exists_ p = true ∧
  (status p = Pending ∨ status p = Completed) ∧
  (sender m = payer p ∨ sender m = owner s) ∧
  transfers called = mkTransfer (RefundOf pid) (payer p) (amount p) :: transfers s ∧
  balance_of called (payer p) = balance_of s (payer p) + amount p ∧
  balance_of called (self s) + amount p = balance_of s (self s) ∧
  status (payment_at called pid) = Refunded ∧
  (∃ s2, interp k called = Some s2 ∧
         s' = emit (PaymentRefunded pid (payer (payment_at s2 pid)) (amount p)) s2) ∧
  (reachable s →
   issued (RefundOf pid) s' = [mkTransfer (RefundOf pid) (payer p) (amount p)] ∧
   issued (FeeOf pid) s' = issued (FeeOf pid) s ∧
   In (PaymentRefunded pid (payer p) (amount p)) (events s') ∧
   status (payment_at s' pid) = Refunded).
Proof.
  intros H p called.
  pose proof H as Hok.
  apply refundPayment_ok in Hok as (Hex & Hauth & Hst & Hbal & Hself & s2 & Hh & ->).
  fold p in Hex, Hauth, Hst, Hbal, Hself. fold called in Hh.
  split; [done |]. split; [done |]. split; [done |]. split; [done |].
  split; [| split; [| split; [| split]]].
  - unfold called, payback_state, sent. fold p.
    change (balance_of (move (self s) (payer p) (amount p) (set_status pid Refunded s))
                       (payer p) = balance_of s (payer p) + amount p).
    by rewrite balance_of_move_to.
  - unfold called, payback_state, sent. fold p.
    change (balance_of (move (self s) (payer p) (amount p) (set_status pid Refunded s))
                       (self s) + amount p = balance_of s (self s)).
    rewrite balance_of_move_from by done.
    change (balance_of (set_status pid Refunded s) (self s)) with (balance_of s (self s)).
    lia.
  - unfold called. by rewrite payment_at_payback, decide_True.
  - by exists s2.
  - intros Hs. apply reachable_Inv in Hs.
    pose proof (interp_guarantee k) as Hk.
    destruct (refundPayment_result _ _ _ _ _ Hk Hs H) as (_ & _ & Hterms & Hst' & Hiss).
    destruct (Inv_slot s pid Hs Hex) as [Hle _].
    destruct (refundPayment_frame _ Hk _ _ _ _ H) as (_ & _ & _ & Hf).
    destruct (Hf pid Hle) as (_ & Hfee & _).
    split; [done |]. split; [done |]. split; [| done].
    simpl. left. f_equal.
    destruct (respects_frame _ _ _ Hk Hh) as (_ & _ & _ & Hf2).
    destruct (Hf2 pid) as (((_ & Hp & _) & _) & _); [done |].
    rewrite Hp. unfold called. by rewrite payment_at_payback, decide_True.
Qed.

Lemma run_reachable txs s : reachable s → reachable (run txs s).
Proof.
  revert s. induction txs as [| t txs IH]; intros s Hs; [done |].
  apply IH. by apply reachable_step.
Qed.

Lemma two_payments_reachable : reachable two_payments.
Proof. apply run_reachable, reachable_init. Qed.

Lemma refund_pays_full_amount_witness :
  issued (RefundOf 2) (transact refund_second two_payments) =
    [mkTransfer (RefundOf 2) 10 10] ∧
  status (payment_at (transact refund_second two_payments) 2) = Refunded.
Proof.
  destruct (refund_pays_full_amount Accept (mkMsg 10 0 9) 2 two_payments
              (transact refund_second two_payments))
    as (_ & _ & _ & _ & _ & _ & _ & _ & H); [by vm_compute |].
  destruct (H two_payments_reachable) as (Hiss & _ & _ & Hst).
  split; [rewrite Hiss; by vm_compute | exact Hst].
Defined.

(** ** Failing transfers *)

Lemma transact_revert t s e : execute t s = Revert e → transact t s = s.
Proof. unfold transact. by intros ->. Qed.

(** C3: when the transfer call of a refund or of a cancellation fails, the
    function reverts with "Refund transfer failed" or "Cancel transfer
    failed"; when the fee call or the recipient call of a completion fails
    (the latter possibly after the fee was sent), it reverts with "Fee
    transfer failed" or "Payment transfer failed"; and a transaction that
    reverts leaves the state, with the ledger and all balances, as it was. *)
Theorem transfer_failure_aborts (hfee hpay : handler) (m : Msg) (pid : N) (s : State) :
  let p := payment_at s pid in
  (exists_ p = true → sender m = payer p ∨ sender m = owner s →
   status p = Pending ∨ status p = Completed →
   (call_value hpay (RefundOf pid) (payer p) (amount p)
               (set_status pid Refunded s)).1 = false →
   refundPayment hpay m pid s = Revert "CoinPay: Refund transfer failed") ∧
  (exists_ p = true → sender m = payer p ∨ sender m = owner s →
   status p = Pending →
   (call_value hpay (CancelOf pid) (payer p) (amount p)
               (set_status pid Cancelled s)).1 = false →
   cancelPayment hpay m pid s = Revert "CoinPay: Cancel transfer failed") ∧
  (∀ fee rest,
     status p = Pending →
     split (amount p) (platformFeeBps s) = Ok (fee, rest) →
     let s1 := set_status pid Completed s in
     (fee_due fee s = true →
      (call_value hfee (FeeOf pid) (feeRecipient s) fee s1).1 = false →
      _completePayment hfee hpay pid s = Revert "CoinPay: Fee transfer failed") ∧
     (∀ s2,
        (if fee_due fee s
         then call_value hfee (FeeOf pid) (feeRecipient s) fee s1 = (true, s2)
         else s2 = s1) →
        (call_value hpay (PayoutOf pid) (recipient (payment_at s2 pid)) rest s2).1
          = false →
        _completePayment hfee hpay pid s =
          Revert "CoinPay: Payment transfer failed")) ∧
  (∀ t e, execute t s = Revert e → transact t s = s).
Proof.
  intros p.
  assert (Hauth : sender m = payer p ∨ sender m = owner s →
                  bool_decide (sender m = payer p) || bool_decide (sender m = owner s)
                  = true).
  { intros [? | ?]; apply orb_true_iff; [left | right]; by apply bool_decide_eq_true. }
  split; [| split; [| split]].
  - intros Hex Ha Hst Hfail. unfold refundPayment. fold p.
    rewrite Hex, (Hauth Ha). simpl.
    assert (bool_decide (status p = Pending) || bool_decide (status p = Completed)
            = true) as ->.
    { destruct Hst as [-> | ->]; done. }
    simpl. rewrite payment_at_set_status, decide_True by done. simpl. fold p.
    destruct (call_value _ _ _ _ _) as [ok s2]. simpl in Hfail. by subst ok.
  - intros Hex Ha Hst Hfail. unfold cancelPayment. fold p.
    rewrite Hex, (Hauth Ha), Hst. simpl.
    rewrite payment_at_set_status, decide_True by done. simpl. fold p.
    destruct (call_value _ _ _ _ _) as [ok s2]. simpl in Hfail. by subst ok.
  - intros fee rest Hst Hsplit s1.
    split.
    + intros Hdue Hfail. unfold _completePayment. fold p. rewrite Hst. simpl.
      rewrite payment_at_set_status, decide_True by done. simpl. fold p.
      rewrite Hsplit. simpl. unfold fee_due in Hdue.
      change (feeRecipient (set_status pid Completed s)) with (feeRecipient s).
      rewrite Hdue. fold s1.
      destruct (call_value hfee _ _ _ _) as [ok s2]. simpl in Hfail. by subst ok.
    + intros s2 Hfee Hfail. unfold _completePayment. fold p. rewrite Hst. simpl.
      rewrite payment_at_set_status, decide_True by done. simpl. fold p.
      rewrite Hsplit. simpl. unfold fee_due in Hfee.
      change (feeRecipient (set_status pid Completed s)) with (feeRecipient s).
      fold s1.
      destruct ((0 <? fee) && negb (feeRecipient s =? 0)).
      * rewrite Hfee. simpl.
        destruct (call_value hpay _ _ _ _) as [ok s3]. simpl in Hfail. by subst ok.
      * subst s2. simpl.
        destruct (call_value hpay _ _ _ _) as [ok s3]. simpl in Hfail. by subst ok.
  - intros t e. apply transact_revert.
Qed.

Lemma transfer_failure_aborts_witness :
  refundPayment (interp Reject) (mkMsg 10 0 9) 2 two_payments =
    Revert "CoinPay: Refund transfer failed" ∧
  _completePayment (interp Accept) (interp Reject) 1
      (created_state (mkMsg 10 1000 7) 11 "rejected" (move 10 100 1000 deployed)) =
    Revert "CoinPay: Payment transfer failed" ∧
  transact rejected_payment deployed = deployed.
Proof.
  destruct (transfer_failure_aborts (interp Accept) (interp Reject) (mkMsg 10 0 9) 2
              two_payments) as (Hrefund & _).
  destruct (transfer_failure_aborts (interp Accept) (interp Reject) (mkMsg 10 1000 7) 1
              (created_state (mkMsg 10 1000 7) 11 "rejected"
                 (move 10 100 1000 deployed))) as (_ & _ & Hcomplete & _).
  destruct (transfer_failure_aborts (interp Accept) (interp Reject) (mkMsg 10 1000 7) 1
              deployed) as (_ & _ & _ & Hback).
  destruct (Hcomplete 2 998) as (_ & Hpayout); [by vm_compute | by vm_compute |].
  split; [apply Hrefund; [by vm_compute | left; by vm_compute |
                          right; by vm_compute | by vm_compute] |].
  split; [eapply Hpayout; by vm_compute |].
  apply (Hback rejected_payment "CoinPay: Payment transfer failed").
  by vm_compute.
Defined.

(** ** Creation *)

Lemma frame_slots n s s' : frame_upto n s s' → slots_upto n s s'.
Proof.
  intros (_ & C & U & F). split; [done |]. split; [done |].
  intros pid Hpid. by apply F.
Qed.

Lemma slots_upto_trans n s1 s2 s3 :
  slots_upto n s1 s2 → slots_upto n s2 s3 → slots_upto n s1 s3.
Proof.
  intros (C1 & U1 & F1) (C2 & U2 & F2).
  split; [lia |]. split; [intros user; etrans; [apply U1 | apply U2] |].
  intros pid Hpid. eapply kept_trans; [by apply F1 | by apply F2].
Qed.

Lemma slots_sent n why to v s : slots_upto n s (sent why to v s).
Proof. split; [done |]. split; [done |]. intros; apply kept_refl. Qed.

Lemma slots_emit n e s : slots_upto n s (emit e s).
Proof. split; [done |]. split; [done |]. intros; apply kept_refl. Qed.

Lemma slots_handler h s s' :
  respects guarantee h → h s = Some s' → slots_upto (paymentCounter s) s s'.
Proof. intros Hh Hs. apply frame_slots. by apply Hh. Qed.

Lemma slots_upto_mono n n' s s' :
  n' ≤ n → slots_upto n s s' → slots_upto n' s s'.
Proof.
  intros Hn (C & U & F). split; [done |]. split; [done |].
  intros pid Hpid. apply F. lia.
Qed.

(** A completion keeps the slot it completes, from the moment it has
    written the status. *)
Lemma _completePayment_slots hfee hpay pid s s' :
  respects guarantee hfee → respects guarantee hpay →
  pid ≤ paymentCounter s →
  _completePayment hfee hpay pid s = Ok s' →
  slots_upto pid (set_status pid Completed s) s'.
Proof.
  intros Hfee Hpay Hle H.
  apply _completePayment_ok in H
    as (_ & fee & rest & s2 & s3 & _ & Hfeeleg & _ & _ & Hh & ->).
  assert (S2 : slots_upto pid (set_status pid Completed s) s2).
  { destruct (fee_due fee s).
    - destruct Hfeeleg as (_ & _ & Hhf).
      eapply slots_upto_trans; [apply slots_sent |].
      eapply slots_upto_mono; [| exact (slots_handler _ _ _ Hfee Hhf)]. done.
    - subst s2. split; [done |]. split; [done |]. intros; apply kept_refl. }
  eapply slots_upto_trans; [exact S2 |].
  eapply slots_upto_trans; [apply slots_sent |].
  eapply slots_upto_trans; [| apply slots_emit].
  eapply slots_upto_mono; [| exact (slots_handler _ _ _ Hpay Hh)].
  destruct S2 as (? & _). simpl in *. lia.
Qed.

Lemma getUserPayments_created m r d s :
  getUserPayments (sender m) (created_state m r d s) =
  (getUserPayments (sender m) s ++ [paymentCounter s + 1])%list.
Proof. unfold getUserPayments; simpl. by rewrite lookup_insert_eq. Qed.

Lemma one_payment_reachable : reachable one_payment.
Proof. apply run_reachable, reachable_init. Qed.

(** C8, as stated, fails: a successful createPayment does not always leave
    the payment Completed.  The contract holds 25, the fee of a first payment
    that stayed for want of a fee recipient.  Account 10 pays 10 to the
    owner; the owner's account, when it receives the 10, calls
    refundPayment(2), which finds payment 2 Completed, marks it Refunded and
    sends 10 back to account 10.  createPayment then returns the id 2
    normally, and payment 2 is Refunded, not Completed. *)
Lemma createPayment_returns_refunded :
  reachable one_payment ∧
  createPayment (interp Accept) (interp refunding_owner) (mkMsg 10 10 8) 1 "second"
                (move 10 100 10 one_payment)
    = Ok (2, transact payment_to_owner one_payment) ∧
  execute payment_to_owner one_payment = Ok (transact payment_to_owner one_payment) ∧
  getPayment 2 (transact payment_to_owner one_payment) =
    Ok (mkPayment 2 10 1 10 8 Refunded "second" true) ∧
  status (payment_at (transact payment_to_owner one_payment) 2) ≠ Completed ∧
  transfers (transact payment_to_owner one_payment) =
    [mkTransfer (RefundOf 2) 10 10; mkTransfer (PayoutOf 2) 1 10;
     mkTransfer (PayoutOf 1) 11 9975].
Proof.
  split; [exact one_payment_reachable |].
  split; [by vm_compute |]. split; [by vm_compute |].
  split; [by vm_compute |]. split; by vm_compute.
Qed.

(** What a successful createPayment has stored when it returns. *)
Lemma createPayment_stored kfee kpay m r d s pid s' :
  createPayment (interp kfee) (interp kpay) m r d s = Ok (pid, s') →
  pid = paymentCounter s + 1 ∧ pid ≤ paymentCounter s' ∧
  same_terms (mkPayment pid (sender m) r (value m) (now m) Pending d true)
             (payment_at s' pid) ∧
  (getUserPayments (sender m) s ++ [pid])%list
    `prefix_of` getUserPayments (sender m) s' ∧
  (status (payment_at s' pid) = Completed ∨
   status (payment_at s' pid) = Refunded).
Proof.
  intros H. apply createPayment_ok in H as (_ & _ & _ & _ & -> & H).
  set (pid := paymentCounter s + 1) in *.
  set (s0 := created_state m r d s) in *.
  assert (Hp1 : payment_at (set_status pid Completed s0) pid =
                mkPayment pid (sender m) r (value m) (now m)
                          Completed d true).
  { unfold s0, pid. by rewrite payment_at_created_completed, decide_True. }
  assert (Hle : pid ≤ paymentCounter s0) by (simpl; lia).
  pose proof (_completePayment_slots _ _ _ _ _
                (interp_guarantee kfee) (interp_guarantee kpay)
                Hle H) as (Hc & Hu & Hk).
  specialize (Hk pid (N.le_refl pid)). rewrite Hp1 in Hk.
  destruct Hk as (Hterms & Hdone & _).
  split; [done |]. split; [exact Hc |]. split; [exact Hterms |].
  split; [| by apply Hdone].
  specialize (Hu (sender m)).
  change (getUserPayments (sender m) (set_status pid Completed s0))
    with (getUserPayments (sender m) (created_state m r d s))
    in Hu.
  by rewrite getUserPayments_created in Hu.
Qed.

(** C8, amended: createPayment fails with "Invalid recipient" for the null
    recipient and with "Cannot pay yourself" when the recipient is the payer;
    with no value it fails with "Amount must be greater than 0", unless the
    recipient is refused first.  On success the id is the payment counter
    plus one (so 1 on a fresh contract, and above every id allotted before),
    the record is stored under it with the payer, recipient, amount,
    timestamp and description of the call, the id is appended to the payer's
    owner index, and the status, written Completed before any transfer, is
    Completed when the call returns, or Refunded when the payment was
    refunded from within a transfer of this very call; with receivers that
    do not call back it is Completed.  From a reachable state the payment is
    Refunded on return exactly when the refund of its full amount to its
    payer is on record, and Completed when no refund is. *)
Theorem createPayment_spec (kfee kpay : callee) (m : Msg)
    (_recipient : N) (_description : string) (s : State) :
  let create :=
    createPayment (interp kfee) (interp kpay) m _recipient _description s in
  (_recipient = 0 → create = Revert "CoinPay: Invalid recipient") ∧
  (_recipient ≠ 0 → _recipient = sender m →
   create = Revert "CoinPay: Cannot pay yourself") ∧
  (value m = 0 →
   create = Revert (if _recipient =? 0 then "CoinPay: Invalid recipient"
                    else if _recipient =? sender m then "CoinPay: Cannot pay yourself"
                    else "CoinPay: Amount must be greater than 0")) ∧
  (∀ pid s', create = Ok (pid, s') →
     pid = paymentCounter s + 1 ∧ pid ≤ paymentCounter s' ∧
     same_terms (mkPayment pid (sender m) _recipient (value m) (now m)
                           Pending _description true)
                (payment_at s' pid) ∧
     (getUserPayments (sender m) s ++ [pid])%list
       `prefix_of` getUserPayments (sender m) s' ∧
     (status (payment_at s' pid) = Completed ∨
      status (payment_at s' pid) = Refunded) ∧
     (kfee = Accept → kpay = Accept →
      status (payment_at s' pid) = Completed ∧
      paymentCounter s' = pid ∧
      getUserPayments (sender m) s' =
        (getUserPayments (sender m) s ++ [pid])%list)) ∧
  (reachable s →
   ∀ s', execute (mkTx m (CreatePayment _recipient _description) kfee kpay) s
         = Ok s' →
     let pid := paymentCounter s + 1 in
     (status (payment_at s' pid) = Completed ∧ issued (RefundOf pid) s' = []) ∨
     (status (payment_at s' pid) = Refunded ∧
      issued (RefundOf pid) s' =
        [mkTransfer (RefundOf pid) (sender m) (value m)])).
Proof.
  intros create. unfold create. split; [| split; [| split; [| split]]].
  - intros ->. done.
  - intros Hr Heq. unfold createPayment. rewrite <- Heq.
    destruct (N.eqb_spec _recipient 0); [done |]. simpl.
    by rewrite N.eqb_refl.
  - intros Hv. unfold createPayment.
    destruct (N.eqb_spec _recipient 0); [done |]. simpl.
    destruct (N.eqb_spec _recipient (sender m)); [done |]. simpl.
    by rewrite Hv.
  - intros pid s' H.
    destruct (createPayment_stored _ _ _ _ _ _ _ _ H)
      as (Hpid & Hc & Hterms & Hu & Hst).
    do 5 (split; [done |]). intros -> ->.
    apply createPayment_ok in H as (_ & _ & _ & _ & -> & H).
    set (pid := paymentCounter s + 1) in *.
    set (s0 := created_state m _recipient _description s) in *.
    assert (Hp1 : payment_at (set_status pid Completed s0) pid =
                  mkPayment pid (sender m) _recipient (value m) (now m)
                            Completed _description true).
    { unfold s0, pid. by rewrite payment_at_created_completed, decide_True. }
    apply _completePayment_ok in H
      as (_ & fee & rest & s2 & s3 & _ & Hfeeleg & _ & _ & Hh & ->).
    injection Hh as <-.
    assert (s2 = set_status pid Completed s0 ∨
            ∃ to v, s2 = sent (FeeOf pid) to v (set_status pid Completed s0))
      as Hs2.
    { destruct (fee_due fee s0); [| by left].
      destruct Hfeeleg as (_ & _ & [= <-]). right. by eexists _, _. }
    rewrite payment_at_emit, !payment_at_sent.
    destruct Hs2 as [-> | (to & v & ->)];
      rewrite ?payment_at_sent, Hp1; repeat split; try done;
      apply getUserPayments_created.
  - intros Hs s' He. set (pid := paymentCounter s + 1).
    destruct (execute_guarantee _ _ _ He) as [_ HI].
    destruct (HI (reachable_Inv s Hs)) as [HI' _].
    pose proof (inv_refund s' HI' pid) as Hrefund.
    unfold execute in He. simpl in He. inv_bind He.
    destruct a0 as [pid' s1]. injection He as <-.
    unfold pay_in in Hstep. destruct (_ <? _); [done |]. injection Hstep as <-.
    destruct (createPayment_stored _ _ _ _ _ _ _ _ Hstep0)
      as (-> & _ & Hterms & _ & Hst).
    destruct Hterms as (_ & Hpayer & _ & Hamount & _). simpl in *.
    fold pid in Hpayer, Hamount, Hst, Hrefund.
    rewrite Hpayer, Hamount in Hrefund.
    destruct Hst as [Hst | Hst]; [left | right]; (split; [done |]);
      rewrite Hrefund, Hst; done.
Qed.

Lemma createPayment_spec_witness :
  createPayment (interp Accept) (interp Accept) (mkMsg 10 1000 7) 0 "" deployed =
    Revert "CoinPay: Invalid recipient" ∧
  createPayment (interp Accept) (interp Accept) (mkMsg 10 1000 7) 10 "" deployed =
    Revert "CoinPay: Cannot pay yourself" ∧
  createPayment (interp Accept) (interp Accept) (mkMsg 10 0 7) 11 "" deployed =
    Revert "CoinPay: Amount must be greater than 0" ∧
  status (payment_at
            (transact (mkTx (mkMsg 10 1000 7) (CreatePayment 11 "") Accept Accept)
                      deployed) 1) = Completed ∧
  issued (RefundOf 1)
         (transact (mkTx (mkMsg 10 1000 7) (CreatePayment 11 "") Accept Accept)
                   deployed) = [].
Proof.
  destruct (createPayment_spec Accept Accept (mkMsg 10 1000 7) 0 "" deployed)
    as (H0 & _).
  destruct (createPayment_spec Accept Accept (mkMsg 10 1000 7) 10 "" deployed)
    as (_ & Hself & _).
  destruct (createPayment_spec Accept Accept (mkMsg 10 0 7) 11 "" deployed)
    as (_ & _ & Hzero & _).
  destruct (createPayment_spec Accept Accept (mkMsg 10 1000 7) 11 ""
              (move 10 100 1000 deployed)) as (_ & _ & _ & Hok & _).
  destruct (createPayment_spec Accept Accept (mkMsg 10 1000 7) 11 "" deployed)
    as (_ & _ & _ & _ & Hrun).
  destruct (Hok 1 (transact (mkTx (mkMsg 10 1000 7) (CreatePayment 11 "") Accept Accept)
                            deployed))
    as (_ & _ & _ & _ & _ & Hdone); [by vm_compute |].
  destruct Hdone as (Hst & _); [done | done |].
  destruct (Hrun (reachable_init 100 1 9 {[ 10 := 50000 ]})
              (transact (mkTx (mkMsg 10 1000 7) (CreatePayment 11 "") Accept Accept)
                        deployed))
    as [[_ Hnone] | [Href _]]; [by vm_compute | | vm_compute in Href; discriminate Href].
  split; [by apply H0 |]. split; [apply Hself; by vm_compute |].
  split; [rewrite Hzero; by vm_compute |]. split; [exact Hst | exact Hnone].
Defined.

(** ** Completion and the fee leg *)

Lemma call_value_ok h why to v s s' :
  v ≤ balance_of s (self s) → to ≠ self s → h (sent why to v s) = Some s' →
  call_value h why to v s = (true, s').
Proof.
  intros Hbal Hto Hh. unfold call_value.
  destruct (N.ltb_spec (balance_of s (self s)) v); [lia |].
  destruct (N.eqb_spec to (self s)); [done |]. by rewrite Hh.
Qed.

Lemma call_value_rejected h why to v s :
  h (sent why to v s) = None → call_value h why to v s = (false, s).
Proof.
  intros Hh. unfold call_value.
  destruct (_ <? _); [done |]. destruct (_ =? _); [done |]. by rewrite Hh.
Qed.

Lemma execute_createPayment m r d kfee kpay s :
  r ≠ 0 → r ≠ sender m → 0 < value m →
  paymentCounter s + 1 ≤ MAX_UINT256 →
  value m ≤ balance_of s (sender m) →
  execute (mkTx m (CreatePayment r d) kfee kpay) s =
  (s' ← _completePayment (interp kfee) (interp kpay) (paymentCounter s + 1)
         (created_state m r d (move (sender m) (self s) (value m) s));
   Ok s').
Proof.
  intros Hr Hself Hv Hc Hbal. unfold execute; simpl. unfold pay_in.
  destruct (N.ltb_spec (balance_of s (sender m)) (value m)); [lia |]. simpl.
  unfold createPayment.
  destruct (N.eqb_spec r 0); [done |]. simpl.
  destruct (N.eqb_spec r (sender m)); [done |]. simpl.
  destruct (N.ltb_spec 0 (value m)); [| lia]. simpl.
  unfold checked_add. simpl.
  destruct (N.leb_spec (paymentCounter s + 1) MAX_UINT256); [| lia]. simpl.
  by destruct (_completePayment _ _ _ _).
Qed.

Lemma _completePayment_created hfee hpay m r d s fee rest :
  split (value m) (platformFeeBps s) = Ok (fee, rest) →
  let pid := paymentCounter s + 1 in
  let s1 := completing_state m r d s in
  _completePayment hfee hpay pid
    (created_state m r d (move (sender m) (self s) (value m) s)) =
  (s2 ← (if fee_due fee s
         then
           let '(feeSuccess, s') :=
             call_value hfee (FeeOf pid) (feeRecipient s) fee s1 in
           require feeSuccess "CoinPay: Fee transfer failed";; Ok s'
         else Ok s1);
   let '(success, s3) :=
     call_value hpay (PayoutOf pid) (recipient (payment_at s2 pid)) rest s2 in
   require success "CoinPay: Payment transfer failed";;
   Ok (emit (PaymentCompleted pid (recipient (payment_at s3 pid)) rest) s3)).
Proof.
  intros Hsplit pid s1. unfold _completePayment.
  rewrite payment_at_created, decide_True by done. simpl.
  rewrite payment_at_set_status, decide_True by done.
  rewrite payment_at_created, decide_True by done. simpl.
  by rewrite Hsplit.
Qed.

(** C10: in a valid createPayment, when the fee is zero or the fee recipient
    is the null address, no fee call is made: whatever the fee recipient's
    account would do, the payment completes with the single transfer of
    recipientAmount to a recipient that accepts it, and the contract's
    balance grows by the fee.  When the fee is positive and the fee
    recipient is not null the fee call is made: a fee recipient that rejects
    it makes the payment fail, one that accepts it receives the fee before
    the recipient is paid.  The constructor stores a null fee recipient as
    it is given. *)
Theorem fee_leg_of_completion (m : Msg) (r : N) (d : string) (s : State)
    (fee rest : N) :
  r ≠ 0 → r ≠ sender m → r ≠ self s → sender m ≠ self s → 0 < value m →
  paymentCounter s + 1 ≤ MAX_UINT256 →
  value m ≤ balance_of s (sender m) →
  split (value m) (platformFeeBps s) = Ok (fee, rest) →
  let pid := paymentCounter s + 1 in
  let s1 := completing_state m r d s in
  let paid_out :=
    emit (PaymentCompleted pid r rest) (sent (PayoutOf pid) r rest s1) in
  (fee = 0 ∨ feeRecipient s = 0 →
   (∀ kfee, execute (mkTx m (CreatePayment r d) kfee Accept) s = Ok paid_out) ∧
   transfers paid_out = mkTransfer (PayoutOf pid) r rest :: transfers s ∧
   balance_of paid_out (self s) = balance_of s (self s) + fee ∧
   status (payment_at paid_out pid) = Completed) ∧
  (0 < fee → feeRecipient s ≠ 0 →
   (∀ kpay, execute (mkTx m (CreatePayment r d) Reject kpay) s =
            Revert "CoinPay: Fee transfer failed") ∧
   (feeRecipient s ≠ self s →
    execute (mkTx m (CreatePayment r d) Accept Accept) s =
      Ok (emit (PaymentCompleted pid r rest)
            (sent (PayoutOf pid) r rest
               (sent (FeeOf pid) (feeRecipient s) fee s1))))) ∧
  (∀ this deployer bal,
     feeRecipient (constructor this deployer 0 bal) = 0 ∧
     reachable (constructor this deployer 0 bal)).
Proof.
  intros Hr Hrs Hrself Hsself Hv Hc Hbal Hsplit pid s1 paid_out.
  pose proof (split_ok _ _ _ _ Hsplit) as (_ & _ & Hfee & Hrest).
  assert (Hp : ∀ x, payment_at x = payment_at s1 → recipient (payment_at x pid) = r).
  { intros x ->. unfold s1, completing_state.
    rewrite payment_at_set_status, decide_True by done.
    by rewrite payment_at_created, decide_True. }
  assert (Hb1 : balance_of s1 (self s) = balance_of s (self s) + value m).
  { change (balance_of (move (sender m) (self s) (value m) s) (self s) =
            balance_of s (self s) + value m).
    by rewrite balance_of_move_to. }
  split; [| split].
  - intros Hnofee.
    assert (Hdue : fee_due fee s = false).
    { unfold fee_due. destruct Hnofee as [-> | ->]; [done |].
      by rewrite andb_false_r. }
    split; [| split; [done | split]].
    + intros kfee. rewrite execute_createPayment by done.
      rewrite (_completePayment_created _ _ _ _ _ _ fee rest) by done.
      rewrite Hdue. simpl. fold pid s1. rewrite (Hp s1) by done.
      rewrite (call_value_ok _ _ _ _ _ (sent (PayoutOf pid) r rest s1));
        [| change (self s1) with (self s); lia | done | done].
      simpl. by rewrite payment_at_sent, (Hp s1).
    + change (balance_of (move (self s) r rest s1) (self s) =
              balance_of s (self s) + fee).
      change (self s) with (self s1) at 1 2.
      rewrite balance_of_move_from by done.
      change (self s1) with (self s). lia.
    + unfold paid_out, s1, completing_state.
      rewrite payment_at_emit, payment_at_sent.
      by rewrite payment_at_set_status, decide_True.
  - intros Hpos Hfr.
    assert (Hdue : fee_due fee s = true).
    { unfold fee_due. apply andb_true_iff. split; [by apply N.ltb_lt |].
      by apply negb_true_iff, N.eqb_neq. }
    split.
    + intros kpay. rewrite execute_createPayment by done.
      rewrite (_completePayment_created _ _ _ _ _ _ fee rest) by done.
      rewrite Hdue. fold pid s1. by rewrite call_value_rejected.
    + intros Hfrself. rewrite execute_createPayment by done.
      rewrite (_completePayment_created _ _ _ _ _ _ fee rest) by done.
      rewrite Hdue. fold pid s1.
      rewrite (call_value_ok _ _ _ _ _ (sent (FeeOf pid) (feeRecipient s) fee s1));
        [| change (self s1) with (self s); lia | done | done].
      simpl. rewrite payment_at_sent, (Hp s1) by done.
      rewrite (call_value_ok _ _ _ _ _
                 (sent (PayoutOf pid) r rest
                    (sent (FeeOf pid) (feeRecipient s) fee s1))); [| | done | done].
      * simpl. by rewrite !payment_at_sent, (Hp s1).
      * change (rest ≤ balance_of (move (self s1) (feeRecipient s) fee s1) (self s1)).
        rewrite balance_of_move_from by done.
        change (self s1) with (self s). lia.
  - intros this deployer bal. split; [done | apply reachable_init].
Qed.

Lemma fee_leg_of_completion_witness :
  let s := transact (mkTx (mkMsg 10 10000 7) (CreatePayment 11 "first") Accept Accept)
                    deployed_no_fee_recipient in
  transfers s = [mkTransfer (PayoutOf 1) 11 9975] ∧
  balance_of s 100 = 25 ∧
  execute (mkTx (mkMsg 10 10000 7) (CreatePayment 11 "first") Reject Accept) deployed =
    Revert "CoinPay: Fee transfer failed".
Proof.
  destruct (fee_leg_of_completion (mkMsg 10 10000 7) 11 "first"
              deployed_no_fee_recipient 25 9975)
    as (Hskip & _); [by vm_compute .. |].
  destruct (fee_leg_of_completion (mkMsg 10 10000 7) 11 "first" deployed 25 9975)
    as (_ & Hfee & _); [by vm_compute .. |].
  destruct Hskip as (Hrun & Htr & Hbal & _); [by right |].
  destruct Hfee as (Hrej & _); [done | done |].
  unfold transact. rewrite (Hrun Accept).
  split; [exact Htr |]. split; [exact Hbal | apply Hrej].
Defined.

(** ** Reentrancy *)

Lemma call_value_ext h h' why to v s :
  h (sent why to v s) = h' (sent why to v s) →
  call_value h why to v s = call_value h' why to v s.
Proof. unfold call_value. by intros ->. Qed.

Lemma refundPayment_ext h h' m pid s :
  h (payback_state (RefundOf pid) Refunded pid s) =
  h' (payback_state (RefundOf pid) Refunded pid s) →
  refundPayment h m pid s = refundPayment h' m pid s.
Proof.
  intros Hh. unfold refundPayment.
  rewrite payment_at_set_status, decide_True by done. simpl.
  by rewrite (call_value_ext h h').
Qed.

Lemma cancelPayment_ext h h' m pid s :
  h (payback_state (CancelOf pid) Cancelled pid s) =
  h' (payback_state (CancelOf pid) Cancelled pid s) →
  cancelPayment h m pid s = cancelPayment h' m pid s.
Proof.
  intros Hh. unfold cancelPayment.
  rewrite payment_at_set_status, decide_True by done. simpl.
  by rewrite (call_value_ext h h').
Qed.

Lemma emergencyWithdraw_ext h h' m s :
  h (sent Withdrawal (owner s) (balance_of s (self s)) s) =
  h' (sent Withdrawal (owner s) (balance_of s (self s)) s) →
  emergencyWithdraw h m s = emergencyWithdraw h' m s.
Proof. intros Hh. unfold emergencyWithdraw. by rewrite (call_value_ext h h'). Qed.

(** The receivers of a completion are consulted in two states only: the fee
    recipient after the status write, and the recipient after the fee leg. *)
Lemma _completePayment_ext hfee hfee' hpay hpay' pid s :
  (∀ to v, hfee (sent (FeeOf pid) to v (set_status pid Completed s)) =
           hfee' (sent (FeeOf pid) to v (set_status pid Completed s))) →
  (∀ to v s2,
     s2 = set_status pid Completed s ∨
     (∃ to' v', hfee (sent (FeeOf pid) to' v' (set_status pid Completed s)) = Some s2) →
     hpay (sent (PayoutOf pid) to v s2) = hpay' (sent (PayoutOf pid) to v s2)) →
  _completePayment hfee hpay pid s = _completePayment hfee' hpay' pid s.
Proof.
  intros Hf Hp. unfold _completePayment.
  destruct (require _ _); [simpl | done | done].
  destruct (split _ _) as [[fee rest] | |]; [simpl | done | done].
  destruct ((0 <? fee) && _).
  - rewrite <- (call_value_ext hfee hfee') by apply Hf.
    destruct (call_value hfee _ _ _ _) as [[] s2] eqn:Hcall; [simpl | done].
    apply call_value_inv in Hcall as [[? _] | (_ & _ & _ & Hcall)]; [done |].
    rewrite (call_value_ext hpay hpay'); [done |].
    apply Hp. right. by eexists _, _.
  - simpl. rewrite (call_value_ext hpay hpay'); [done |].
    apply Hp. by left.
Qed.

Lemma advanced_frame pid st x y :
  st = Refunded ∨ st = Cancelled →
  advanced pid st x → frame_upto (paymentCounter x) x y → advanced pid st y.
Proof.
  intros Hst [Hs Hle] (_ & Hc & _ & Hf).
  destruct (Hf pid Hle) as ((_ & _ & HR & HC) & _).
  split; [| lia]. destruct Hst; subst st; auto.
Qed.

Lemma advanced_sent pid st why to v x :
  advanced pid st x → advanced pid st (sent why to v x).
Proof. done. Qed.

Lemma advanced_payback pid st why st' p x :
  p ≠ pid → advanced pid st x → advanced pid st (payback_state why st' p x).
Proof.
  intros Hp [Hs Hle]. split; [| done].
  by rewrite payment_at_payback, decide_False.
Qed.

Lemma refundPayment_terminal m pid s :
  status (payment_at s pid) = Refunded ∨ status (payment_at s pid) = Cancelled →
  ∃ e, ∀ h', refundPayment h' m pid s = Revert e.
Proof.
  intros Hst. unfold refundPayment.
  destruct (exists_ _); [simpl | eexists; intros; reflexivity].
  destruct (bool_decide (sender m = _) || _);
    [simpl | eexists; intros; reflexivity].
  rewrite !bool_decide_eq_false_2 by (destruct Hst; congruence).
  eexists; intros; reflexivity.
Qed.

Lemma cancelPayment_not_pending m pid s :
  status (payment_at s pid) ≠ Pending →
  ∃ e, ∀ h', cancelPayment h' m pid s = Revert e.
Proof.
  intros Hst. unfold cancelPayment.
  destruct (exists_ _); [simpl | eexists; intros; reflexivity].
  destruct (bool_decide (sender m = _) || _);
    [simpl | eexists; intros; reflexivity].
  rewrite bool_decide_eq_false_2 by done.
  eexists; intros; reflexivity.
Qed.

Section Agreement.
Context (pid : N) (st : PaymentStatus).
Context (Hst : st = Refunded ∨ st = Cancelled).
Context (hfee hfee' hpay hpay' : handler).
Context (Hfee : respects guarantee hfee).
Context (Afee : agree_on (advanced pid st) hfee hfee').
Context (Apay : agree_on (advanced pid st) hpay hpay').

Lemma refundPayment_agree m p x :
  advanced pid st x → refundPayment hpay m p x = refundPayment hpay' m p x.
Proof using All.
  intros Hx. destruct (decide (p = pid)) as [-> | Hp].
  - destruct (refundPayment_terminal m pid x) as [e He].
    { destruct Hx as [-> _]. done. }
    by rewrite !He.
  - apply refundPayment_ext, Apay. by apply advanced_payback.
Qed.

Lemma cancelPayment_agree m p x :
  advanced pid st x → cancelPayment hpay m p x = cancelPayment hpay' m p x.
Proof using All.
  intros Hx. destruct (decide (p = pid)) as [-> | Hp].
  - destruct (cancelPayment_not_pending m pid x) as [e He].
    { destruct Hx as [-> _]. destruct Hst; by subst. }
    by rewrite !He.
  - apply cancelPayment_ext, Apay. by apply advanced_payback.
Qed.

Lemma createPayment_agree m r d x :
  advanced pid st x →
  createPayment hfee hpay m r d x = createPayment hfee' hpay' m r d x.
Proof using All.
  intros [Hs Hle]. unfold createPayment.
  apply bind_ext; intros _ _. apply bind_ext; intros _ _.
  apply bind_ext; intros _ _. apply bind_ext; intros c Hc.
  unfold checked_add in Hc. destruct (_ <=? _); [| discriminate Hc].
  injection Hc as <-. cbv zeta.
  set (new := paymentCounter (set_paymentCounter (paymentCounter x + 1) x)).
  set (x0 := emit _ _).
  assert (Hnew : new ≠ pid) by (unfold new; simpl; lia).
  assert (H1 : advanced pid st (set_status new Completed x0)).
  { split; [| simpl; lia].
    rewrite payment_at_set_status, decide_False by done.
    unfold x0. rewrite payment_at_emit, payment_at_push, payment_at_insert.
    by rewrite decide_False. }
  rewrite (_completePayment_ext hfee hfee' hpay hpay'); [reflexivity | |].
  - intros to v. apply Afee. exact H1.
  - intros to v s2 [-> | (to' & v' & Hs2)]; apply Apay, advanced_sent;
      [exact H1 |].
    eapply advanced_frame; [exact Hst | | exact (respects_frame _ _ _ Hfee Hs2)].
    exact H1.
Qed.

Lemma dispatch_agree m c x :
  advanced pid st x →
  dispatch hfee hpay m c x = dispatch hfee' hpay' m c x.
Proof using All.
  intros Hx. destruct c; unfold dispatch.
  - apply bind_ext; intros x1 Hin.
    unfold pay_in in Hin. destruct (_ <? _); [discriminate Hin |].
    injection Hin as <-.
    rewrite createPayment_agree; [reflexivity |]. exact Hx.
  - apply bind_ext; intros _ _. by apply refundPayment_agree.
  - apply bind_ext; intros _ _. by apply cancelPayment_agree.
  - reflexivity.
  - reflexivity.
  - apply bind_ext; intros _ _.
    apply emergencyWithdraw_ext, Apay. exact Hx.
Qed.
End Agreement.

(** Attempts to repeat a refund or a cancellation can be left out of a
    receiver: they all fail. *)
Lemma dispatch_same_transition hfee hpay pid st m c x :
  same_transition pid st c = true → advanced pid st x →
  ∀ s', dispatch hfee hpay m c x ≠ Ok s'.
Proof.
  intros Hc [Hx _] s'. destruct st, c; try discriminate Hc; simpl in Hc;
    apply N.eqb_eq in Hc; subst _paymentId; unfold dispatch;
    destruct (nonpayable m); try discriminate; simpl.
  - destruct (refundPayment_terminal m pid x) as [e ->]; [by left | done].
  - destruct (cancelPayment_not_pending m pid x) as [e ->]; [by rewrite Hx | done].
Qed.

Lemma interp_without pid st k :
  st = Refunded ∨ st = Cancelled →
  agree_on (advanced pid st) (interp k) (interp (without pid st k)).
Proof.
  intros Hst.
  induction k as [| | m c kfee IHfee kpay IHpay next IHnext]; intros x Hx;
    [reflexivity | reflexivity |].
  cbn [without interp]. destruct (same_transition pid st c) eqn:Hc.
  - rewrite <- (IHnext x Hx).
    pose proof (dispatch_same_transition (interp kfee) (interp kpay) _ _ m _ _ Hc Hx)
      as Hfail.
    destruct (dispatch _ _ _ _ _) as [a | |];
      [by destruct (Hfail a) | reflexivity | reflexivity].
  - cbn [interp].
    rewrite <- (dispatch_agree pid st Hst (interp kfee) _ (interp kpay) _
                  (interp_guarantee kfee) IHfee IHpay m c x Hx).
    destruct (dispatch _ _ _ _ _) as [x' | |] eqn:Hd; [| by apply IHnext ..].
    apply IHnext. eapply advanced_frame; [exact Hst | exact Hx |].
    exact (dispatch_frame _ _ (interp_guarantee kfee) (interp_guarantee kpay)
             _ _ _ _ Hd).
Qed.

Lemma refundPayment_without k m pid s :
  reachable s →
  refundPayment (interp k) m pid s =
  refundPayment (interp (without pid Refunded k)) m pid s.
Proof.
  intros Hs%reachable_Inv.
  destruct (exists_ (payment_at s pid)) eqn:Hex.
  - apply refundPayment_ext, interp_without; [by left |].
    split; [by rewrite payment_at_payback, decide_True |].
    by destruct (Inv_slot s pid Hs Hex).
  - unfold refundPayment. by rewrite Hex.
Qed.

Lemma cancelPayment_without k m pid s :
  reachable s →
  cancelPayment (interp k) m pid s =
  cancelPayment (interp (without pid Cancelled k)) m pid s.
Proof.
  intros Hs%reachable_Inv.
  destruct (exists_ (payment_at s pid)) eqn:Hex.
  - apply cancelPayment_ext, interp_without; [by right |].
    split; [by rewrite payment_at_payback, decide_True |].
    by destruct (Inv_slot s pid Hs Hex).
  - unfold cancelPayment. by rewrite Hex.
Qed.

(** The outbound call, case by case: it reaches the receiver exactly when the
    contract holds the value and the receiver is not the contract itself. *)
Lemma call_value_spec h why to v s :
  call_value h why to v s =
  if (v <=? getBalance s) && negb (to =? self s)
  then match h (sent why to v s) with
       | Some s' => (true, s')
       | None => (false, s)
       end
  else (false, s).
Proof.
  unfold call_value, getBalance.
  destruct (N.ltb_spec (balance_of s (self s)) v),
           (N.leb_spec v (balance_of s (self s))); try lia; [done |].
  simpl. by destruct (to =? self s).
Qed.

(** A refund whose checks pass calls the payer's account in the state in
    which the payment is already Refunded, and stands or falls with it. *)
Lemma refundPayment_calls h m pid s :
  exists_ (payment_at s pid) = true →
  sender m = payer (payment_at s pid) ∨ sender m = owner s →
  status (payment_at s pid) = Pending ∨ status (payment_at s pid) = Completed →
  refundPayment h m pid s =
  let p := payment_at s pid in
  if (amount p <=? getBalance s) && negb (payer p =? self s)
  then match h (payback_state (RefundOf pid) Refunded pid s) with
       | Some s' =>
           Ok (emit (PaymentRefunded pid (payer (payment_at s' pid)) (amount p)) s')
       | None => Revert "CoinPay: Refund transfer failed"
       end
  else Revert "CoinPay: Refund transfer failed".
Proof.
  intros Hex Hwho Hst. unfold refundPayment. rewrite Hex. simpl.
  assert (bool_decide (sender m = payer (payment_at s pid))
          || bool_decide (sender m = owner s) = true) as ->.
  { apply orb_true_iff. destruct Hwho; [left | right]; by apply bool_decide_eq_true. }
  assert (bool_decide (status (payment_at s pid) = Pending)
          || bool_decide (status (payment_at s pid) = Completed) = true) as ->.
  { apply orb_true_iff. destruct Hst; [left | right]; by apply bool_decide_eq_true. }
  simpl. rewrite payment_at_set_status, decide_True by done. simpl.
  rewrite call_value_spec. unfold payback_state, getBalance. simpl.
  destruct (_ && _); [| done]. by destruct (h _).
Qed.

Lemma cancelPayment_calls h m pid s :
  exists_ (payment_at s pid) = true →
  sender m = payer (payment_at s pid) ∨ sender m = owner s →
  status (payment_at s pid) = Pending →
  cancelPayment h m pid s =
  let p := payment_at s pid in
  if (amount p <=? getBalance s) && negb (payer p =? self s)
  then match h (payback_state (CancelOf pid) Cancelled pid s) with
       | Some s' =>
           Ok (emit (PaymentCancelled pid (payer (payment_at s' pid)) (amount p)) s')
       | None => Revert "CoinPay: Cancel transfer failed"
       end
  else Revert "CoinPay: Cancel transfer failed".
Proof.
  intros Hex Hwho Hst. unfold cancelPayment. rewrite Hex. simpl.
  assert (bool_decide (sender m = payer (payment_at s pid))
          || bool_decide (sender m = owner s) = true) as ->.
  { apply orb_true_iff. destruct Hwho; [left | right]; by apply bool_decide_eq_true. }
  rewrite (bool_decide_eq_true_2 _ Hst).
  simpl. rewrite payment_at_set_status, decide_True by done. simpl.
  rewrite call_value_spec. unfold payback_state, getBalance. simpl.
  destruct (_ && _); [| done]. by destruct (h _).
Qed.

(** A completion writes Completed and then calls the fee recipient, when a
    fee is due, and the recipient, each in the state the calls before it
    have left. *)
Lemma _completePayment_calls hfee hpay pid s fee rest :
  status (payment_at s pid) = Pending →
  split (amount (payment_at s pid)) (platformFeeBps s) = Ok (fee, rest) →
  _completePayment hfee hpay pid s =
  let s1 := set_status pid Completed s in
  s2 ← (if fee_due fee s
        then if (fee <=? getBalance s) && negb (feeRecipient s =? self s)
             then match hfee (sent (FeeOf pid) (feeRecipient s) fee s1) with
                  | Some s2 => Ok s2
                  | None => Revert "CoinPay: Fee transfer failed"
                  end
             else Revert "CoinPay: Fee transfer failed"
        else Ok s1);
  let to := recipient (payment_at s2 pid) in
  if (rest <=? getBalance s2) && negb (to =? self s2)
  then match hpay (sent (PayoutOf pid) to rest s2) with
       | Some s3 =>
           Ok (emit (PaymentCompleted pid (recipient (payment_at s3 pid)) rest) s3)
       | None => Revert "CoinPay: Payment transfer failed"
       end
  else Revert "CoinPay: Payment transfer failed".
Proof.
  intros Hst Hsplit. unfold _completePayment.
  rewrite (bool_decide_eq_true_2 _ Hst). simpl.
  rewrite payment_at_set_status, decide_True by done. simpl.
  rewrite Hsplit. simpl. unfold fee_due.
  assert (Hpay : ∀ s2,
    (let '(success, s3) :=
       call_value hpay (PayoutOf pid) (recipient (payment_at s2 pid)) rest s2 in
     require success "CoinPay: Payment transfer failed";;
     Ok (emit (PaymentCompleted pid (recipient (payment_at s3 pid)) rest) s3)) =
    if (rest <=? getBalance s2) && negb (recipient (payment_at s2 pid) =? self s2)
    then match hpay (sent (PayoutOf pid) (recipient (payment_at s2 pid)) rest s2) with
         | Some s3 =>
             Ok (emit (PaymentCompleted pid (recipient (payment_at s3 pid)) rest) s3)
         | None => Revert "CoinPay: Payment transfer failed"
         end
    else Revert "CoinPay: Payment transfer failed").
  { intros s2. rewrite call_value_spec.
    destruct (_ && _); [| done]. by destruct (hpay _). }
  destruct ((0 <? fee) && negb (feeRecipient s =? 0)); [| apply Hpay].
  rewrite call_value_spec.
  change (getBalance (set_status pid Completed s)) with (getBalance s).
  change (self (set_status pid Completed s)) with (self s).
  destruct ((fee <=? getBalance s) && negb (feeRecipient s =? self s)); [| done].
  destruct (hfee _) as [s2 |]; [| done]. apply Hpay.
Qed.

Lemma interp_repeated_refund pid x m' kfee kpay next :
  status (payment_at x pid) = Refunded →
  interp (Reenter m' (RefundPayment pid) kfee kpay next) x = interp next x.
Proof.
  intros Hx. cbn [interp]. unfold dispatch.
  destruct (nonpayable m'); [simpl | done | done].
  by destruct (refundPayment_terminal m' pid x (or_introl Hx)) as [e ->].
Qed.

Lemma interp_repeated_cancel pid x m' kfee kpay next :
  status (payment_at x pid) = Cancelled →
  interp (Reenter m' (CancelPayment pid) kfee kpay next) x = interp next x.
Proof.
  intros Hx. cbn [interp]. unfold dispatch.
  destruct (nonpayable m'); [simpl | done | done].
  destruct (cancelPayment_not_pending m' pid x) as [e ->]; [by rewrite Hx | done].
Qed.

(** C2: every transition that issues a transfer writes the new status
    first.  A refund whose checks pass hands the payer's account the state in
    which the payment is already Refunded and the transfer is on record, and
    succeeds or fails with that account; a cancellation does the same with
    status Cancelled; a completion writes Completed and then calls the fee
    recipient, when a fee is due, and the recipient.  So the receiver of a
    refund is consulted only in states where the payment is Refunded, that of
    a cancellation only where it is Cancelled, the fee recipient of a
    completion only where it is Completed and its recipient only where it is
    Completed or Refunded (by a call-back of the fee recipient).  In such a
    state the same transition is refused: refundPayment on a Refunded payment
    and cancelPayment on a Cancelled one revert, and [_completePayment]
    reverts on any payment that is not Pending; a receiver that asks for the
    same refund (cancellation) when it is called goes on as if it had not
    asked.  So, from a reachable state, whatever calls to refund (cancel) the
    same payment a receiver makes while it is being paid, at any depth, they
    change nothing: the refund (cancellation) runs as it does with the
    receiver that leaves them out; a successful refund leaves the payment
    Refunded with exactly one refund transfer on record, and a successful
    createPayment leaves exactly one transfer to the recipient and at most
    one fee transfer for the payment it created. *)
Theorem status_written_before_transfer (m : Msg) (pid : N) (s : State) :
  (∀ h h', agree_on (fun x => status (payment_at x pid) = Refunded) h h' →
           refundPayment h m pid s = refundPayment h' m pid s) ∧
  (∀ h h', agree_on (fun x => status (payment_at x pid) = Cancelled) h h' →
           cancelPayment h m pid s = cancelPayment h' m pid s) ∧
  (∀ hfee hfee' hpay,
     agree_on (fun x => status (payment_at x pid) = Completed) hfee hfee' →
     _completePayment hfee hpay pid s = _completePayment hfee' hpay pid s) ∧
  (∀ kfee hpay hpay',
     pid ≤ paymentCounter s →
     agree_on (fun x => status (payment_at x pid) = Completed ∨
                        status (payment_at x pid) = Refunded) hpay hpay' →
     _completePayment (interp kfee) hpay pid s =
     _completePayment (interp kfee) hpay' pid s) ∧
  (∀ x h m', status (payment_at x pid) = Refunded →
             ∃ e, refundPayment h m' pid x = Revert e) ∧
  (∀ x h m', status (payment_at x pid) = Cancelled →
             ∃ e, cancelPayment h m' pid x = Revert e) ∧
  (∀ x hfee hpay, status (payment_at x pid) ≠ Pending →
     _completePayment hfee hpay pid x = Revert "CoinPay: Payment not pending") ∧
  (∀ k, reachable s →
     refundPayment (interp k) m pid s =
     refundPayment (interp (without pid Refunded k)) m pid s) ∧
  (∀ k, reachable s →
     cancelPayment (interp k) m pid s =
     cancelPayment (interp (without pid Cancelled k)) m pid s) ∧
  (exists_ (payment_at s pid) = true →
   sender m = payer (payment_at s pid) ∨ sender m = owner s →
   status (payment_at s pid) = Pending ∨ status (payment_at s pid) = Completed →
   let p := payment_at s pid in
   let x := payback_state (RefundOf pid) Refunded pid s in
   status (payment_at x pid) = Refunded ∧
   transfers x = mkTransfer (RefundOf pid) (payer p) (amount p) :: transfers s ∧
   (∀ h, refundPayment h m pid s =
         if (amount p <=? getBalance s) && negb (payer p =? self s)
         then match h x with
              | Some s' =>
                  Ok (emit (PaymentRefunded pid (payer (payment_at s' pid))
                                            (amount p)) s')
              | None => Revert "CoinPay: Refund transfer failed"
              end
         else Revert "CoinPay: Refund transfer failed") ∧
   (∀ m' kfee kpay next,
      interp (Reenter m' (RefundPayment pid) kfee kpay next) x = interp next x)) ∧
  (exists_ (payment_at s pid) = true →
   sender m = payer (payment_at s pid) ∨ sender m = owner s →
   status (payment_at s pid) = Pending →
   let p := payment_at s pid in
   let x := payback_state (CancelOf pid) Cancelled pid s in
   status (payment_at x pid) = Cancelled ∧
   transfers x = mkTransfer (CancelOf pid) (payer p) (amount p) :: transfers s ∧
   (∀ h, cancelPayment h m pid s =
         if (amount p <=? getBalance s) && negb (payer p =? self s)
         then match h x with
              | Some s' =>
                  Ok (emit (PaymentCancelled pid (payer (payment_at s' pid))
                                             (amount p)) s')
              | None => Revert "CoinPay: Cancel transfer failed"
              end
         else Revert "CoinPay: Cancel transfer failed") ∧
   (∀ m' kfee kpay next,
      interp (Reenter m' (CancelPayment pid) kfee kpay next) x = interp next x)) ∧
  (status (payment_at s pid) = Pending →
   ∀ fee rest,
     split (amount (payment_at s pid)) (platformFeeBps s) = Ok (fee, rest) →
     let s1 := set_status pid Completed s in
     status (payment_at s1 pid) = Completed ∧
     ∀ hfee hpay,
       _completePayment hfee hpay pid s =
       s2 ← (if fee_due fee s
             then if (fee <=? getBalance s) && negb (feeRecipient s =? self s)
                  then match hfee (sent (FeeOf pid) (feeRecipient s) fee s1) with
                       | Some s2 => Ok s2
                       | None => Revert "CoinPay: Fee transfer failed"
                       end
                  else Revert "CoinPay: Fee transfer failed"
             else Ok s1);
       let to := recipient (payment_at s2 pid) in
       if (rest <=? getBalance s2) && negb (to =? self s2)
       then match hpay (sent (PayoutOf pid) to rest s2) with
            | Some s3 =>
                Ok (emit (PaymentCompleted pid (recipient (payment_at s3 pid))
                                           rest) s3)
            | None => Revert "CoinPay: Payment transfer failed"
            end
       else Revert "CoinPay: Payment transfer failed") ∧
  (∀ kfee kpay s',
     reachable s →
     execute (mkTx m (RefundPayment pid) kfee kpay) s = Ok s' →
     status (payment_at s' pid) = Refunded ∧
     issued (RefundOf pid) s' =
       [mkTransfer (RefundOf pid) (payer (payment_at s pid))
                   (amount (payment_at s pid))]) ∧
  (∀ kfee kpay r d s',
     reachable s →
     execute (mkTx m (CreatePayment r d) kfee kpay) s = Ok s' →
     length (issued (PayoutOf (paymentCounter s + 1)) s') = 1%nat ∧
     (length (issued (FeeOf (paymentCounter s + 1)) s') ≤ 1)%nat).
Proof.
  split; [| split; [| split; [| split; [| split; [| split; [| split;
    [| split; [| split; [| split; [| split; [| split; [| split]]]]]]]]]]]].
  - intros h h' Hh. apply refundPayment_ext, Hh.
    by rewrite payment_at_payback, decide_True.
  - intros h h' Hh. apply cancelPayment_ext, Hh.
    by rewrite payment_at_payback, decide_True.
  - intros hfee hfee' hpay Hh. apply _completePayment_ext; [| done].
    intros to v. apply Hh.
    by rewrite payment_at_sent, payment_at_set_status, decide_True.
  - intros kfee hpay hpay' Hle Hh. apply _completePayment_ext; [done |].
    intros to v s2 Hs2. apply Hh. rewrite payment_at_sent.
    destruct Hs2 as [-> | (to' & v' & Hs2)].
    + left. by rewrite payment_at_set_status, decide_True.
    + destruct (respects_frame _ _ _ (interp_guarantee kfee) Hs2)
        as (_ & _ & _ & Hf).
      destruct (Hf pid Hle) as ((_ & Hdone & _) & _). apply Hdone.
      by rewrite payment_at_sent, payment_at_set_status, decide_True.
  - intros x h m' Hx.
    destruct (refundPayment_terminal m' pid x) as [e He]; [by left |].
    by exists e.
  - intros x h m' Hx.
    destruct (cancelPayment_not_pending m' pid x) as [e He]; [by rewrite Hx |].
    by exists e.
  - intros x hfee hpay Hx. unfold _completePayment.
    by rewrite bool_decide_eq_false_2.
  - intros k Hs. by apply refundPayment_without.
  - intros k Hs. by apply cancelPayment_without.
  - intros Hex Hwho Hst.
    assert (Hx : status (payment_at (payback_state (RefundOf pid) Refunded pid s)
                           pid) = Refunded)
      by by rewrite payment_at_payback, decide_True.
    split; [exact Hx |]. split; [done |].
    split; [intros h; by apply refundPayment_calls |].
    intros m' kfee kpay next. by apply interp_repeated_refund.
  - intros Hex Hwho Hst.
    assert (Hx : status (payment_at (payback_state (CancelOf pid) Cancelled pid s)
                           pid) = Cancelled)
      by by rewrite payment_at_payback, decide_True.
    split; [exact Hx |]. split; [done |].
    split; [intros h; by apply cancelPayment_calls |].
    intros m' kfee kpay next. by apply interp_repeated_cancel.
  - intros Hst fee rest Hsplit.
    split; [by rewrite payment_at_set_status, decide_True |].
    intros hfee hpay. by apply _completePayment_calls.
  - intros kfee kpay s' Hs He. unfold execute in He. simpl in He.
    inv_bind He.
    by destruct (refundPayment_result _ _ _ _ _ (interp_guarantee kpay)
                   (reachable_Inv s Hs) He) as (_ & _ & _ & ? & ?).
  - intros kfee kpay r d s' Hs He.
    destruct (execute_guarantee _ _ _ He) as [_ HI].
    destruct (HI (reachable_Inv s Hs)) as [HI' Hsettles].
    split; [| apply (inv_fee_once s' HI')].
    unfold execute in He. simpl in He. inv_bind He.
    destruct a0 as [pid' s1]. injection He as <-.
    unfold pay_in in Hstep. destruct (_ <? _); [done |]. injection Hstep as <-.
    destruct (createPayment_stored _ _ _ _ _ _ _ _ Hstep0) as (-> & Hc & _).
    simpl in Hc. destruct (Hsettles (paymentCounter s + 1)) as [Hone _]; [lia |].
    exact Hone.
Qed.

Lemma status_written_before_transfer_witness :
  refundPayment (interp greedy_payer) (mkMsg 10 0 9) 2 two_payments =
  refundPayment (interp Accept) (mkMsg 10 0 9) 2 two_payments ∧
  status (payment_at (payback_state (RefundOf 2) Refunded 2 two_payments) 2)
    = Refunded ∧
  refundPayment (interp greedy_payer) (mkMsg 10 0 9) 2 two_payments =
    Ok (emit (PaymentRefunded 2 10 10)
             (payback_state (RefundOf 2) Refunded 2 two_payments)) ∧
  refundPayment (interp Reject) (mkMsg 10 0 9) 2 two_payments =
    Revert "CoinPay: Refund transfer failed".
Proof.
  destruct (status_written_before_transfer (mkMsg 10 0 9) 2 two_payments)
    as (_ & _ & _ & _ & _ & _ & _ & H & _ & Hcall & _).
  destruct Hcall as (Hx & _ & Hcall & _);
    [by vm_compute | left; by vm_compute | right; by vm_compute |].
  split; [exact (H greedy_payer two_payments_reachable) |].
  split; [exact Hx |].
  split; [rewrite (Hcall (interp greedy_payer)); by vm_compute |].
  rewrite (Hcall (interp Reject)). by vm_compute.
Defined.

(** ** Transfers over a payment's lifetime *)

(** C1, as stated, fails: on a contract deployed with the null fee
    recipient, account 10 pays 10000 and then 10 to account 11 and asks for
    the refund of the second payment.  The first payment has sent out 9975
    of its 10000 (the fee of 25 stays in the contract); the second has sent
    out 20 for an amount of 10, once to the recipient on completion and once
    more to the payer on refund. *)
Lemma refund_after_completion_pays_twice :
  let s := transact refund_second two_payments in
  reachable s ∧
  amount (payment_at s 1) = 10000 ∧ attributed 1 s = 9975 ∧
  amount (payment_at s 2) = 10 ∧ attributed 2 s = 20 ∧
  transfers s = [mkTransfer (RefundOf 2) 10 10;
                 mkTransfer (PayoutOf 2) 11 10;
                 mkTransfer (PayoutOf 1) 11 9975].
Proof.
  split; [apply reachable_step, two_payments_reachable |].
  by vm_compute.
Qed.

(** C1, amended: in every reachable state and for every payment created so
    far, the recipient was paid exactly once and the fee was sent at most
    once, together the amount when the fee was sent and never more than the
    amount; the full amount was sent back to the payer once if the payment
    is Refunded and not at all otherwise; nothing was ever sent for a
    cancellation.  No transfer is issued twice for one payment, and what
    left the contract on its behalf is at most twice its amount. *)
Theorem transfers_once_per_transition (s : State) (pid : N) :
  reachable s →
  0 < pid ≤ paymentCounter s →
  let p := payment_at s pid in
  exists_ p = true ∧
  length (issued (PayoutOf pid) s) = 1%nat ∧
  (length (issued (FeeOf pid) s) ≤ 1)%nat ∧
  (paid (FeeOf pid) s = 0 ∨
   paid (FeeOf pid) s + paid (PayoutOf pid) s = amount p) ∧
  paid (FeeOf pid) s + paid (PayoutOf pid) s ≤ amount p ∧
  issued (RefundOf pid) s =
    (if bool_decide (status p = Refunded)
     then [mkTransfer (RefundOf pid) (payer p) (amount p)] else []) ∧
  issued (CancelOf pid) s = [] ∧
  attributed pid s =
    paid (FeeOf pid) s + paid (PayoutOf pid) s
    + (if bool_decide (status p = Refunded) then amount p else 0) ∧
  attributed pid s ≤ 2 * amount p.
Proof.
  intros Hs Hpid p.
  pose proof (reachable_Inv s Hs) as HI.
  destruct (reachable_settled s pid Hs Hpid) as [Hone Hsum].
  pose proof (inv_completion s HI pid) as Hle. fold p in Hle, Hsum.
  pose proof (inv_refund s HI pid) as Href. fold p in Href.
  pose proof (inv_cancel s HI pid) as Hcan.
  assert (Hattr : attributed pid s =
            paid (FeeOf pid) s + paid (PayoutOf pid) s
            + (if bool_decide (status p = Refunded) then amount p else 0)).
  { unfold attributed. unfold paid at 3 4. rewrite Href, Hcan.
    destruct (bool_decide _); simpl; lia. }
  split; [by apply (inv_dense s HI) |].
  split; [done |]. split; [apply (inv_fee_once s HI) |].
  split; [done |]. split; [done |]. split; [done |]. split; [done |].
  split; [done |]. rewrite Hattr. destruct (bool_decide _); lia.
Qed.

Lemma transfers_once_per_transition_witness :
  let s := transact refund_second two_payments in
  issued (PayoutOf 2) s = [mkTransfer (PayoutOf 2) 11 10] ∧
  issued (RefundOf 2) s = [mkTransfer (RefundOf 2) 10 10] ∧
  attributed 2 s ≤ 2 * amount (payment_at s 2).
Proof.
  destruct (transfers_once_per_transition (transact refund_second two_payments) 2)
    as (_ & _ & _ & _ & _ & Href & _ & _ & Hle);
    [apply reachable_step, two_payments_reachable | by vm_compute |].
  split; [by vm_compute |]. split; [rewrite Href; by vm_compute | exact Hle].
Defined.

(** ** The contract's history *)

Lemma step_guarantee s s' : step s s' → guarantee s s'.
Proof.
  destruct 1 as [t s | bal s Hbal]; [apply transact_guarantee |].
  split.
  - apply frame_upto_slots; try done. intros; apply kept_refl.
  - intros HI. split; [by apply (Inv_ext s) | by apply settles_none].
Qed.

Lemma later_guarantee s s' : rtc step s s' → guarantee s s'.
Proof.
  induction 1 as [| s1 s2 s3 H12 _ IH]; [apply guarantee_refl |].
  eapply guarantee_trans; [by apply step_guarantee | done].
Qed.

Lemma later_reachable s s' : reachable s → rtc step s s' → reachable s'.
Proof.
  intros Hs H. induction H as [| s1 s2 s3 H12 _ IH]; [done |].
  apply IH. destruct H12; [by apply reachable_step | by apply reachable_elsewhere].
Qed.

Lemma run_later txs s : rtc step s (run txs s).
Proof.
  revert s. induction txs as [| t txs IH]; intros s; [done |].
  eapply rtc_l; [apply (step_transact t) | apply IH].
Qed.

(** X1: a payment, once created, is never deleted and its terms never change;
    its status changes only from Completed to Refunded. *)
Theorem payments_are_permanent (s s' : State) (pid : N) :
  reachable s → rtc step s s' →
  0 < pid ≤ paymentCounter s →
  let p := payment_at s pid in
  let p' := payment_at s' pid in
  getPayment pid s = Ok p ∧ getPayment pid s' = Ok p' ∧
  paymentId p' = paymentId p ∧ payer p' = payer p ∧ recipient p' = recipient p ∧
  amount p' = amount p ∧ timestamp p' = timestamp p ∧
  description p' = description p ∧
  (status p' = status p ∨ status p = Completed ∧ status p' = Refunded).
Proof.
  intros Hs Hlater Hpid p p'.
  pose proof (reachable_Inv s Hs) as HI.
  pose proof (inv_dense s HI pid Hpid) as Hex. fold p in Hex.
  destruct (later_guarantee s s' Hlater) as [(_ & _ & _ & Hf) _].
  destruct (Hf pid) as ((Hterms & Hdone & Href & _) & _); [lia |].
  fold p p' in Hterms, Hdone, Href.
  destruct Hterms as (Hid & Hpayer & Hrcp & Hamt & Hts & Hdesc & Hex').
  split; [unfold getPayment; fold p; by rewrite Hex |].
  split; [unfold getPayment; fold p'; by rewrite Hex', Hex |].
  repeat (split; [done |]).
  destruct (Inv_slot s pid HI Hex) as [_ [Hst | Hst]]; fold p in Hst.
  - destruct (Hdone Hst) as [-> | ->]; [left | right]; done.
  - left. rewrite Hst. by apply Href.
Qed.

Lemma payments_are_permanent_witness :
  amount (payment_at (transact refund_second two_payments) 2) =
    amount (payment_at two_payments 2) ∧
  (status (payment_at (transact refund_second two_payments) 2) =
     status (payment_at two_payments 2) ∨
   status (payment_at two_payments 2) = Completed ∧
   status (payment_at (transact refund_second two_payments) 2) = Refunded).
Proof.
  destruct (payments_are_permanent two_payments (transact refund_second two_payments) 2)
    as (_ & _ & _ & _ & _ & Hamt & _ & _ & Hst);
    [apply two_payments_reachable | apply rtc_once, step_transact | by vm_compute |].
  exact (conj Hamt Hst).
Defined.

(** X2: the payment counter never decreases and the owner index of an account
    is only ever appended to, whatever happens to the payments it lists. *)
Theorem owner_index_append_only (s s' : State) (user : N) :
  rtc step s s' →
  getPaymentCount s ≤ getPaymentCount s' ∧
  getUserPayments user s `prefix_of` getUserPayments user s' ∧
  ∀ i pid, getUserPayments user s !! i = Some pid →
           getUserPayments user s' !! i = Some pid.
Proof.
  intros Hlater.
  destruct (later_guarantee s s' Hlater) as [(_ & Hc & Hu & _) _].
  split; [done |]. split; [apply Hu |].
  intros i pid Hi. by eapply prefix_lookup_Some.
Qed.

Lemma owner_index_append_only_witness :
  getUserPayments 10 two_payments
    `prefix_of` getUserPayments 10 (transact refund_second two_payments).
Proof.
  apply (owner_index_append_only two_payments
           (transact refund_second two_payments) 10).
  apply rtc_once, step_transact.
Defined.

(** ** Administration *)

Lemma later_owner s s' : rtc step s s' → owner s' = owner s ∧ self s' = self s.
Proof.
  intros H. destruct (later_guarantee s s' H) as [([? ?] & _) _]. done.
Qed.

Lemma dispatch_onlyOwner hfee hpay m c s s' :
  onlyOwner c = true → dispatch hfee hpay m c s = Ok s' → sender m = owner s.
Proof.
  destruct c; try done; simpl; intros _ H; inv_bind H.
  - by apply updatePlatformFee_ok in H as (? & _).
  - by apply updateFeeRecipient_ok in H as (? & _).
  - by apply emergencyWithdraw_ok in H as (? & _).
Qed.

(** X3: the functions marked [onlyOwner] refuse every caller but the owner with
    "Not owner" and leave the state as it was; the owner is the account that
    deployed the contract, for good: no function changes it. *)
Theorem only_owner_administers (m : Msg) (c : Call) (s : State) :
  onlyOwner c = true →
  (sender m ≠ owner s →
   (∀ bps, updatePlatformFee m bps s = Revert "CoinPay: Not owner") ∧
   (∀ a, updateFeeRecipient m a s = Revert "CoinPay: Not owner") ∧
   (∀ h, emergencyWithdraw h m s = Revert "CoinPay: Not owner") ∧
   (∀ kfee kpay, transact (mkTx m c kfee kpay) s = s)) ∧
  (∀ hfee hpay s', dispatch hfee hpay m c s = Ok s' → sender m = owner s) ∧
  (∀ s', rtc step s s' → owner s' = owner s) ∧
  (∀ this deployer _feeRecipient bal kfee kpay s',
     rtc step (constructor this deployer _feeRecipient bal) s →
     execute (mkTx m c kfee kpay) s = Ok s' → sender m = deployer).
Proof.
  intros Hc. split; [| split; [| split]].
  - intros Hno.
    assert (Hb : bool_decide (sender m = owner s) = false)
      by by apply bool_decide_eq_false.
    split; [intros bps; unfold updatePlatformFee; by rewrite Hb |].
    split; [intros a; unfold updateFeeRecipient; by rewrite Hb |].
    split; [intros h; unfold emergencyWithdraw; by rewrite Hb |].
    intros kfee kpay. apply transact_failed. intros s' H.
    by apply dispatch_onlyOwner in H.
  - intros hfee hpay s'. by apply dispatch_onlyOwner.
  - intros s' H. by apply later_owner in H as [? _].
  - intros this deployer fr bal kfee kpay s' Hlater H.
    apply dispatch_onlyOwner in H; [| done].
    apply later_owner in Hlater as [Ho _]. simpl in H. rewrite H. exact Ho.
Qed.

Lemma only_owner_administers_witness :
  updatePlatformFee (mkMsg 10 0 9) 0 two_payments = Revert "CoinPay: Not owner" ∧
  owner (transact refund_second two_payments) = owner two_payments.
Proof.
  destruct (only_owner_administers (mkMsg 10 0 9) (UpdatePlatformFee 0) two_payments)
    as (Hno & _ & Hown & _); [done |].
  destruct Hno as (Hfee & _); [by vm_compute |].
  split; [apply Hfee | apply Hown, rtc_once, step_transact].
Defined.

Lemma balance_of_move a b v s x :
  balance_of (move a b v s) x =
  if decide (x = b)
  then (if decide (b = a) then balance_of s a - v else balance_of s b) + v
  else if decide (x = a) then balance_of s a - v else balance_of s x.
Proof.
  unfold balance_of, move; simpl.
  rewrite !lookup_insert. repeat case_decide; subst; try done.
Qed.

Lemma balance_of_sent why to v s x :
  balance_of (sent why to v s) x =
  if decide (x = to)
  then (if decide (to = self s) then balance_of s (self s) - v
        else balance_of s to) + v
  else if decide (x = self s) then balance_of s (self s) - v else balance_of s x.
Proof. apply balance_of_move. Qed.

(** X4: emergencyWithdraw, called by the owner, fails with "No balance to
    withdraw" when the contract holds nothing and with "Withdrawal failed"
    when the owner's account does not accept the transfer; otherwise it
    sends the contract's whole balance to the owner and touches neither the
    ledger nor the events. *)
Theorem emergencyWithdraw_spec (m : Msg) (s : State) :
  sender m = owner s →
  let called := sent Withdrawal (owner s) (getBalance s) s in
  (getBalance s = 0 →
   ∀ h, emergencyWithdraw h m s = Revert "CoinPay: No balance to withdraw") ∧
  (0 < getBalance s →
   (∀ h, h called = None ∨ owner s = self s →
         emergencyWithdraw h m s = Revert "CoinPay: Withdrawal failed") ∧
   (∀ h s', owner s ≠ self s → h called = Some s' →
            emergencyWithdraw h m s = Ok s') ∧
   (owner s ≠ self s →
    emergencyWithdraw (interp Accept) m s = Ok called ∧
    getBalance called = 0 ∧
    balance_of called (owner s) = balance_of s (owner s) + getBalance s ∧
    transfers called =
      mkTransfer Withdrawal (owner s) (getBalance s) :: transfers s ∧
    payments called = payments s ∧ userPayments called = userPayments s ∧
    getPaymentCount called = getPaymentCount s ∧ events called = events s)).
Proof.
  intros Hown called. unfold getBalance in *.
  assert (Hb : bool_decide (sender m = owner s) = true)
    by by apply bool_decide_eq_true.
  split.
  - intros H0 h. unfold emergencyWithdraw. rewrite Hb, H0. done.
  - intros Hpos.
    assert (Hp : (0 <? balance_of s (self s)) = true) by by apply N.ltb_lt.
    assert (Hok : ∀ h s', owner s ≠ self s → h called = Some s' →
                          emergencyWithdraw h m s = Ok s').
    { intros h s' Hne Hh. unfold emergencyWithdraw. rewrite Hb, Hp. simpl.
      by rewrite (call_value_ok _ _ _ _ _ s'). }
    split; [| split; [exact Hok |]].
    + intros h Hfail. unfold emergencyWithdraw. rewrite Hb, Hp. simpl.
      destruct Hfail as [Hnone | Hself].
      * by rewrite call_value_rejected.
      * unfold call_value. rewrite N.ltb_irrefl.
        destruct (N.eqb_spec (owner s) (self s)); done.
    + intros Hne. split; [by apply Hok |].
      split; [| split; [| done]].
      * unfold called. rewrite balance_of_sent.
        change (self (sent Withdrawal (owner s) (balance_of s (self s)) s))
          with (self s).
        rewrite decide_False by done. rewrite decide_True by done. lia.
      * unfold called. rewrite balance_of_sent.
        rewrite decide_True by done. by rewrite decide_False.
Qed.

Lemma emergencyWithdraw_spec_witness :
  emergencyWithdraw (interp Accept) (mkMsg 1 0 9) two_payments =
    Ok (sent Withdrawal 1 25 two_payments) ∧
  emergencyWithdraw (interp Accept) (mkMsg 1 0 9) deployed =
    Revert "CoinPay: No balance to withdraw".
Proof.
  destruct (emergencyWithdraw_spec (mkMsg 1 0 9) two_payments)
    as (_ & Hsome); [done |].
  destruct (emergencyWithdraw_spec (mkMsg 1 0 9) deployed) as (Hnone & _); [done |].
  destruct Hsome as (_ & _ & Hplain); [by vm_compute |].
  destruct Hplain as (Hok & _); [by vm_compute |].
  split; [exact Hok | apply Hnone; by vm_compute].
Defined.

(** ** Where the value goes *)

(** A successful createPayment between accounts that accept what they are
    sent, step by step. *)
Lemma execute_create_plain m r d s s' :
  execute (mkTx m (CreatePayment r d) Accept Accept) s = Ok s' →
  let pid := paymentCounter s + 1 in
  let s1 := completing_state m r d s in
  let fee := value m * platformFeeBps s / 10000 in
  let rest := value m - fee in
  let s2 := if fee_due fee s then sent (FeeOf pid) (feeRecipient s) fee s1 else s1 in
  r ≠ 0 ∧ r ≠ sender m ∧ r ≠ self s ∧ 0 < value m ∧
  value m ≤ balance_of s (sender m) ∧ fee ≤ value m ∧
  (fee_due fee s = true → feeRecipient s ≠ self s ∧ fee ≤ balance_of s1 (self s)) ∧
  rest ≤ balance_of s2 (self s) ∧
  s' = emit (PaymentCompleted pid r rest) (sent (PayoutOf pid) r rest s2).
Proof.
  unfold execute; simpl. intros H. inv_bind H. destruct a0 as [pid' s3].
  simpl in H. injection H as <-.
  unfold pay_in in Hstep.
  destruct (N.ltb_spec (balance_of s (sender m)) (value m)); [done |].
  injection Hstep as <-.
  apply createPayment_ok in Hstep0 as (Hr & Hrs & Hv & _ & -> & Hc).
  apply _completePayment_ok in Hc
    as (_ & fee & rest & s2 & s4 & Hsplit & Hfeeleg & Hbal & Hto & Hh & ->).
  rewrite payment_at_created, decide_True in Hsplit by done. simpl in Hsplit.
  apply split_ok in Hsplit as (_ & -> & Hle & ->).
  injection Hh as <-.
  change (fee_due ?f (created_state _ _ _ _)) with (fee_due f s) in Hfeeleg.
  assert (Hrcp : ∀ x, payment_at x = payment_at (completing_state m r d s) →
                      recipient (payment_at x (paymentCounter s + 1)) = r).
  { intros x ->. unfold completing_state.
    rewrite payment_at_set_status, decide_True by done.
    by rewrite payment_at_created, decide_True. }
  change (paymentCounter (move (sender m) (self s) (value m) s))
    with (paymentCounter s) in *.
  assert (Hto' : ∀ x, payment_at x = payment_at (completing_state m r d s) →
                      recipient (payment_at x (paymentCounter s + 1)) ≠ self s →
                      r ≠ self s).
  { intros x Hx. by rewrite (Hrcp x Hx). }
  destruct (fee_due _ s) eqn:Hdue.
  - destruct Hfeeleg as (Hfb & Hfs & [= <-]).
    apply Hto' in Hto; [| done].
    repeat match goal with
    | |- context [recipient (payment_at ?x (paymentCounter s + 1))] =>
        rewrite (Hrcp x eq_refl)
    end.
    repeat split; done.
  - subst s2. apply Hto' in Hto; [| done].
    repeat match goal with
    | |- context [recipient (payment_at ?x (paymentCounter s + 1))] =>
        rewrite (Hrcp x eq_refl)
    end.
    repeat split; done.
Qed.

Lemma self_sent why to v s : self (sent why to v s) = self s.
Proof. reflexivity. Qed.

Lemma self_emit e s : self (emit e s) = self s.
Proof. reflexivity. Qed.

Lemma self_completing m r d s : self (completing_state m r d s) = self s.
Proof. reflexivity. Qed.

Lemma balance_of_emit e s x : balance_of (emit e s) x = balance_of s x.
Proof. reflexivity. Qed.

Lemma balance_of_sent_self why to v s this :
  self s = this → to ≠ this →
  balance_of (sent why to v s) this = balance_of s this - v.
Proof.
  intros <- Hto. rewrite balance_of_sent.
  rewrite decide_False by done. by rewrite decide_True.
Qed.

Lemma balance_of_sent_other why to v s this x :
  self s = this → to ≠ this → x ≠ this →
  balance_of (sent why to v s) x =
  balance_of s x + (if decide (x = to) then v else 0).
Proof.
  intros <- Hto Hx. rewrite balance_of_sent.
  destruct (decide (x = to)) as [-> | Hne].
  - by rewrite (decide_False (P := to = self s)).
  - rewrite (decide_False (P := x = self s)) by done. lia.
Qed.

Lemma balance_of_paid_in a b v s x :
  a ≠ b →
  balance_of (move a b v s) x =
  if decide (x = b) then balance_of s b + v
  else balance_of s x - (if decide (x = a) then v else 0).
Proof.
  intros Hab. rewrite balance_of_move.
  destruct (decide (x = b)) as [-> | Hne].
  - by rewrite (decide_False (P := b = a)).
  - destruct (decide (x = a)); [by subst | lia].
Qed.

Lemma balance_of_completing m r d s x :
  balance_of (completing_state m r d s) x =
  balance_of (move (sender m) (self s) (value m) s) x.
Proof. reflexivity. Qed.

(** The balances after a successful createPayment between accounts that
    accept what they are sent. *)
Lemma create_plain_balances m r d s s' :
  execute (mkTx m (CreatePayment r d) Accept Accept) s = Ok s' →
  sender m ≠ self s →
  let fee := value m * platformFeeBps s / 10000 in
  let fee_sent := if fee_due fee s then fee else 0 in
  getBalance s' + fee_sent = getBalance s + fee ∧
  ∀ x, x ≠ self s →
    balance_of s' x + (if decide (x = sender m) then value m else 0) =
    balance_of s x + (if decide (x = r) then value m - fee else 0)
    + (if decide (x = feeRecipient s) then fee_sent else 0).
Proof.
  intros H Hsender fee fee_sent.
  apply execute_create_plain in H
    as (Hr & Hrs & Hrself & Hv & Hbal & Hfee & Hdue & Hrest & ->).
  fold fee in Hfee, Hdue, Hrest |- *.
  unfold getBalance. rewrite self_emit, self_sent.
  assert (Hself : self (if fee_due fee s
                        then sent (FeeOf (paymentCounter s + 1)) (feeRecipient s) fee
                                  (completing_state m r d s)
                        else completing_state m r d s) = self s)
    by by destruct (fee_due fee s).
  rewrite Hself. clear Hself.
  unfold fee_sent.
  assert (Hin : ∀ x, balance_of (completing_state m r d s) x =
                     if decide (x = self s) then balance_of s (self s) + value m
                     else balance_of s x
                          - (if decide (x = sender m) then value m else 0)).
  { intros x. rewrite balance_of_completing. by apply balance_of_paid_in. }
  destruct (fee_due fee s) eqn:Hd.
  - destruct Hdue as [Hfr Hfb]; [done |].
    rewrite Hin, decide_True in Hfb by done.
    split.
    + rewrite balance_of_emit.
      rewrite !(balance_of_sent_self _ _ _ _ (self s)) by done.
      rewrite Hin, decide_True by done. lia.
    + intros x Hx. rewrite balance_of_emit.
      rewrite !(balance_of_sent_other _ _ _ _ (self s)) by done.
      rewrite Hin, decide_False by done.
      repeat case_decide; subst; try done; lia.
  - clear Hdue.
    rewrite Hin, decide_True in Hrest by done.
    split.
    + rewrite balance_of_emit.
      rewrite !(balance_of_sent_self _ _ _ _ (self s)) by done.
      rewrite Hin, decide_True by done. lia.
    + intros x Hx. rewrite balance_of_emit.
      rewrite !(balance_of_sent_other _ _ _ _ (self s)) by done.
      rewrite Hin, decide_False by done.
      repeat case_decide; subst; try done; lia.
Qed.

(** X5: a successful createPayment between accounts that accept what they are
    sent moves the value as follows: the payer pays the amount, the
    recipient receives the amount less the fee, the fee recipient receives
    the fee when it is sent, and the contract keeps the fee when it is not;
    nothing else changes hands. *)
Theorem createPayment_moves_the_value (m : Msg) (r : N) (d : string) (s s' : State) :
  execute (mkTx m (CreatePayment r d) Accept Accept) s = Ok s' →
  sender m ≠ self s →
  let pid := paymentCounter s + 1 in
  let fee := value m * platformFeeBps s / 10000 in
  let rest := value m - fee in
  let fee_sent := if fee_due fee s then fee else 0 in
  fee + rest = value m ∧
  getBalance s' + fee_sent = getBalance s + fee ∧
  (∀ x, x ≠ self s →
     balance_of s' x + (if decide (x = sender m) then value m else 0) =
     balance_of s x + (if decide (x = r) then rest else 0)
     + (if decide (x = feeRecipient s) then fee_sent else 0)) ∧
  transfers s' =
    mkTransfer (PayoutOf pid) r rest ::
    (if fee_due fee s then [mkTransfer (FeeOf pid) (feeRecipient s) fee] else [])
    ++ transfers s.
Proof.
  intros H Hsender pid fee rest fee_sent.
  destruct (create_plain_balances _ _ _ _ _ H Hsender) as [Hself Hother].
  apply execute_create_plain in H as (_ & _ & _ & _ & _ & Hfee & _ & _ & ->).
  fold fee in Hfee.
  split; [unfold rest; lia |]. split; [exact Hself |]. split; [exact Hother |].
  fold pid fee rest. by destruct (fee_due fee s).
Qed.

Lemma createPayment_moves_the_value_witness :
  getBalance
    (transact (mkTx (mkMsg 10 10000 7) (CreatePayment 11 "first") Accept Accept)
              deployed) + 25 = getBalance deployed + 25 ∧
  transfers
    (transact (mkTx (mkMsg 10 10000 7) (CreatePayment 11 "first") Accept Accept)
              deployed) =
    [mkTransfer (PayoutOf 1) 11 9975; mkTransfer (FeeOf 1) 9 25].
Proof.
  destruct (createPayment_moves_the_value (mkMsg 10 10000 7) 11 "first" deployed
              (transact (mkTx (mkMsg 10 10000 7) (CreatePayment 11 "first")
                              Accept Accept) deployed))
    as (_ & Hself & _ & Htr); [by vm_compute | by vm_compute |].
  split; [exact Hself | exact Htr].
Defined.

(** ** What the contract refuses *)

(** X6: the contract takes value only as a payment to someone else: a call that
    succeeds carries value only if it is a createPayment, whose recipient is
    never the contract itself, because a transfer to the contract fails
    ([receive] reverts, as [fallback] does). *)
Theorem value_enters_by_createPayment_only (t : Tx) (s s' : State) :
  execute t s = Ok s' →
  match tx_call t with
  | CreatePayment r _ => r ≠ self s
  | _ => value (tx_msg t) = 0
  end ∧
  (∀ h why v, call_value h why (self s) v s = (false, s)) ∧
  (∀ m, receive m s = Revert "CoinPay: Use createPayment function") ∧
  (∀ m, fallback m s = Revert "CoinPay: Function not found").
Proof.
  intros H. split; [| split; [| done]].
  - destruct t as [m c kfee kpay]. unfold execute in H. simpl in *.
    assert (Hnp : ∀ r, nonpayable m = Ok r → value m = 0).
    { unfold nonpayable. intros r Hr. apply require_ok in Hr.
      by apply N.eqb_eq in Hr. }
    destruct c; simpl in H; inv_bind H; try (by eapply Hnp).
    destruct a0 as [pid s3]. simpl in H. injection H as <-.
    unfold pay_in in Hstep. destruct (_ <? _); [done |]. injection Hstep as <-.
    apply createPayment_ok in Hstep0 as (_ & _ & _ & _ & -> & Hc).
    apply _completePayment_ok in Hc
      as (_ & fee & rest & s2 & s4 & _ & Hfeeleg & _ & Hto & _).
    set (s0 := move (sender m) (self s) (value m) s) in *.
    set (pid := paymentCounter s0 + 1) in *.
    set (s1 := set_status pid Completed (created_state m _recipient _description s0)) in *.
    assert (H1 : recipient (payment_at s1 pid) = _recipient ∧ self s1 = self s).
    { split; [| done]. unfold s1, pid.
      by rewrite payment_at_created_completed, decide_True. }
    assert (H2 : recipient (payment_at s2 pid) = recipient (payment_at s1 pid) ∧
                 self s2 = self s1).
    { destruct (fee_due _ _); [| by subst s2].
      destruct Hfeeleg as (_ & _ & Hh).
      destruct (respects_frame _ _ _ (interp_guarantee kfee) Hh)
        as ([Hs _] & _ & _ & Hf).
      destruct (Hf pid) as (((_ & _ & Hr & _) & _) & _);
        [unfold s1, pid, s0; simpl; lia |].
      by rewrite payment_at_sent in Hr. }
    destruct H1 as [E1 E1'], H2 as [E2 E2']. by rewrite E2, E1, E2', E1' in Hto.
  - intros h why v. unfold call_value.
    destruct (_ <? _); [done |]. by rewrite N.eqb_refl.
Qed.

Lemma value_enters_by_createPayment_only_witness :
  11 ≠ self deployed ∧ value (tx_msg refund_second) = 0.
Proof.
  destruct (value_enters_by_createPayment_only
              (mkTx (mkMsg 10 10000 7) (CreatePayment 11 "first") Accept Accept)
              deployed
              (transact (mkTx (mkMsg 10 10000 7) (CreatePayment 11 "first")
                              Accept Accept) deployed)) as (Hc & _);
    [by vm_compute |].
  destruct (value_enters_by_createPayment_only refund_second two_payments
              (transact refund_second two_payments)) as (Hr & _);
    [by vm_compute |].
  exact (conj Hc Hr).
Defined.

(** ** Arithmetic *)

Lemma split_panic a bps code :
  split a bps = Panic code ↔
  code = 17 ∧ (MAX_UINT256 < a * bps ∨ a < a * bps / 10000).
Proof.
  unfold split, checked_mul, checked_sub.
  destruct (N.leb_spec (a * bps) MAX_UINT256); simpl.
  - destruct (N.leb_spec (a * bps / 10000) a); simpl.
    + split; [done | intros [_ [? | ?]]; lia].
    + split; [intros [= <-]; auto | by intros [-> _]].
  - split; [intros [= <-]; auto | by intros [-> _]].
Qed.

Lemma _completePayment_panic hfee hpay pid s code :
  _completePayment hfee hpay pid s = Panic code →
  split (amount (payment_at s pid)) (platformFeeBps s) = Panic code.
Proof.
  unfold _completePayment.
  destruct (bool_decide _); [simpl | done].
  rewrite payment_at_set_status, decide_True by done. simpl.
  change (platformFeeBps (set_status pid Completed s)) with (platformFeeBps s).
  destruct (split _ _) as [[fee rest] | e | c]; simpl.
  2: by intros [=].
  2: by intros [= ->].
  destruct ((0 <? fee) && negb (_ =? 0)).
  - destruct (call_value hfee _ _ _ _) as [[] s2]; [simpl | done].
    by destruct (call_value hpay _ _ _ _) as [[] s3].
  - simpl. by destruct (call_value hpay _ _ _ _) as [[] s3].
Qed.

Ltac no_panic :=
  unfold nonpayable, require; intros H; exfalso; revert H;
  repeat (simpl; case_match); simpl; discriminate.

Lemma refundPayment_no_panic hpay m pid s code :
  (nonpayable m;; refundPayment hpay m pid s) = Panic code → False.
Proof. unfold refundPayment. no_panic. Qed.

Lemma cancelPayment_no_panic hpay m pid s code :
  (nonpayable m;; cancelPayment hpay m pid s) = Panic code → False.
Proof. unfold cancelPayment. no_panic. Qed.

Lemma updatePlatformFee_no_panic m bps s code :
  (nonpayable m;; updatePlatformFee m bps s) = Panic code → False.
Proof. unfold updatePlatformFee. no_panic. Qed.

Lemma updateFeeRecipient_no_panic m a s code :
  (nonpayable m;; updateFeeRecipient m a s) = Panic code → False.
Proof. unfold updateFeeRecipient. no_panic. Qed.

Lemma emergencyWithdraw_no_panic hpay m s code :
  (nonpayable m;; emergencyWithdraw hpay m s) = Panic code → False.
Proof. unfold emergencyWithdraw. no_panic. Qed.

Lemma createPayment_valid hfee hpay m r d s :
  r ≠ 0 → r ≠ sender m → 0 < value m → paymentCounter s + 1 ≤ MAX_UINT256 →
  createPayment hfee hpay m r d s =
  (s' ← _completePayment hfee hpay (paymentCounter s + 1) (created_state m r d s);
   Ok (paymentCounter s + 1, s')).
Proof.
  intros Hr Hself Hv Hc. unfold createPayment.
  destruct (N.eqb_spec r 0); [done |]. simpl.
  destruct (N.eqb_spec r (sender m)); [done |]. simpl.
  destruct (N.ltb_spec 0 (value m)); [| lia]. simpl.
  unfold checked_add.
  by destruct (N.leb_spec (paymentCounter s + 1) MAX_UINT256); [| lia].
Qed.

(** X7: no call ends in a panic except a createPayment that passes its checks
    and then overflows: the payment counter is at its maximum, or the amount
    times the fee rate does not fit in 256 bits (or the fee exceeds the
    amount, which takes a rate above 10000 and so does not happen in a
    reachable state).  The panic code is then 0x11. *)
Theorem panics_are_overflows (hfee hpay : handler) (m : Msg) (c : Call)
    (s : State) (code : N) :
  (dispatch hfee hpay m c s = Panic code ↔
   code = 17 ∧
   ∃ r d, c = CreatePayment r d ∧
     value m ≤ balance_of s (sender m) ∧ r ≠ 0 ∧ r ≠ sender m ∧ 0 < value m ∧
     (MAX_UINT256 ≤ paymentCounter s ∨
      MAX_UINT256 < value m * platformFeeBps s ∨
      value m < value m * platformFeeBps s / 10000)) ∧
  (reachable s → value m * platformFeeBps s / 10000 ≤ value m).
Proof.
  split.
  - destruct c; simpl.
    + unfold pay_in.
      destruct (N.ltb_spec (balance_of s (sender m)) (value m)); simpl.
      { split; [done | intros (_ & r & d & [= <- <-] & ? & _); lia]. }
      set (s0 := move (sender m) (self s) (value m) s).
      destruct (N.eq_dec _recipient 0) as [Hr | Hr].
      { unfold createPayment. rewrite Hr. simpl.
        split; [done | by intros (_ & r & d & [= <- <-] & _ & ? & _)]. }
      destruct (N.eq_dec _recipient (sender m)) as [Hrs | Hrs].
      { unfold createPayment.
        destruct (N.eqb_spec _recipient 0); [done |]. simpl.
        rewrite Hrs, N.eqb_refl. simpl.
        split; [done | by intros (_ & r & d & [= <- <-] & _ & _ & ? & _)]. }
      destruct (N.lt_ge_cases 0 (value m)) as [Hv | Hv].
      2: { unfold createPayment.
           destruct (N.eqb_spec _recipient 0); [done |]. simpl.
           destruct (N.eqb_spec _recipient (sender m)); [done |]. simpl.
           destruct (N.ltb_spec 0 (value m)); [lia |]. simpl.
           split; [done | intros (_ & r & d & [= <- <-] & _ & _ & _ & ? & _); lia]. }
      destruct (N.le_gt_cases (paymentCounter s + 1) MAX_UINT256) as [Hc | Hc].
      2: { unfold createPayment.
           destruct (N.eqb_spec _recipient 0); [done |]. simpl.
           destruct (N.eqb_spec _recipient (sender m)); [done |]. simpl.
           destruct (N.ltb_spec 0 (value m)); [| lia]. simpl.
           unfold checked_add. simpl.
           destruct (N.leb_spec (paymentCounter s + 1) MAX_UINT256); [lia |].
           simpl.
           split; [intros [= <-] | by intros [-> _]].
           split; [done |]. exists _recipient, _description.
           repeat split; try done. left. lia. }
      rewrite createPayment_valid by done.
      change (paymentCounter s0) with (paymentCounter s).
      destruct (_completePayment _ _ _ _) as [s2 | e | c2] eqn:Hcp; simpl.
      * split; [done |]. intros (_ & r & d & [= <- <-] & _ & _ & _ & _ & Hor).
        apply _completePayment_ok in Hcp as (_ & fee & rest & _ & _ & Hs & _).
        rewrite payment_at_created, decide_True in Hs by done. simpl in Hs.
        apply split_ok in Hs as (? & -> & ? & _). lia.
      * split; [done |]. intros (_ & r & d & [= <- <-] & _ & _ & _ & _ & Hor).
        destruct Hor as [? | Hor]; [lia |].
        assert (Hp : split (value m) (platformFeeBps s) = Panic 17)
          by by apply split_panic.
        unfold _completePayment in Hcp.
        rewrite payment_at_created, decide_True in Hcp by done. simpl in Hcp.
        rewrite payment_at_set_status, decide_True in Hcp by done.
        rewrite payment_at_created, decide_True in Hcp by done. simpl in Hcp.
        by rewrite Hp in Hcp.
      * apply _completePayment_panic in Hcp.
        rewrite payment_at_created, decide_True in Hcp by done. simpl in Hcp.
        apply split_panic in Hcp as [-> Hor].
        split; [intros [= <-] | by intros [-> _]].
        split; [done |]. exists _recipient, _description.
        repeat split; try done. by right.
    + split; [| by intros (_ & r & d & [=] & _)].
      intros H. by apply refundPayment_no_panic in H.
    + split; [| by intros (_ & r & d & [=] & _)].
      intros H. by apply cancelPayment_no_panic in H.
    + split; [| by intros (_ & r & d & [=] & _)].
      intros H. by apply updatePlatformFee_no_panic in H.
    + split; [| by intros (_ & r & d & [=] & _)].
      intros H. by apply updateFeeRecipient_no_panic in H.
    + split; [| by intros (_ & r & d & [=] & _)].
      intros H. by apply emergencyWithdraw_no_panic in H.
  - intros Hs%reachable_Inv. pose proof (inv_bps s Hs) as Hb.
    etrans; [apply (N.Div0.div_le_mono _ (value m * 10000));
             apply N.mul_le_mono_l; lia |].
    by rewrite N.div_mul.
Qed.

(** X8: the fee is rounded down, so that dividing an amount between two
    payments never raises the total fee and lowers it by one unit at most,
    and an amount below 10000 / feeBps pays no fee at all; at a rate of at
    most 1000 the fee is a tenth of the amount at most. *)
Theorem fee_is_rounded_down (a b bps fa ra fb rb fab rab : N) :
  split a bps = Ok (fa, ra) →
  split b bps = Ok (fb, rb) →
  split (a + b) bps = Ok (fab, rab) →
  fa + fb ≤ fab ≤ fa + fb + 1 ∧
  rab ≤ ra + rb ≤ rab + 1 ∧
  (fa = 0 ↔ a * bps < 10000) ∧
  (bps ≤ 1000 → 10 * fab ≤ a + b ∧ 9 * (a + b) ≤ 10 * rab).
Proof.
  intros (_ & -> & Hfa & ->)%split_ok (_ & -> & Hfb & ->)%split_ok
         (_ & -> & Hfab & ->)%split_ok.
  pose proof (N.Div0.div_mod (a * bps) 10000) as Da.
  pose proof (N.Div0.div_mod (b * bps) 10000) as Db.
  pose proof (N.Div0.div_mod ((a + b) * bps) 10000) as Dab.
  pose proof (N.mod_lt (a * bps) 10000 ltac:(done)) as Ma.
  pose proof (N.mod_lt (b * bps) 10000 ltac:(done)) as Mb.
  pose proof (N.mod_lt ((a + b) * bps) 10000 ltac:(done)) as Mab.
  rewrite N.mul_add_distr_r in *.
  assert (Hbound : bps ≤ 1000 → a * bps ≤ a * 1000 ∧ b * bps ≤ b * 1000).
  { intros Hbps. split; by apply N.mul_le_mono_l. }
  set (fa := a * bps / 10000) in *. set (fb := b * bps / 10000) in *.
  set (fab := (a * bps + b * bps) / 10000) in *.
  set (ma := (a * bps) mod 10000) in *. set (mb := (b * bps) mod 10000) in *.
  set (mab := (a * bps + b * bps) mod 10000) in *.
  set (x := a * bps) in *. set (y := b * bps) in *.
  clearbody fa fb fab ma mb mab x y.
  split; [lia |]. split; [lia |]. split; [lia |].
  intros Hbps. destruct (Hbound Hbps). lia.
Qed.

Lemma fee_is_rounded_down_witness :
  2 + 2 ≤ 5 ≤ 2 + 2 + 1 ∧ 1995 ≤ 998 + 998 ≤ 1995 + 1.
Proof.
  destruct (fee_is_rounded_down 1000 1000 25 2 998 2 998 5 1995)
    as (Hfee & Hrest & _); [by vm_compute .. |].
  exact (conj Hfee Hrest).
Defined.

(** ** The ledger and the logs *)

Lemma ids_succ n : ids (n + 1) = (ids n ++ [n + 1])%list.
Proof.
  unfold ids. replace (N.to_nat (n + 1)) with (S (N.to_nat n)) by lia.
  rewrite seq_S, fmap_app. simpl. do 2 f_equal. lia.
Qed.

Lemma elem_of_ids x n : x ∈ ids n ↔ 0 < x ≤ n.
Proof.
  unfold ids. rewrite list_elem_of_fmap. split.
  - intros (k & -> & Hk%elem_of_seq). lia.
  - intros Hx. exists (N.to_nat x). split; [lia |]. apply elem_of_seq. lia.
Qed.

Lemma filter_ext_elem {A} (P Q : A → Prop) `{!∀ x, Decision (P x)}
    `{!∀ x, Decision (Q x)} (l : list A) :
  (∀ x, x ∈ l → (P x ↔ Q x)) → filter P l = filter Q l.
Proof.
  induction l as [| a l IH]; [done |]. intros Hext.
  rewrite !filter_cons, IH by (intros x Hx; apply Hext; by right).
  destruct (decide (P a)) as [Hp | Hp], (decide (Q a)) as [Hq | Hq]; try done.
  - destruct Hq. apply Hext; [by left | done].
  - destruct Hp. apply Hext; [by left | done].
Qed.

Lemma payments_of_kept user s s' :
  paymentCounter s' = paymentCounter s →
  (∀ pid, 0 < pid ≤ paymentCounter s →
          payer (payment_at s' pid) = payer (payment_at s pid)) →
  payments_of user s' = payments_of user s.
Proof.
  intros Hc Hp. unfold payments_of. rewrite Hc.
  apply filter_ext_elem. intros pid Hpid%elem_of_ids. by rewrite Hp.
Qed.

Lemma justified_kept s s' t :
  owner s' = owner s → slots_upto (paymentCounter s) s s' →
  justified s t → justified s' t.
Proof.
  intros Ho (Hc & _ & Hk). unfold justified.
  destruct (t_why t) as [pid | pid | pid | pid |]; try done.
  - intros ([? Hle] & ? & ? & ?).
    destruct (Hk pid Hle) as ((_ & _ & _ & -> & _) & _).
    repeat split; try done; lia.
  - intros ([? Hle] & ? & ? & ?).
    destruct (Hk pid Hle) as ((_ & _ & -> & -> & _) & _).
    repeat split; try done; lia.
  - intros ([? Hle] & ? & ? & ?).
    destruct (Hk pid Hle) as ((_ & -> & _ & -> & _) & _ & Hr & _).
    repeat split; try done; [lia | by apply Hr].
  - by rewrite Ho.
Qed.

Lemma truthful_kept s s' e :
  slots_upto (paymentCounter s) s s' →
  transfers s `suffix_of` transfers s' →
  truthful s e → truthful s' e.
Proof.
  intros (Hc & _ & Hk) Ht. unfold truthful.
  destruct e as [pid p r a d | pid r a | pid p a | pid p a]; try done.
  - intros ([? Hle] & ? & ? & ? & ?).
    destruct (Hk pid Hle) as ((_ & -> & -> & -> & _ & -> & _) & _).
    repeat split; try done; lia.
  - intros ([? Hle] & Hin).
    repeat split; try done; [lia | by eapply elem_of_suffix].
  - intros ([? Hle] & Hst & Hin).
    destruct (Hk pid Hle) as (_ & _ & Hr & _).
    repeat split; try done; [lia | by apply Hr | by eapply elem_of_suffix].
Qed.

Lemma Ledger_ext s s' :
  owner s' = owner s → self s' = self s →
  paymentCounter s' = paymentCounter s → payments s' = payments s →
  userPayments s' = userPayments s → platformFeeBps s' = platformFeeBps s →
  events s' = events s → transfers s' = transfers s →
  Ledger s → Ledger s'.
Proof.
  destruct s, s'; simpl. intros -> -> -> -> -> -> -> -> [H1 H2 H3 H4 H5 H6 H7].
  by constructor.
Qed.

Lemma Ledger_constructor this deployer fr bal :
  Ledger (constructor this deployer fr bal).
Proof.
  constructor; simpl; try done.
  - intros pid Hpid. lia.
  - intros t Ht. by apply elem_of_nil in Ht.
  - intros e He. by apply elem_of_nil in He.
  - intros pid Hpid. lia.
Qed.

Lemma Ledger_bps bps s :
  bps ≤ 1000 → Ledger s → Ledger (set_platformFeeBps bps s).
Proof. intros Hb [H1 H2 H3 H4 H5 H6 H7]. by constructor. Qed.

Lemma Ledger_sent why to v s :
  Ledger s → justified s (mkTransfer why to v) → to ≠ self s →
  Ledger (sent why to v s).
Proof.
  intros [H1 H2 H3 H4 H5 H6 H7] Hj Hto. constructor; try done.
  - intros t [-> | Ht]%elem_of_cons; [done | by apply H4].
  - intros e He. apply (truthful_kept s); [| by apply suffix_cons_r | by apply H5].
    apply slots_sent.
Qed.

Lemma Ledger_emit e s : Ledger s → truthful s e → Ledger (emit e s).
Proof.
  intros [H1 H2 H3 H4 H5 H6 H7] He. constructor; try done.
  - intros e' [-> | He']%elem_of_cons; [done | by apply H5].
  - intros pid Hpid. apply elem_of_cons. right. by apply H6.
Qed.

Lemma Ledger_slot s pid :
  Ledger s → exists_ (payment_at s pid) = true →
  let p := payment_at s pid in
  payments s !! pid = Some p ∧ 0 < pid ≤ paymentCounter s ∧ 0 < amount p ∧
  (status p = Completed ∨ status p = Refunded).
Proof.
  intros HL Hex p. apply payment_at_exists in Hex. fold p in Hex.
  destruct (ledger_key s HL pid p Hex) as (? & _ & _ & ? & _ & _ & ?). done.
Qed.

Lemma slots_set_refunded n pid s :
  status (payment_at s pid) = Completed →
  slots_upto n s (set_status pid Refunded s).
Proof.
  intros Hst. apply frame_slots, frame_set_status_live; congruence.
Qed.

Lemma slots_payback n pid s :
  status (payment_at s pid) = Completed →
  slots_upto n s (payback_state (RefundOf pid) Refunded pid s).
Proof.
  intros Hst. unfold payback_state.
  eapply slots_upto_trans; [by apply slots_set_refunded | apply slots_sent].
Qed.

Lemma slots_created n m r d s :
  n ≤ paymentCounter s →
  slots_upto n s (set_status (paymentCounter s + 1) Completed (created_state m r d s)).
Proof.
  intros Hn. split; [simpl; lia |]. split.
  - intros user. unfold getUserPayments; simpl. rewrite lookup_insert.
    case_decide; [subst; by apply prefix_app_r | done].
  - intros pid Hpid. rewrite payment_at_created_completed.
    rewrite decide_False by lia. apply kept_refl.
Qed.

Lemma Ledger_set_refunded pid s :
  Ledger s → exists_ (payment_at s pid) = true →
  Ledger (set_status pid Refunded s).
Proof.
  intros HL Hex.
  destruct (Ledger_slot s pid HL Hex) as (Hp & Hpid & _ & Hst).
  assert (Hslots : slots_upto (paymentCounter s) s (set_status pid Refunded s)).
  { split; [done |]. split; [done |]. intros x _.
    rewrite payment_at_set_status. case_decide; [subst x | apply kept_refl].
    split; [by repeat split |]. split; [intros _; by right |].
    split; [done |]. intros Hc. destruct Hst; congruence. }
  destruct HL as [H1 H2 H3 H4 H5 H6 H7]. constructor; try done.
  - intros x p. simpl. rewrite lookup_insert. case_decide as Hd.
    + intros [= <-]. subst x. simpl.
      destruct (H1 pid _ Hp) as (? & ? & ? & ? & ? & ? & ?).
      repeat split; auto; lia.
    + apply H1.
  - intros x Hx. simpl. rewrite lookup_insert. case_decide; [done | by apply H2].
  - intros user. rewrite (payments_of_kept user s (set_status pid Refunded s));
      [apply H3 | done |].
    intros x _. rewrite payment_at_set_status. by case_decide; subst.
  - intros t Ht. split; [| by apply H4].
    apply (justified_kept s); [done | done | by apply H4].
  - intros e He. apply (truthful_kept s); [done | done | by apply H5].
  - intros x Hx. rewrite payment_at_set_status.
    case_decide; [subst x; simpl |]; by apply H6.
Qed.

Lemma Ledger_refunded pid s :
  Ledger s → exists_ (payment_at s pid) = true →
  payer (payment_at s pid) ≠ self s →
  Ledger (payback_state (RefundOf pid) Refunded pid s).
Proof.
  intros HL Hex Hto.
  destruct (Ledger_slot s pid HL Hex) as (_ & Hpid & _ & _).
  unfold payback_state. apply Ledger_sent; [by apply Ledger_set_refunded | | done].
  unfold justified; simpl. by rewrite payment_at_set_status, decide_True.
Qed.

Lemma Ledger_created m r d s :
  Ledger s → r ≠ 0 → r ≠ sender m → 0 < value m →
  Ledger (set_status (paymentCounter s + 1) Completed (created_state m r d s)).
Proof.
  intros HL Hr Hrs Hv.
  set (pid := paymentCounter s + 1).
  set (s1 := set_status pid Completed (created_state m r d s)).
  assert (Hat : ∀ x, payment_at s1 x =
            if decide (pid = x)
            then mkPayment x (sender m) r (value m) (now m) Completed d true
            else payment_at s x)
    by (intros x; apply payment_at_created_completed).
  assert (Hslots : slots_upto (paymentCounter s) s s1) by by apply slots_created.
  destruct HL as [H1 H2 H3 H4 H5 H6 H7]. constructor; try done.
  - intros x p. simpl. rewrite !lookup_insert. case_decide as Hd.
    + intros [= <-]. subst x. simpl.
      rewrite payment_at_created, decide_True by done. simpl.
      repeat split; auto; lia.
    + rewrite decide_False by done.
      intros Hp. apply H1 in Hp. repeat split; try apply Hp; lia.
  - intros x Hx. simpl. rewrite !lookup_insert.
    case_decide; [done |]. rewrite decide_False by done.
    apply H2. simpl in Hx. lia.
  - intros user. unfold payments_of.
    change (paymentCounter s1) with (paymentCounter s + 1).
    rewrite ids_succ, filter_app.
    rewrite (filter_ext_elem _ (fun x => payer (payment_at s x) = user)).
    2: { intros x Hx%elem_of_ids. rewrite Hat, decide_False; [done |].
         unfold pid. lia. }
    fold (payments_of user s). rewrite <- H3.
    assert (Hpayer : payer (payment_at s1 (paymentCounter s + 1)) = sender m)
      by by rewrite Hat, decide_True.
    rewrite filter_cons, filter_nil, Hpayer.
    unfold getUserPayments at 1. simpl. rewrite lookup_insert.
    case_decide as Hd.
    + by subst user.
    + by rewrite app_nil_r.
  - intros t Ht. split; [| by apply H4].
    apply (justified_kept s); [done | done | by apply H4].
  - intros e [-> | He]%elem_of_cons.
    + simpl. rewrite Hat, decide_True by done. simpl. repeat split; lia.
    + apply (truthful_kept s); [done | done | by apply H5].
  - intros x Hx. simpl in Hx. rewrite Hat. apply elem_of_cons.
    case_decide as Hd; [subst x; by left | right].
    apply H6. unfold pid in Hd. lia.
Qed.

Lemma announces_same s s' :
  paymentCounter s' ≤ paymentCounter s →
  (∀ pid, 0 < pid ≤ paymentCounter s' →
          status (payment_at s' pid) = Refunded →
          status (payment_at s pid) = Refunded) →
  announces s s'.
Proof.
  intros Hc Hst pid Hpid. split; [lia |].
  intros Hr Hn. destruct Hn; [lia | by apply Hst].
Qed.

Lemma announces_trans s1 s2 s3 :
  slots_upto (paymentCounter s2) s2 s3 → events s2 `suffix_of` events s3 →
  announces s1 s2 → announces s2 s3 → announces s1 s3.
Proof.
  intros (Hc & _ & Hk) He A12 A23 pid Hpid.
  destruct (A23 pid Hpid) as [C23 R23].
  destruct (decide (pid ≤ paymentCounter s2)) as [Hle | Hgt].
  - destruct (A12 pid) as [C12 R12]; [lia |].
    destruct (Hk pid Hle) as ((_ & Hpayer & Hrcp & Hamt & _) & _ & Hr & _).
    split.
    + intros Hnew. destruct (C12 Hnew) as [a Ha]. exists a.
      rewrite Hrcp. by eapply elem_of_suffix.
    + intros Hst Hn.
      destruct (decide (status (payment_at s2 pid) = Refunded)) as [H2 | H2].
      * rewrite Hpayer, Hamt. eapply elem_of_suffix; [by apply R12 | done].
      * apply R23; [done | by intros _].
  - split.
    + intros _. apply C23. lia.
    + intros Hst Hn. apply R23; [done | intros; lia].
Qed.

Lemma logged_refl s : logged s s.
Proof.
  split; [done |]. split; [done |].
  split; [split; [done |]; split; [done |]; intros; apply kept_refl |].
  done.
Qed.

Lemma logged_trans s1 s2 s3 : logged s1 s2 → logged s2 s3 → logged s1 s3.
Proof.
  intros (O1 & S1 & K1 & E1 & T1 & F1) (O2 & S2 & K2 & E2 & T2 & F2).
  split; [congruence |]. split; [congruence |].
  split.
  { eapply slots_upto_trans; [exact K1 |].
    eapply slots_upto_mono; [| exact K2]. by destruct K1. }
  split; [by etrans |]. split; [by etrans |]. by auto.
Qed.

Lemma logged_sent why to v s : logged s (sent why to v s).
Proof.
  split; [done |]. split; [done |]. split; [apply slots_sent |].
  split; [done |]. split; [by apply suffix_cons_r | done].
Qed.

Lemma logged_emit e s : logged s (emit e s).
Proof.
  split; [done |]. split; [done |]. split; [apply slots_emit |].
  split; [by apply suffix_cons_r | done].
Qed.

Lemma logged_handler h s s' :
  respects guarantee h → respects audited h → h s = Some s' → logged s s'.
Proof.
  intros G A H. destruct (respects_frame _ _ _ G H) as ([? ?] & _).
  destruct (A _ _ H) as (? & ? & ? & _).
  split; [done |]. split; [done |].
  split; [by apply (slots_handler h) | done].
Qed.

Lemma followed_refl s : followed s s.
Proof.
  split; [apply logged_refl |].
  intros HL. split; [done |]. by apply announces_same.
Qed.

Lemma followed_trans s1 s2 s3 : followed s1 s2 → followed s2 s3 → followed s1 s3.
Proof.
  intros [G1 L1] [G2 L2]. split; [by eapply logged_trans |].
  intros HL. destruct (L1 HL) as [HL2 A12]. destruct (L2 HL2) as [HL3 A23].
  split; [done |].
  destruct G2 as (_ & _ & K2 & E2 & _). by eapply announces_trans.
Qed.

Lemma followed_sent why to v s :
  justified s (mkTransfer why to v) → to ≠ self s →
  followed s (sent why to v s).
Proof.
  intros Hj Hto. split; [apply logged_sent |].
  intros HL. split; [by apply Ledger_sent | by apply announces_same].
Qed.

Lemma followed_emit e s : truthful s e → followed s (emit e s).
Proof.
  intros He. split; [apply logged_emit |].
  intros HL. split; [by apply Ledger_emit | by apply announces_same].
Qed.

Lemma followed_handler h s s' :
  respects guarantee h → respects audited h → h s = Some s' → followed s s'.
Proof.
  intros G A H. split; [by apply (logged_handler h) | by apply A].
Qed.

Lemma fee_tenth v bps : bps ≤ 1000 → 10 * (v * bps / 10000) ≤ v.
Proof.
  intros Hb.
  assert (H : v * bps / 10000 ≤ v * 1000 / 10000).
  { apply N.Div0.div_le_mono. by apply N.mul_le_mono_l. }
  pose proof (N.Div0.div_mod (v * 1000) 10000) as Hd.
  pose proof (N.mod_lt (v * 1000) 10000 ltac:(done)) as Hm.
  set (f := v * bps / 10000) in *. set (q := v * 1000 / 10000) in *.
  set (r := (v * 1000) mod 10000) in *. clearbody f q r. lia.
Qed.

Lemma logged_logs s s' :
  logged s s' →
  events s `suffix_of` events s' ∧ transfers s `suffix_of` transfers s' ∧
  (feeRecipient s ≠ 0 → feeRecipient s' ≠ 0).
Proof. intros (_ & _ & _ & ? & ? & ?). done. Qed.

Lemma logged_slots s s' : logged s s' → slots_upto (paymentCounter s) s s'.
Proof. intros (_ & _ & ? & _). done. Qed.

Section Audit.
Context (hfee hpay : handler).
Context (Gfee : respects guarantee hfee) (Gpay : respects guarantee hpay).
Context (Afee : respects audited hfee) (Apay : respects audited hpay).

Lemma refundPayment_audited m pid s s' :
  refundPayment hpay m pid s = Ok s' → audited s s'.
Proof using Gpay Apay.
  intros H.
  apply refundPayment_ok in H as (Hex & _ & Hst & _ & Hto & s2 & Hh & ->).
  set (p := payment_at s pid) in *.
  set (pb := payback_state (RefundOf pid) Refunded pid s) in *.
  pose proof (followed_handler hpay _ _ Gpay Apay Hh) as [Gh Lh].
  destruct (logged_logs _ _ Gh) as (He & Ht & Hf).
  split; [by apply suffix_cons_r |].
  split; [etrans; [| exact Ht]; by apply suffix_cons_r |].
  split; [exact Hf |].
  intros HLs.
  destruct (Ledger_slot s pid HLs Hex) as (_ & Hpid & _ & _).
  assert (Hpb : payment_at pb pid = with_status Refunded p)
    by (unfold pb; by rewrite payment_at_payback, decide_True).
  destruct (logged_slots _ _ Gh) as (Hc & _ & Hk).
  destruct (Hk pid) as ((_ & Hpayer & _ & Hamt & _) & _ & Href & _); [simpl; lia |].
  rewrite Hpb in Hpayer, Hamt, Href. simpl in Hpayer, Hamt, Href.
  assert (F : followed pb (emit (PaymentRefunded pid (payer (payment_at s2 pid))
                                                 (amount p)) s2)).
  { eapply followed_trans; [by split |].
    apply followed_emit. simpl.
    split; [simpl in Hc; lia |]. split; [by apply Href |].
    eapply elem_of_suffix; [| exact Ht]. rewrite Hpayer. by left. }
  destruct F as [_ L]. destruct L as [HL' A]; [by apply Ledger_refunded |].
  split; [exact HL' |].
  intros x Hx. destruct (A x Hx) as [C R]. split; [exact C |].
  intros Hr Hn. destruct (decide (x = pid)) as [-> | Hne].
  - rewrite payment_at_emit, Hamt. by left.
  - apply R; [done |]. intros Hle. unfold pb.
    rewrite payment_at_payback, decide_False by done. by apply Hn.
Qed.

Lemma cancelPayment_audited m pid s s' :
  cancelPayment hpay m pid s = Ok s' → audited s s'.
Proof using Gpay Apay.
  intros H.
  apply cancelPayment_ok in H as (Hex & _ & Hst & _ & Hto & s2 & Hh & ->).
  pose proof (logged_handler hpay _ _ Gpay Apay Hh) as Gh.
  destruct (logged_logs _ _ Gh) as (He & Ht & Hf).
  split; [by apply suffix_cons_r |].
  split; [etrans; [| exact Ht]; by apply suffix_cons_r |].
  split; [exact Hf |].
  intros HLs. destruct (Ledger_slot s pid HLs Hex) as (_ & _ & _ & [? | ?]);
    congruence.
Qed.

Lemma emergencyWithdraw_audited m s s' :
  emergencyWithdraw hpay m s = Ok s' → audited s s'.
Proof using Gpay Apay.
  intros H. apply emergencyWithdraw_ok in H as (_ & Hpos & Hto & Hh).
  assert (F : followed s s').
  { eapply followed_trans; [| by apply (followed_handler hpay)].
    apply followed_sent; [| done]. by split. }
  destruct F as [G L]. destruct (logged_logs _ _ G) as (? & ? & ?). done.
Qed.

Lemma createPayment_audited m r d s pid s' :
  createPayment hfee hpay m r d s = Ok (pid, s') → audited s s'.
Proof using Gfee Gpay Afee Apay.
  intros H. apply createPayment_ok in H as (Hr & Hrs & Hv & _ & -> & H).
  apply _completePayment_ok in H
    as (_ & fee & rest & s2 & s3 & Hsplit & Hfeeleg & _ & Hto & Hh & ->).
  rewrite payment_at_created, decide_True in Hsplit by done. simpl in Hsplit.
  apply split_ok in Hsplit as (_ & Hfee & Hfee_le & ->).
  set (rest := value m - fee) in *.
  set (pid := paymentCounter s + 1) in *.
  set (s1 := set_status pid Completed (created_state m r d s)) in *.
  set (sp := sent (PayoutOf pid) (recipient (payment_at s2 pid)) rest s2) in *.
  set (ev := PaymentCompleted pid (recipient (payment_at s3 pid)) rest).
  assert (Hp1 : payment_at s1 pid =
                mkPayment pid (sender m) r (value m) (now m) Completed d true).
  { unfold s1, pid. by rewrite payment_at_created_completed, decide_True. }
  unfold fee_due in Hfeeleg.
  change (feeRecipient (created_state m r d s)) with (feeRecipient s1) in Hfeeleg.
  change (self (created_state m r d s)) with (self s1) in Hfeeleg.
  (* what the three legs keep, whatever the state of the books *)
  assert (G12 : logged s1 s2).
  { destruct ((0 <? fee) && negb (feeRecipient s1 =? 0));
      [| subst s2; apply logged_refl].
    destruct Hfeeleg as (_ & _ & Hhf).
    eapply logged_trans; [apply logged_sent | by apply (logged_handler hfee)]. }
  assert (G23 : logged s2 s3).
  { eapply logged_trans; [apply logged_sent | by apply (logged_handler hpay)]. }
  pose proof (logged_trans _ _ _ G12 (logged_trans _ _ _ G23 (logged_emit ev s3)))
    as G.
  destruct (logged_logs _ _ G) as (He & Ht & Hf).
  split; [etrans; [| exact He]; by apply suffix_cons_r |].
  split; [exact Ht |]. split; [exact Hf |].
  (* the books *)
  intros HLs.
  assert (Hten : 10 * fee ≤ value m).
  { rewrite Hfee. apply fee_tenth, (ledger_bps s HLs). }
  destruct (logged_slots _ _ G12) as (Hc2 & _ & Hk2).
  destruct (Hk2 pid) as ((_ & _ & Hrcp2 & Hamt2 & _) & _); [simpl; lia |].
  rewrite Hp1 in Hrcp2, Hamt2. simpl in Hrcp2, Hamt2.
  destruct (logged_slots _ _ G23) as (Hc3 & _ & Hk3).
  destruct (Hk3 pid) as ((_ & _ & Hrcp3 & _) & _); [simpl in Hc2; lia |].
  assert (F12 : followed s1 s2).
  { destruct ((0 <? fee) && negb (feeRecipient s1 =? 0)) eqn:Hdue;
      [| subst s2; apply followed_refl].
    destruct Hfeeleg as (_ & Hfs & Hhf).
    apply andb_true_iff in Hdue as [Hpos%N.ltb_lt Hnz%negb_true_iff%N.eqb_neq].
    eapply followed_trans; [| by apply (followed_handler hfee)].
    apply followed_sent; [| done].
    unfold justified; simpl. rewrite Hp1. simpl.
    repeat split; try done; lia. }
  assert (F23 : followed s2 s3).
  { eapply followed_trans; [| by apply (followed_handler hpay)].
    apply followed_sent; [| done].
    unfold justified; simpl. rewrite Hamt2.
    split; [simpl in Hc2; lia |]. split; [done |].
    unfold rest. lia. }
  assert (F3 : followed s3 (emit ev s3)).
  { apply followed_emit. simpl.
    split; [simpl in Hc2; lia |].
    destruct (logged_logs _ _ (logged_handler hpay _ _ Gpay Apay Hh))
      as (_ & Ht3 & _).
    eapply elem_of_suffix; [| exact Ht3]. rewrite Hrcp3. by left. }
  destruct (followed_trans _ _ _ F12 (followed_trans _ _ _ F23 F3)) as [_ L].
  destruct L as [HL' A]; [by apply Ledger_created |].
  split; [exact HL' |].
  intros x Hx. destruct (A x Hx) as [C R]. split.
  - intros Hnew. destruct (decide (x = pid)) as [-> | Hne].
    + exists rest. by left.
    + apply C. simpl. lia.
  - intros Hst Hn. apply R; [done |]. intros Hle.
    unfold s1, pid. rewrite payment_at_created_completed.
    case_decide as Hd; [done |]. apply Hn. simpl in Hle. unfold pid in Hd. lia.
Qed.

Lemma dispatch_audited m c s s' :
  dispatch hfee hpay m c s = Ok s' → audited s s'.
Proof using Gfee Gpay Afee Apay.
  destruct c; simpl; intros H; inv_bind H.
  - destruct a0 as [pid s1]. injection H as <-.
    unfold pay_in in Hstep. destruct (_ <? _); [done |]. injection Hstep as <-.
    apply createPayment_audited in Hstep0 as (He & Ht & Hf & HL).
    split; [exact He |]. split; [exact Ht |]. split; [exact Hf |].
    intros HLs. apply HL. by apply (Ledger_ext s).
  - by eapply refundPayment_audited.
  - by eapply cancelPayment_audited.
  - apply updatePlatformFee_ok in H as (_ & Hb & ->).
    split; [done |]. split; [done |]. split; [done |].
    intros HL. split; [by apply Ledger_bps | by apply announces_same].
  - apply updateFeeRecipient_ok in H as (_ & Ha & ->).
    split; [done |]. split; [done |]. split; [done |].
    intros HL. split; [by apply (Ledger_ext s) | by apply announces_same].
  - by eapply emergencyWithdraw_audited.
Qed.
End Audit.

Lemma audited_refl s : audited s s.
Proof. destruct (followed_refl s) as [G L]. by destruct (logged_logs _ _ G) as (? & ? & ?). Qed.

Lemma audited_trans s1 s2 s3 :
  slots_upto (paymentCounter s2) s2 s3 →
  audited s1 s2 → audited s2 s3 → audited s1 s3.
Proof.
  intros K (E1 & T1 & F1 & L1) (E2 & T2 & F2 & L2).
  split; [by etrans |]. split; [by etrans |]. split; [by auto |].
  intros HL. destruct (L1 HL) as [HL2 A12]. destruct (L2 HL2) as [HL3 A23].
  split; [done |]. by eapply announces_trans.
Qed.

(** Whatever a receiver does, the books stay in order. *)
Lemma interp_audited k : respects audited (interp k).
Proof.
  induction k as [| | m c kfee IHfee kpay IHpay next IHnext]; intros s s' H.
  - done.
  - injection H as <-. apply audited_refl.
  - simpl in H.
    destruct (dispatch _ _ _ _ _) as [s1 | |] eqn:Hd; [| by apply IHnext ..].
    eapply audited_trans; [| | by apply IHnext].
    + exact (slots_handler _ _ _ (interp_guarantee next) H).
    + exact (dispatch_audited _ _ (interp_guarantee kfee) (interp_guarantee kpay)
               IHfee IHpay _ _ _ _ Hd).
Qed.

Lemma execute_audited t s s' : execute t s = Ok s' → audited s s'.
Proof.
  apply dispatch_audited; first [apply interp_guarantee | apply interp_audited].
Qed.

Lemma step_audited s s' : step s s' → audited s s'.
Proof.
  destruct 1 as [t s | bal s Hbal].
  - unfold transact. destruct (execute t s) eqn:H; try apply audited_refl.
    by apply execute_audited in H.
  - split; [done |]. split; [done |]. split; [done |].
    intros HL. split; [by apply (Ledger_ext s) | by apply announces_same].
Qed.

Lemma later_audited s s' : rtc step s s' → audited s s'.
Proof.
  induction 1 as [| s1 s2 s3 H12 H23 IH]; [apply audited_refl |].
  eapply audited_trans; [| by apply step_audited | exact IH].
  apply frame_slots. by destruct (later_guarantee _ _ H23).
Qed.

Lemma reachable_deployed s :
  reachable s →
  ∃ this deployer fr bal, rtc step (constructor this deployer fr bal) s.
Proof.
  induction 1 as [this deployer fr bal | t s _ IH | bal s _ IH Hbal].
  - by exists this, deployer, fr, bal.
  - destruct IH as (this & deployer & fr & bal & IH).
    exists this, deployer, fr, bal. eapply rtc_r; [exact IH | apply step_transact].
  - destruct IH as (this & deployer & fr & bal' & IH).
    exists this, deployer, fr, bal'. eapply rtc_r; [exact IH | by apply step_elsewhere].
Qed.

Lemma reachable_Ledger s : reachable s → Ledger s.
Proof.
  intros (this & deployer & fr & bal & H)%reachable_deployed.
  by apply (later_audited _ _ H), Ledger_constructor.
Qed.

(** Between transactions every payment has had its completion announced,
    and its refund if it is Refunded. *)
Lemma reachable_announced s pid :
  reachable s → 0 < pid ≤ paymentCounter s →
  let p := payment_at s pid in
  (∃ a, PaymentCompleted pid (recipient p) a ∈ events s) ∧
  (status p = Refunded → PaymentRefunded pid (payer p) (amount p) ∈ events s).
Proof.
  intros (this & deployer & fr & bal & H)%reachable_deployed Hpid p.
  destruct (later_audited _ _ H) as (_ & _ & _ & L).
  destruct L as [_ A]; [apply Ledger_constructor |].
  destruct (A pid Hpid) as [C R]. split.
  - apply C. simpl. lia.
  - intros Hst. apply R; [done |]. simpl. lia.
Qed.

(** What a successful createPayment has put on the logs when it returns,
    whatever the receivers of its transfers did. *)
Lemma createPayment_logs kfee kpay m r d s pid s' :
  createPayment (interp kfee) (interp kpay) m r d s = Ok (pid, s') →
  let fee := value m * platformFeeBps s / 10000 in
  let rest := value m - fee in
  pid = paymentCounter s + 1 ∧
  (∃ between,
     events s' =
       (PaymentCompleted pid r rest ::
        between ++ PaymentCreated pid (sender m) r (value m) d :: events s)%list) ∧
  (∃ before between,
     transfers s' =
       (before ++ mkTransfer (PayoutOf pid) r rest :: between ++
        (if fee_due fee s then [mkTransfer (FeeOf pid) (feeRecipient s) fee] else [])
        ++ transfers s)%list).
Proof.
  intros H fee rest.
  apply createPayment_ok in H as (Hr & Hrs & Hv & _ & -> & H).
  split; [done |].
  apply _completePayment_ok in H
    as (_ & fee' & rest' & s2 & s3 & Hsplit & Hfeeleg & _ & Hto & Hh & ->).
  rewrite payment_at_created, decide_True in Hsplit by done. simpl in Hsplit.
  apply split_ok in Hsplit as (_ & -> & _ & ->).
  change (platformFeeBps (created_state m r d s)) with (platformFeeBps s)
    in Hfeeleg, Hh |- *.
  fold fee in Hfeeleg, Hh |- *. fold rest in Hh |- *.
  set (pid := paymentCounter s + 1) in *.
  set (s1 := set_status pid Completed (created_state m r d s)) in *.
  change (fee_due fee (created_state m r d s)) with (fee_due fee s) in Hfeeleg.
  change (feeRecipient (created_state m r d s)) with (feeRecipient s) in Hfeeleg.
  assert (Hp1 : recipient (payment_at s1 pid) = r).
  { unfold s1, pid. by rewrite payment_at_created_completed, decide_True. }
  assert (G12 : logged s1 s2 ∧
                ∃ between, transfers s2 =
                  (between ++ (if fee_due fee s
                               then [mkTransfer (FeeOf pid) (feeRecipient s) fee]
                               else []) ++ transfers s)%list).
  { destruct (fee_due fee s).
    - destruct Hfeeleg as (_ & _ & Hhf).
      pose proof (logged_handler _ _ _ (interp_guarantee kfee) (interp_audited kfee) Hhf)
        as G.
      split; [eapply logged_trans; [apply logged_sent | exact G] |].
      destruct (logged_logs _ _ G) as (_ & [between Hb] & _).
      exists between. by rewrite Hb.
    - subst s2. split; [apply logged_refl | by exists []]. }
  destruct G12 as [G12 [between2 Ht2]].
  destruct (logged_slots _ _ G12) as (_ & _ & Hk2).
  destruct (Hk2 pid) as ((_ & _ & Hrcp2 & _) & _); [simpl; lia |].
  rewrite Hp1 in Hrcp2. rewrite Hrcp2 in Hh.
  pose proof (logged_handler _ _ _ (interp_guarantee kpay) (interp_audited kpay) Hh)
    as G3.
  destruct (logged_slots _ _ G3) as (_ & _ & Hk3).
  destruct (Hk3 pid) as ((_ & _ & Hrcp3 & _) & _);
    [destruct (logged_slots _ _ G12) as (? & _); simpl in *; lia |].
  rewrite payment_at_sent, Hrcp2 in Hrcp3. rewrite Hrcp3.
  destruct (logged_logs _ _ G12) as ([b12 He12] & _).
  destruct (logged_logs _ _ G3) as ([b3 He3] & [t3 Ht3] & _).
  split.
  - exists (b3 ++ b12)%list. simpl. rewrite He3. simpl. rewrite He12. simpl.
    by rewrite <- app_assoc.
  - exists t3, between2. simpl. rewrite Ht3. simpl. by rewrite Ht2.
Qed.

Lemma payments_of_sorted user s : StronglySorted N.lt (payments_of user s).
Proof.
  unfold payments_of. generalize (paymentCounter s) as n. intros n.
  induction n as [| n IH] using N.peano_ind; [constructor |].
  rewrite <- N.add_1_r, ids_succ, filter_app. apply StronglySorted_app.
  split; [| split; [done |]].
  - intros x1 x2 [_ H1%elem_of_ids]%list_elem_of_filter
                 [_ H2%list_elem_of_singleton]%list_elem_of_filter. lia.
  - rewrite filter_cons, filter_nil. case_decide; repeat constructor.
Qed.

(** X9: in every reachable state getUserPayments returns exactly the ids of the
    payments the account has made, each once and in the order of their
    creation. *)
Theorem getUserPayments_lists_the_payments (s : State) (user : N) :
  reachable s →
  getUserPayments user s = payments_of user s ∧
  (∀ pid, pid ∈ getUserPayments user s ↔
          0 < pid ≤ getPaymentCount s ∧ payer (payment_at s pid) = user) ∧
  StronglySorted N.lt (getUserPayments user s).
Proof.
  intros HL%reachable_Ledger. pose proof (ledger_index s HL user) as Hidx.
  split; [done |]. rewrite Hidx. split; [| apply payments_of_sorted].
  intros pid. unfold payments_of. rewrite list_elem_of_filter, elem_of_ids.
  unfold getPaymentCount. tauto.
Qed.

Lemma getUserPayments_lists_the_payments_witness :
  getUserPayments 10 two_payments = [1; 2] ∧
  StronglySorted N.lt (getUserPayments 10 two_payments).
Proof.
  destruct (getUserPayments_lists_the_payments two_payments 10)
    as (Hidx & _ & Hsorted); [apply two_payments_reachable |].
  split; [rewrite Hidx; by vm_compute | exact Hsorted].
Defined.

(** X10: in every reachable state getPayment succeeds exactly on the ids from 1
    to getPaymentCount, which are the ids of the stored payments; the record
    it returns carries its own id, a positive amount, a recipient that is
    neither null nor the payer, and status Completed or Refunded; on any
    other id it fails with "Payment does not exist".  The record of a
    payment just created carries the terms of the call. *)
Theorem getPayment_spec (s : State) (pid : N) :
  reachable s →
  (is_Some (payments s !! pid) ↔ 0 < pid ≤ getPaymentCount s) ∧
  (0 < pid ≤ getPaymentCount s →
   ∃ p, getPayment pid s = Ok p ∧ payments s !! pid = Some p ∧
        paymentId p = pid ∧ exists_ p = true ∧ 0 < amount p ∧
        recipient p ≠ 0 ∧ recipient p ≠ payer p ∧
        (status p = Completed ∨ status p = Refunded)) ∧
  (pid = 0 ∨ getPaymentCount s < pid →
   getPayment pid s = Revert "CoinPay: Payment does not exist") ∧
  (∀ kfee kpay m r d id s',
     createPayment (interp kfee) (interp kpay) m r d s = Ok (id, s') →
     ∃ p, getPayment id s' = Ok p ∧ paymentId p = id ∧
          payer p = sender m ∧ recipient p = r ∧ amount p = value m ∧
          timestamp p = now m ∧ description p = d).
Proof.
  intros HL%reachable_Ledger. unfold getPaymentCount.
  assert (Hiff : is_Some (payments s !! pid) ↔ 0 < pid ≤ paymentCounter s).
  { split; [| apply (ledger_dense s HL)].
    intros [p Hp]. by apply (ledger_key s HL) in Hp as (? & _). }
  split; [exact Hiff |]. split; [| split].
  - intros [p Hp]%Hiff. exists p.
    pose proof (ledger_key s HL pid p Hp) as (_ & ? & Hex & ? & ? & ? & ?).
    unfold getPayment, payment_at. rewrite Hp. simpl. rewrite Hex. done.
  - intros Hout. unfold getPayment, payment_at.
    destruct (payments s !! pid) as [p |] eqn:Hp; [| done].
    apply (ledger_key s HL) in Hp as (? & _). lia.
  - intros kfee kpay m r d id s' H.
    apply createPayment_ok in H as (_ & _ & _ & _ & -> & H).
    assert (Hle : paymentCounter s + 1 ≤ paymentCounter (created_state m r d s))
      by (simpl; lia).
    pose proof (_completePayment_slots _ _ _ _ _
                  (interp_guarantee kfee) (interp_guarantee kpay) Hle H)
      as (_ & _ & Hk).
    specialize (Hk _ (N.le_refl _)).
    rewrite payment_at_created_completed, decide_True in Hk by done.
    destruct Hk as ((Hid & Hpayer & Hrcp & Hamt & Hts & Hdesc & Hex) & _).
    simpl in *. eexists. unfold getPayment. rewrite Hex. simpl.
    repeat split; done.
Qed.

Lemma getPayment_spec_witness :
  (∃ p, getPayment 2 two_payments = Ok p ∧ paymentId p = 2) ∧
  getPayment 3 two_payments = Revert "CoinPay: Payment does not exist".
Proof.
  assert (Hin2 : 0 < 2 ≤ getPaymentCount two_payments)
    by (vm_compute; split; [reflexivity | discriminate]).
  assert (Hout3 : 3 = 0 ∨ getPaymentCount two_payments < 3)
    by (right; vm_compute; reflexivity).
  destruct (getPayment_spec two_payments 2 two_payments_reachable) as (_ & Hin & _).
  destruct (getPayment_spec two_payments 3 two_payments_reachable)
    as (_ & _ & Hout & _).
  destruct (Hin Hin2) as (p & Hp & _ & Hid & _).
  exact (conj (ex_intro _ p (conj Hp Hid)) (Hout Hout3)).
Defined.

(** X11: cancelPayment can never succeed: no payment is ever left Pending, so
    in every reachable state the call is refused, no payment is or becomes
    Cancelled, and neither a cancel transfer nor a PaymentCancelled event is
    ever on the logs. *)
Theorem cancelPayment_never_succeeds (s : State) :
  reachable s →
  (∀ h m pid,
     cancelPayment h m pid s =
     Revert (if negb (exists_ (payment_at s pid))
             then "CoinPay: Payment does not exist"
             else if bool_decide (sender m = payer (payment_at s pid))
                     || bool_decide (sender m = owner s)
             then "CoinPay: Only pending payments can be cancelled"
             else "CoinPay: Unauthorized")) ∧
  (∀ s', rtc step s s' → ∀ pid,
     status (payment_at s' pid) ≠ Cancelled ∧
     (exists_ (payment_at s' pid) = true → status (payment_at s' pid) ≠ Pending)) ∧
  (∀ s', rtc step s s' →
     (∀ pid to v, mkTransfer (CancelOf pid) to v ∉ transfers s') ∧
     (∀ pid p a, PaymentCancelled pid p a ∉ events s')).
Proof.
  intros Hs. split; [| split].
  - intros h m pid. apply reachable_Ledger in Hs as HL.
    unfold cancelPayment.
    destruct (exists_ (payment_at s pid)) eqn:Hex; [simpl | done].
    destruct (_ || _); [simpl | done].
    destruct (Ledger_slot s pid HL Hex) as (_ & _ & _ & Hst).
    rewrite bool_decide_eq_false_2; [done |]. destruct Hst; congruence.
  - intros s' Hlater pid.
    pose proof (reachable_Ledger s' (later_reachable _ _ Hs Hlater)) as HL.
    destruct (payments s' !! pid) as [p |] eqn:Hp.
    + unfold payment_at. rewrite Hp. simpl.
      apply (ledger_key s' HL) in Hp as (_ & _ & _ & _ & _ & _ & [-> | ->]); done.
    + rewrite payment_at_absent by done. done.
  - intros s' Hlater.
    pose proof (reachable_Ledger s' (later_reachable _ _ Hs Hlater)) as HL.
    split.
    + intros pid to v Hin. by apply (ledger_transfers s' HL) in Hin as [? _].
    + intros pid p a Hin. by apply (ledger_events s' HL) in Hin.
Qed.

Lemma cancelPayment_never_succeeds_witness :
  cancelPayment (interp Accept) (mkMsg 10 0 9) 2 two_payments =
    Revert "CoinPay: Only pending payments can be cancelled".
Proof.
  destruct (cancelPayment_never_succeeds two_payments two_payments_reachable)
    as (H & _).
  exact (H (interp Accept) (mkMsg 10 0 9) 2).
Defined.

(** X12: in every reachable state every transfer the contract has made is
    accounted for by the ledger: it went to someone other than the contract;
    a fee is positive, goes to a non-null account and is a tenth at most of
    its payment's amount; a recipient's share goes to the payment's
    recipient and is nine tenths at least of the amount and the amount at
    most; a refund returns the exact amount of a payment that is Refunded to
    its payer; a withdrawal goes to the owner; nothing was ever transferred
    for a cancellation. *)
Theorem transfers_are_justified (s : State) (t : Transfer) :
  reachable s → t ∈ transfers s →
  t_to t ≠ self s ∧
  match t_why t with
  | FeeOf pid =>
      exists_ (payment_at s pid) = true ∧ t_to t ≠ 0 ∧
      0 < t_value t ∧ 10 * t_value t ≤ amount (payment_at s pid)
  | PayoutOf pid =>
      exists_ (payment_at s pid) = true ∧
      t_to t = recipient (payment_at s pid) ∧ t_to t ≠ 0 ∧
      t_to t ≠ payer (payment_at s pid) ∧
      t_value t ≤ amount (payment_at s pid) ∧
      9 * amount (payment_at s pid) ≤ 10 * t_value t
  | RefundOf pid =>
      exists_ (payment_at s pid) = true ∧
      status (payment_at s pid) = Refunded ∧
      t_to t = payer (payment_at s pid) ∧ t_value t = amount (payment_at s pid)
  | CancelOf _ => False
  | Withdrawal => t_to t = owner s ∧ 0 < t_value t
  end.
Proof.
  intros HL%reachable_Ledger Ht.
  destruct (ledger_transfers s HL t Ht) as [Hj Hto]. split; [done |].
  assert (Hrec : ∀ pid, 0 < pid ≤ paymentCounter s →
            let p := payment_at s pid in
            exists_ p = true ∧ recipient p ≠ 0 ∧ recipient p ≠ payer p).
  { intros pid [p Hp]%(ledger_dense s HL). unfold payment_at. rewrite Hp. simpl.
    by apply (ledger_key s HL) in Hp as (_ & _ & ? & _ & ? & ? & _). }
  unfold justified in Hj.
  destruct (t_why t) as [pid | pid | pid | pid |]; try done.
  - destruct Hj as (Hpid & ? & ? & ?). by destruct (Hrec pid Hpid) as (? & _).
  - destruct Hj as (Hpid & Hrcp & ? & ?).
    destruct (Hrec pid Hpid) as (? & ? & ?). rewrite Hrcp. done.
  - destruct Hj as (Hpid & ? & ? & ?). by destruct (Hrec pid Hpid) as (? & _).
Qed.

Lemma transfers_are_justified_witness :
  t_to (mkTransfer (PayoutOf 1) 11 9975) = recipient (payment_at two_payments 1) ∧
  9 * amount (payment_at two_payments 1) ≤ 10 * 9975.
Proof.
  destruct (transfers_are_justified two_payments (mkTransfer (PayoutOf 1) 11 9975))
    as (_ & _ & Hto & _ & _ & _ & Hnine);
    [apply two_payments_reachable | vm_compute; right; left |].
  exact (conj Hto Hnine).
Defined.

(** X13: in every reachable state the events and the ledger agree: every
    event on the log is truthful, every payment has its PaymentCreated event
    with its terms and a PaymentCompleted event with the share that was
    transferred to its recipient, and a payment is Refunded exactly when its
    PaymentRefunded event, with its payer and its full amount, is on the
    log. *)
Theorem events_mirror_the_ledger (s : State) (pid : N) :
  reachable s →
  (∀ e, e ∈ events s → truthful s e) ∧
  (0 < pid ≤ getPaymentCount s →
   let p := payment_at s pid in
   PaymentCreated pid (payer p) (recipient p) (amount p) (description p)
     ∈ events s ∧
   (∃ a, PaymentCompleted pid (recipient p) a ∈ events s ∧
         mkTransfer (PayoutOf pid) (recipient p) a ∈ transfers s) ∧
   (status p = Refunded ↔
    PaymentRefunded pid (payer p) (amount p) ∈ events s)).
Proof.
  intros Hs. pose proof (reachable_Ledger s Hs) as HL.
  split; [apply (ledger_events s HL) |].
  intros Hpid p. destruct (reachable_announced s pid Hs Hpid) as [[a Ha] Hr].
  fold p in Ha, Hr.
  split; [by apply (ledger_created s HL) |]. split.
  - exists a. split; [done |]. by apply (ledger_events s HL) in Ha as [_ ?].
  - split; [done |]. intros He. by apply (ledger_events s HL) in He as (_ & ? & _).
Qed.

Lemma events_mirror_the_ledger_witness :
  PaymentRefunded 2 10 10 ∈ events (transact refund_second two_payments).
Proof.
  destruct (events_mirror_the_ledger (transact refund_second two_payments) 2)
    as (_ & H); [apply reachable_step, two_payments_reachable |].
  destruct H as (_ & _ & Hr); [by vm_compute |].
  apply Hr. by vm_compute.
Defined.

(** X14: a successful createPayment logs PaymentCreated, with the id it returns
    and the terms of the call, before anything a receiver of its transfers
    causes to be logged, and PaymentCompleted, with the same id and the
    recipient's share, after it; between accounts that only accept what
    they are sent these are the two events of the call. *)
Theorem createPayment_events (kfee kpay : callee) (m : Msg) (r : N) (d : string)
    (s : State) (pid : N) (s' : State) :
  createPayment (interp kfee) (interp kpay) m r d s = Ok (pid, s') →
  let rest := value m - value m * platformFeeBps s / 10000 in
  ∃ between,
    events s' =
      (PaymentCompleted pid r rest ::
       between ++ PaymentCreated pid (sender m) r (value m) d :: events s)%list ∧
    (kfee = Accept → kpay = Accept → between = []).
Proof.
  intros H rest.
  destruct (createPayment_logs _ _ _ _ _ _ _ _ H) as (Hpid & [between Hev] & _).
  exists between. split; [exact Hev |].
  intros -> ->.
  apply createPayment_ok in H as (_ & _ & _ & _ & _ & H).
  apply _completePayment_ok in H
    as (_ & fee' & rest' & s2 & s3 & _ & Hfeeleg & _ & _ & Hh & ->).
  injection Hh as <-.
  assert (He2 : events s2 =
                PaymentCreated pid (sender m) r (value m) d :: events s).
  { destruct (fee_due _ _); [| by subst s2; subst pid].
    destruct Hfeeleg as (_ & _ & [= <-]). by subst pid. }
  simpl in Hev. rewrite He2 in Hev. injection Hev as _ _ Hev.
  symmetry in Hev. by apply (app_inv_tail _ between []) in Hev.
Qed.

Lemma createPayment_events_witness :
  ∃ between,
    events (transact (mkTx (mkMsg 10 10000 7) (CreatePayment 11 "first")
                           Accept Accept) deployed) =
      (PaymentCompleted 1 11 (10000 - 10000 * platformFeeBps deployed / 10000) ::
       between ++ [PaymentCreated 1 10 11 10000 "first"])%list ∧
    (Accept = Accept → Accept = Accept → between = []).
Proof.
  apply (createPayment_events Accept Accept (mkMsg 10 10000 7) 11 "first"
           (move 10 100 10000 deployed) 1).
  by vm_compute.
Defined.

(** X15: updateFeeRecipient, called by the owner, fails with "Invalid address"
    for the null address and otherwise stores the new fee recipient, to
    which the fee of every later payment is sent.  Since it is the only
    function that writes the fee recipient, a fee recipient that is not null
    never becomes null again. *)
Theorem updateFeeRecipient_spec (m : Msg) (_newFeeRecipient : N) (s : State) :
  sender m = owner s →
  (updateFeeRecipient m _newFeeRecipient s = Revert "CoinPay: Invalid address"
   ↔ _newFeeRecipient = 0) ∧
  (updateFeeRecipient m _newFeeRecipient s =
     Ok (set_feeRecipient _newFeeRecipient s) ↔ _newFeeRecipient ≠ 0) ∧
  (∀ kfee kpay m' r d pid s',
     createPayment (interp kfee) (interp kpay) m' r d
                   (set_feeRecipient _newFeeRecipient s) = Ok (pid, s') →
     let fee := value m' * platformFeeBps s / 10000 in
     _newFeeRecipient ≠ 0 → 0 < fee →
     mkTransfer (FeeOf pid) _newFeeRecipient fee ∈ transfers s') ∧
  (∀ s', rtc step s s' → feeRecipient s ≠ 0 → feeRecipient s' ≠ 0).
Proof.
  intros Hown. unfold updateFeeRecipient.
  rewrite bool_decide_eq_true_2 by done. simpl.
  split; [| split; [| split]].
  - destruct (N.eqb_spec _newFeeRecipient 0); simpl; split; done.
  - destruct (N.eqb_spec _newFeeRecipient 0); simpl; split; done.
  - intros kfee kpay m' r d pid s' H Hnz Hpos.
    destruct (createPayment_logs _ _ _ _ _ _ _ _ H)
      as (_ & _ & before & between & ->).
    change (platformFeeBps (set_feeRecipient _newFeeRecipient s))
      with (platformFeeBps s).
    set (fee := value m' * platformFeeBps s / 10000) in *.
    assert (fee_due fee (set_feeRecipient _newFeeRecipient s) = true) as ->.
    { unfold fee_due. simpl. apply andb_true_iff.
      split; [by apply N.ltb_lt | by apply negb_true_iff, N.eqb_neq]. }
    apply elem_of_app; right. apply elem_of_cons; right.
    apply elem_of_app; right. apply elem_of_app; left.
    by apply list_elem_of_singleton.
  - intros s' Hlater. by destruct (later_audited _ _ Hlater) as (_ & _ & ? & _).
Qed.

Lemma updateFeeRecipient_spec_witness :
  updateFeeRecipient (mkMsg 1 0 9) 12 two_payments =
    Ok (set_feeRecipient 12 two_payments) ∧
  updateFeeRecipient (mkMsg 1 0 9) 0 two_payments =
    Revert "CoinPay: Invalid address".
Proof.
  destruct (updateFeeRecipient_spec (mkMsg 1 0 9) 12 two_payments)
    as (_ & Hok & _); [done |].
  destruct (updateFeeRecipient_spec (mkMsg 1 0 9) 0 two_payments)
    as (Hnull & _); [done |].
  split; [by apply Hok | by apply Hnull].
Defined.

(** X16: a refund is paid out of whatever the contract holds, and the contract
    keeps nothing of a payment beyond a fee it did not send: refundPayment
    fails with "Refund transfer failed" when the contract's balance is below
    the amount.  So a payment made between accounts that accept what they
    are sent cannot be refunded out of its own money, and after
    emergencyWithdraw has emptied the contract no payment can be refunded
    until the contract holds value again. *)
Theorem refund_needs_funds (m : Msg) (pid : N) (s : State) :
  let p := payment_at s pid in
  (∀ h s', refundPayment h m pid s = Ok s' → amount p ≤ getBalance s) ∧
  (exists_ p = true → sender m = payer p ∨ sender m = owner s →
   status p = Pending ∨ status p = Completed →
   getBalance s < amount p →
   ∀ h, refundPayment h m pid s = Revert "CoinPay: Refund transfer failed") ∧
  (∀ mc r d s0,
     execute (mkTx mc (CreatePayment r d) Accept Accept) s0 = Ok s →
     sender mc ≠ self s0 → pid = paymentCounter s0 + 1 →
     let fee := value mc * platformFeeBps s0 / 10000 in
     getBalance s0 + (if fee_due fee s0 then 0 else fee) < value mc →
     ∀ h s', refundPayment h m pid s ≠ Ok s') ∧
  (∀ mo s0,
     reachable s0 → emergencyWithdraw (interp Accept) mo s0 = Ok s →
     ∀ h s', refundPayment h m pid s ≠ Ok s').
Proof.
  intros p. split; [| split; [| split]].
  - intros h s' H. by apply refundPayment_ok in H as (_ & _ & _ & ? & _).
  - intros Hex Hauth Hst Hbal h. unfold refundPayment. fold p. rewrite Hex. simpl.
    assert (bool_decide (sender m = payer p) || bool_decide (sender m = owner s)
            = true) as ->.
    { apply orb_true_iff.
      destruct Hauth; [left | right]; by apply bool_decide_eq_true. }
    assert (bool_decide (status p = Pending) || bool_decide (status p = Completed)
            = true) as -> by (destruct Hst as [-> | ->]; done).
    simpl. rewrite payment_at_set_status, decide_True by done. simpl. fold p.
    unfold call_value.
    change (balance_of (set_status pid Refunded s) (self (set_status pid Refunded s)))
      with (getBalance s).
    by destruct (N.ltb_spec (getBalance s) (amount p)); [| lia].
  - intros mc r d s0 Hc Hsender -> fee Hbal h.
    destruct (create_plain_balances _ _ _ _ _ Hc Hsender) as [Hself _].
    fold fee in Hself.
    assert (Hamt : amount p = value mc).
    { apply execute_create_plain in Hc as (_ & _ & _ & _ & _ & _ & _ & _ & ->).
      unfold p. rewrite payment_at_emit, payment_at_sent.
      destruct (fee_due _ _); rewrite ?payment_at_sent; unfold completing_state;
        rewrite payment_at_set_status, decide_True by done;
        by rewrite payment_at_created, decide_True. }
    intros s' H. apply refundPayment_ok in H as (_ & _ & _ & Hle & _).
    fold p in Hle. rewrite Hamt in Hle. unfold getBalance in *.
    destruct (fee_due fee s0); lia.
  - intros mo s0 Hs0 Hw h s' H.
    apply refundPayment_ok in H as (Hex & _ & _ & Hle & _).
    fold p in Hex, Hle.
    apply emergencyWithdraw_ok in Hw as (_ & _ & Hne & Hw).
    injection Hw as <-.
    assert (HL : Ledger (sent Withdrawal (owner s0) (balance_of s0 (self s0)) s0)).
    { apply Ledger_sent; [by apply reachable_Ledger | | done].
      unfold justified; simpl. split; [done |].
      destruct (N.ltb_spec 0 (balance_of s0 (self s0))) as [| Hz]; [done |].
      exfalso. unfold p in Hle. rewrite (balance_of_sent_self _ _ _ _ (self s0)) in Hle
        by done.
      destruct (Ledger_slot s0 pid (reachable_Ledger s0 Hs0) Hex) as (_ & _ & ? & _).
      rewrite payment_at_sent in Hle. lia. }
    destruct (Ledger_slot _ pid HL Hex) as (_ & _ & Hpos & _).
    fold p in Hpos.
    rewrite (balance_of_sent_self _ _ _ _ (self s0)) in Hle by done. lia.
Qed.

(** X17: refundPayment to a payer that accepts what it is sent succeeds exactly
    when the payment exists, the caller is its payer or the owner, its
    status is Pending or Completed, the contract holds its amount, and its
    payer is not the contract itself; the state it leaves is then the one
    with the status Refunded, the amount moved to the payer, and the
    PaymentRefunded event logged. *)
Theorem refundPayment_succeeds_iff (m : Msg) (pid : N) (s s' : State) :
  let p := payment_at s pid in
  refundPayment (interp Accept) m pid s = Ok s' ↔
  exists_ p = true ∧
  (sender m = payer p ∨ sender m = owner s) ∧
  (status p = Pending ∨ status p = Completed) ∧
  amount p ≤ getBalance s ∧ payer p ≠ self s ∧
  s' = emit (PaymentRefunded pid (payer p) (amount p))
            (payback_state (RefundOf pid) Refunded pid s).
Proof.
  intros p. split.
  - intros H.
    apply refundPayment_ok in H as (Hex & Hauth & Hst & Hbal & Hself & s2 & Hh & ->).
    injection Hh as <-. fold p in Hex, Hauth, Hst, Hbal, Hself |- *.
    repeat split; try done.
    by rewrite payment_at_payback, decide_True.
  - intros (Hex & Hauth & Hst & Hbal & Hself & ->).
    unfold refundPayment. fold p. rewrite Hex. simpl.
    assert (bool_decide (sender m = payer p) || bool_decide (sender m = owner s)
            = true) as ->.
    { apply orb_true_iff.
      destruct Hauth; [left | right]; by apply bool_decide_eq_true. }
    assert (bool_decide (status p = Pending) || bool_decide (status p = Completed)
            = true) as -> by (destruct Hst as [-> | ->]; done).
    simpl. rewrite payment_at_set_status, decide_True by done. simpl. fold p.
    rewrite (call_value_ok _ _ _ _ _ (payback_state (RefundOf pid) Refunded pid s));
      [| done | done | done].
    simpl. by rewrite payment_at_payback, decide_True.
Qed.

(** ** Reasons to revert *)

Ltac reason :=
  unfold nonpayable, pay_in, require, checked_add; intros H; revert H;
  repeat (simpl; case_match); simpl; intros [= <-]; repeat constructor.

Lemma _completePayment_reasons hfee hpay pid s e :
  status (payment_at s pid) = Pending →
  _completePayment hfee hpay pid s = Revert e →
  e = "CoinPay: Fee transfer failed" ∨ e = "CoinPay: Payment transfer failed".
Proof.
  intros Hst. unfold _completePayment. rewrite Hst. simpl.
  unfold split, checked_mul, checked_sub, require.
  repeat (simpl; case_match); simpl; intros [= <-]; auto.
Qed.

(** X18: whatever makes a call revert, the reason it gives is one of those the
    function called has in the source.  In particular createPayment never
    fails with "Payment not pending": the check that opens
    [_completePayment] always passes on the payment just created. *)
Theorem revert_reasons (hfee hpay : handler) (m : Msg) (c : Call) (s : State)
    (e : string) :
  dispatch hfee hpay m c s = Revert e →
  e ∈ reasons c ∧ e ≠ "CoinPay: Payment not pending".
Proof.
  intros H. assert (He : e ∈ reasons c); [| split; [done |]].
  - destruct c; simpl in H.
    + unfold pay_in in H. destruct (_ <? _); [injection H as <-; by left |].
      simpl in H. unfold createPayment in H.
      destruct (negb (_recipient =? 0)); [| injection H as <-; by repeat constructor].
      destruct (negb (_recipient =? sender m));
        [| injection H as <-; by repeat constructor].
      destruct (0 <? value m); [| injection H as <-; by repeat constructor].
      simpl in H. unfold checked_add in H.
      destruct (_ <=? _); [| done]. simpl in H.
      destruct (_completePayment _ _ _ _) as [s2 | e2 | c2] eqn:Hc; try done.
      simpl in H. injection H as <-.
      apply _completePayment_reasons in Hc as [-> | ->];
        [by repeat constructor | by repeat constructor |].
      unfold payment_at; simpl. by rewrite lookup_insert_eq.
    + revert H. unfold refundPayment. reason.
    + revert H. unfold cancelPayment. reason.
    + revert H. unfold updatePlatformFee. reason.
    + revert H. unfold updateFeeRecipient. reason.
    + revert H. unfold emergencyWithdraw. reason.
  - intros ->. destruct c; simpl in He;
      repeat (apply elem_of_cons in He as [He | He]; [discriminate He |]);
      by apply elem_of_nil in He.
Qed.

Lemma revert_reasons_witness :
  "CoinPay: Payment transfer failed"
    ∈ reasons (CreatePayment 11 "rejected").
Proof.
  apply (revert_reasons (interp Accept) (interp Reject) (mkMsg 10 1000 7)
           (CreatePayment 11 "rejected") deployed).
  by vm_compute.
Defined.

(** ** The payment id on the receipt *)

(** X19: the payment id that [createPayment] of [lib/contract.js] reads from the
    receipt of a successful createPayment transaction is the id the contract
    gave the payment, whatever further payments the receivers of its
    transfers created within the transaction; the case of a receipt without
    a PaymentCreated event does not arise. *)
Theorem receipt_names_the_payment (t : Tx) (r : N) (d : string) (s s' : State) :
  tx_call t = CreatePayment r d →
  execute t s = Ok s' →
  let pid := paymentCounter s + 1 in
  paymentCreatedEvent (receipt_logs s s') =
    Some (PaymentCreated pid (sender (tx_msg t)) r (value (tx_msg t)) d) ∧
  receipt_paymentId (receipt_logs s s') = Some pid.
Proof.
  destruct t as [m c kfee kpay]. simpl. intros -> H.
  set (pid := paymentCounter s + 1).
  unfold execute in H; simpl in H. inv_bind H. destruct a0 as [pid' s1].
  simpl in H. injection H as <-.
  unfold pay_in in Hstep. destruct (_ <? _); [done |]. injection Hstep as <-.
  destruct (createPayment_logs _ _ _ _ _ _ _ _ Hstep0) as (-> & [between Hev] & _).
  change (events (move (sender m) (self s) (value m) s)) with (events s) in Hev.
  change (paymentCounter (move (sender m) (self s) (value m) s) + 1) with pid in Hev.
  assert (Hlogs : receipt_logs s s1 =
            (PaymentCreated pid (sender m) r (value m) d :: reverse between ++
             [PaymentCompleted pid r
                (value m - value m *
                   platformFeeBps (move (sender m) (self s) (value m) s) / 10000)])%list).
  { unfold receipt_logs. rewrite Hev.
    rewrite (app_comm_cons between), (cons_middle _ (_ :: between)), app_assoc.
    rewrite take_app_length' by (rewrite !length_app; simpl; lia).
    by rewrite reverse_snoc, reverse_cons. }
  unfold receipt_paymentId, paymentCreatedEvent. by rewrite Hlogs.
Qed.

Lemma receipt_names_the_payment_witness :
  receipt_paymentId
    (receipt_logs two_payments
       (transact (mkTx (mkMsg 10 100 9) (CreatePayment 11 "third") Accept Accept)
                 two_payments)) = Some 3.
Proof.
  apply (receipt_names_the_payment
           (mkTx (mkMsg 10 100 9) (CreatePayment 11 "third") Accept Accept)
           11 "third" two_payments); [done | by vm_compute].
Defined.
